(** * The unified external-memory sorter of cdc/puller, and the table scheduler

    A shallow embedding of [cdc/puller/unified_sorter.go] (backends, the
    backend pool, the heap sorter, the merger and the facade) and of
    [schedulerImpl.getMinWorkloadCapture], followed by the properties of
    the specification stated over these definitions.

    Conventions.  Go's [uint64], [int64] and [int] are integers in [Z] with
    the wrap-around written where the code does arithmetic on them.  A Go
    function that returns [error] returns an [outcome]: [Ok] for a nil
    error, [Err] for a non-nil one, [Panic] for a run-time panic and
    [Fatal] for [log.Fatal], which ends the process.  Channels are queues;
    the context is never cancelled unless a definition takes the
    cancellation as an argument. *)

From Stdlib Require Import ZArith List String Bool Lia DecimalString PeanoNat.
From Stdlib Require Import Strings.Byte.
From Stdlib Require Import Sorted.
From stdpp Require Import base list.
Import ListNotations.

Local Open Scope Z_scope.

(** ** Outcomes of fallible code *)

Inductive outcome (A : Type) : Type :=
| Ok (a : A)
| Err (e : string)
| Panic (msg : string)
| Fatal (msg : string).

Arguments Ok {A} a.
Arguments Err {A} e.
Arguments Panic {A} msg.
Arguments Fatal {A} msg.

Definition obind {A B : Type} (m : outcome A) (k : A -> outcome B) : outcome B :=
  match m with
  | Ok a => k a
  | Err e => Err e
  | Panic msg => Panic msg
  | Fatal msg => Fatal msg
  end.

#[export] Instance outcome_ret : MRet outcome := fun A a => Ok a.
#[export] Instance outcome_bind : MBind outcome := fun A B k m => obind m k.

Definition isOk {A : Type} (m : outcome A) : bool :=
  match m with Ok _ => true | _ => false end.

(** ** Machine integers *)

Definition maxUint64 : Z := 2 ^ 64 - 1.
Definition maxInt32 : Z := 2 ^ 31 - 1.

(** Go's [int] and [int64] are 64-bit two's complement. *)
Definition wrapInt64 (z : Z) : Z := (z + 2 ^ 63) mod 2 ^ 64 - 2 ^ 63.

Definition len {A : Type} (l : list A) : Z := Z.of_nat (length l).

(** The first [n] elements and what follows them, with [n] a machine
    integer. *)
Fixpoint takeZ {A : Type} (n : Z) (l : list A) : list A :=
  match l with
  | [] => []
  | x :: r => if n <=? 0 then [] else x :: takeZ (n - 1) r
  end.

Fixpoint dropZ {A : Type} (n : Z) (l : list A) : list A :=
  match l with
  | [] => []
  | x :: r => if n <=? 0 then l else dropZ (n - 1) r
  end.

Definition byteOfZ (z : Z) : byte :=
  match Byte.of_N (Z.to_N (z mod 256)) with
  | Some b => b
  | None => x00
  end.

Definition zOfByte (b : byte) : Z := Z.of_N (Byte.to_N b).

(** [binary.LittleEndian] on a [uint32]. *)
Definition putUint32LE (n : Z) : list byte :=
  [byteOfZ n; byteOfZ (n / 256); byteOfZ (n / 65536); byteOfZ (n / 16777216)].

Definition uint32LE (bs : list byte) : Z :=
  match bs with
  | [b0; b1; b2; b3] =>
      zOfByte b0 + 256 * zOfByte b1 + 65536 * zOfByte b2 + 16777216 * zOfByte b3
  | _ => 0
  end.

(** ** Package model: events *)

Module model.

Inductive OpType : Type :=
| OpTypeUnknown
| OpTypePut
| OpTypeDelete
| OpTypeResolved.

Definition OpType_eqb (a b : OpType) : bool :=
  match a, b with
  | OpTypeUnknown, OpTypeUnknown => true
  | OpTypePut, OpTypePut => true
  | OpTypeDelete, OpTypeDelete => true
  | OpTypeResolved, OpTypeResolved => true
  | _, _ => false
  end.

Record RawKVEntry : Type := {
  OpType_ : OpType;
  Key : list byte;
  Value : list byte;
  OldValue : list byte;
  RawStartTs : Z;
  RawCRTs : Z;
  RegionID : Z
}.

(** [PolymorphicEvent]: [RawKV] is a pointer and may be nil. *)
Record PolymorphicEvent : Type := {
  StartTs : Z;
  CRTs : Z;
  RawKV : option RawKVEntry
}.

(** Modelled from the spec: package cdc/model is not under src/.  The
    event constructors follow their uses in the sorter and its test: a
    resolved marker "carries only a timestamp and a region id", a
    row-change event takes its timestamps from the raw entry. *)
Definition NewResolvedPolymorphicEvent (regionID resolvedTs : Z) : PolymorphicEvent :=
  {| StartTs := 0;
     CRTs := resolvedTs;
     RawKV := Some {| OpType_ := OpTypeResolved; Key := []; Value := []; OldValue := [];
                      RawStartTs := 0; RawCRTs := resolvedTs; RegionID := regionID |} |}.

Definition NewPolymorphicEvent (rawKV : RawKVEntry) : PolymorphicEvent :=
  {| StartTs := RawStartTs rawKV; CRTs := RawCRTs rawKV; RawKV := Some rawKV |}.

(** Modelled from the spec: [RawKVEntry.ApproximateSize] is not under
    src/; "the event's approximate size" is the byte count of its key and
    values. *)
Definition ApproximateSize (v : RawKVEntry) : Z :=
  len (Key v) + len (Value v) + len (OldValue v).

End model.

Import model.

Abbreviation Event := PolymorphicEvent.

(** [event.RawKV != nil && event.RawKV.OpType == model.OpTypeResolved] *)
Definition isResolved (e : Event) : bool :=
  match RawKV e with
  | Some kv => OpType_eqb (OpType_ kv) OpTypeResolved
  | None => false
  end.

(** [event.RawKV != nil && event.RawKV.OpType != model.OpTypeResolved] *)
Definition isRowChange (e : Event) : bool :=
  match RawKV e with
  | Some kv => negb (OpType_eqb (OpType_ kv) OpTypeResolved)
  | None => false
  end.

(** ** Constants of the sorter *)

Definition fileBufferSize : Z := 16 * 1024 * 1024.
Definition heapSizeLimit : Z := 4 * 1024 * 1024.
Definition numConcurrentHeaps : nat := 16.
Definition memoryLimit : Z := 1024 * 1024 * 1024.
Definition cacheSize : nat := 256.

(** ** Serialization *)

(** The generated msgpack code of [model.RawKVEntry] is not under src/:
    [MarshalMsg] receives the scratch buffer and returns the bytes of the
    entry, [UnmarshalMsg] decodes an entry and returns the bytes left. *)
Class rawKVCodec : Type := {
  MarshalMsg : RawKVEntry -> list byte -> outcome (list byte);
  UnmarshalMsg : list byte -> outcome (RawKVEntry * list byte)
}.

(** The interface [serializerDeserializer].  [unmarshal] is always called
    on a fresh event, which it returns filled. *)
Class serializerDeserializer : Type := {
  marshal : Event -> list byte -> outcome (list byte);
  unmarshal : list byte -> outcome (Event * list byte)
}.

Definition nilDeref : string := "invalid memory address or nil pointer dereference"%string.

Definition msgPackGenSerde_marshal `{rawKVCodec} (event : Event) (bytes : list byte)
  : outcome (list byte) :=
  match RawKV event with
  | Some kv => MarshalMsg kv bytes
  | None => Panic nilDeref
  end.

Definition msgPackGenSerde_unmarshal `{rawKVCodec} (bytes : list byte)
  : outcome (Event * list byte) :=
  '(kv, rest) ← UnmarshalMsg bytes;
  Ok ({| StartTs := RawStartTs kv; CRTs := RawCRTs kv; RawKV := Some kv |}, rest).

#[export] Instance msgPackGenSerde `{rawKVCodec} : serializerDeserializer :=
  {| marshal := msgPackGenSerde_marshal; unmarshal := msgPackGenSerde_unmarshal |}.

(** ** The file backend *)

(** An [os.File] on a regular file: the bytes on disk and the file offset.
    Reads and writes of the file itself succeed; a read at the end of the
    file returns no bytes. *)
Record osFile : Type := {
  content : list byte;
  offset : nat
}.

Definition fileWrite (f : osFile) (p : list byte) : osFile :=
  {| content := take (offset f) (content f) ++ replicate (offset f - length (content f)) x00
                  ++ p ++ drop (offset f + length p) (content f);
     offset := (offset f + length p)%nat |}.

Definition fileRead (f : osFile) (n : Z) : list byte * osFile :=
  let chunk := takeZ n (drop (offset f) (content f)) in
  (chunk, {| content := content f; offset := (offset f + length chunk)%nat |}).

Definition fileTruncate (f : osFile) (n : Z) : outcome osFile :=
  if n <? 0 then Err "truncate: invalid argument"
  else Ok {| content := take (Z.to_nat n) (content f)
                          ++ replicate (Z.to_nat n - length (content f)) x00;
             offset := offset f |}.

Definition fileSeekStart (f : osFile) : osFile :=
  {| content := content f; offset := 0 |}.

(** [bufio.ReadWriter] over the file: [rbuf] holds the bytes read ahead,
    [wbuf] the bytes not yet written. *)
Record fileSorterBackEnd : Type := {
  f : osFile;
  rbuf : list byte;
  wbuf : list byte;
  rawBytes : list byte;
  name : string;
  size : Z
}.

Definition setFile (b : fileSorterBackEnd) (file : osFile) (r w : list byte) : fileSorterBackEnd :=
  {| f := file; rbuf := r; wbuf := w; rawBytes := rawBytes b; name := name b; size := size b |}.

Definition setRawBytes (b : fileSorterBackEnd) (raw : list byte) : fileSorterBackEnd :=
  {| f := f b; rbuf := rbuf b; wbuf := wbuf b; rawBytes := raw; name := name b; size := size b |}.

Definition setSize (b : fileSorterBackEnd) (n : Z) : fileSorterBackEnd :=
  {| f := f b; rbuf := rbuf b; wbuf := wbuf b; rawBytes := rawBytes b; name := name b; size := n |}.

(** [bufio.Writer.Write]: bytes that fit are buffered; a write larger than
    the room left goes to the file, directly when nothing is buffered. *)
Definition writerWrite (b : fileSorterBackEnd) (p : list byte) : fileSorterBackEnd :=
  let avail := fileBufferSize - len (wbuf b) in
  if len p <=? avail then setFile b (f b) (rbuf b) (wbuf b ++ p)
  else if len (wbuf b) =? 0 then setFile b (fileWrite (f b) p) (rbuf b) []
  else
    let file1 := fileWrite (f b) (wbuf b ++ takeZ avail p) in
    let rest := dropZ avail p in
    if len rest <=? fileBufferSize then setFile b file1 (rbuf b) rest
    else setFile b (fileWrite file1 rest) (rbuf b) [].

Inductive readStatus : Type := RdOk | RdEOF | RdUnexpectedEOF.

(** [io.ReadFull] through the [bufio.Reader]: the buffered bytes first, then
    one read of the file, into the buffer or, for a large request, past it. *)
Definition readFull (b : fileSorterBackEnd) (n : Z) : readStatus * list byte * fileSorterBackEnd :=
  if n <=? 0 then (RdOk, [], b)
  else if n <=? len (rbuf b) then
    (RdOk, takeZ n (rbuf b), setFile b (f b) (dropZ n (rbuf b)) (wbuf b))
  else
    let want := n - len (rbuf b) in
    let '(chunk, file') := fileRead (f b) (if fileBufferSize <=? want then want else fileBufferSize) in
    let got := rbuf b ++ takeZ want chunk in
    let b' := setFile b file' (dropZ want chunk) (wbuf b) in
    if len got =? n then (RdOk, got, b')
    else if len got =? 0 then (RdEOF, got, b')
    else (RdUnexpectedEOF, got, b').

Section FileBackEnd.
Context `{serde : serializerDeserializer}.

Definition file_flush (b : fileSorterBackEnd) : outcome unit * fileSorterBackEnd :=
  let file1 := fileWrite (f b) (wbuf b) in
  (Ok (), setFile b (fileSeekStart file1) [] []).

Definition file_getSize (b : fileSorterBackEnd) : Z := size b.

Definition file_reset (b : fileSorterBackEnd) : outcome unit * fileSorterBackEnd :=
  match fileTruncate (f b) (size b) with
  | Ok file1 => (Ok (), setSize (setFile b (fileSeekStart file1) [] []) 0)
  | Err e => (Err e, b)
  | Panic msg => (Panic msg, b)
  | Fatal msg => (Fatal msg, b)
  end.

Definition file_readNext (b : fileSorterBackEnd) : outcome (option Event) * fileSorterBackEnd :=
  let '(st, bs, b1) := readFull b 4 in
  match st with
  | RdEOF => (Ok None, b1)
  | RdUnexpectedEOF => (Err "unexpected EOF", b1)
  | RdOk =>
      let size := uint32LE bs in
      let '(st2, raw, b2) := readFull b1 size in
      match st2 with
      | RdOk =>
          let b3 := setRawBytes b2 raw in
          match unmarshal raw with
          | Ok (event, _) => (Ok (Some event), b3)
          | Err e => (Err e, b3)
          | Panic msg => (Panic msg, b3)
          | Fatal msg => (Fatal msg, b3)
          end
      | RdEOF => (Err "EOF", b2)
      | RdUnexpectedEOF => (Err "unexpected EOF", b2)
      end
  end.

Definition file_writeNext (b : fileSorterBackEnd) (event : Event)
  : outcome unit * fileSorterBackEnd :=
  match marshal event (rawBytes b) with
  | Ok raw =>
      let b1 := setRawBytes b raw in
      let size := len raw in
      let b2 := writerWrite b1 (putUint32LE (size mod 2 ^ 32)) in
      let b3 := writerWrite b2 raw in
      (Ok (), setSize b3 (wrapInt64 (file_getSize b3 + (file_getSize b3 + 8))))
  | Err e => (Err e, setRawBytes b [])
  | Panic msg => (Panic msg, b)
  | Fatal msg => (Fatal msg, b)
  end.

End FileBackEnd.

(** [newFileSorterBackEnd]: [os.Create] of the file succeeded. *)
Definition newFileSorterBackEnd (fileName : string) : fileSorterBackEnd :=
  {| f := {| content := []; offset := 0 |};
     rbuf := []; wbuf := []; rawBytes := []; name := fileName; size := 0 |}.

(** ** The memory backend *)

Record memorySorterBackEnd : Type := {
  events : list Event;
  readIndex : Z
}.

Definition mem_readNext (m : memorySorterBackEnd) : outcome (option Event) * memorySorterBackEnd :=
  if len (events m) <=? readIndex m then (Ok None, m)
  else if readIndex m <? 0 then (Panic "index out of range", m)
  else
    match events m !! Z.to_nat (readIndex m) with
    | Some ret => (Ok (Some ret), {| events := events m; readIndex := readIndex m + 1 |})
    | None => (Panic "index out of range", m)
    end.

Definition mem_writeNext (m : memorySorterBackEnd) (event : Event)
  : outcome unit * memorySorterBackEnd :=
  (Ok (), {| events := events m ++ [event]; readIndex := readIndex m |}).

Definition mem_getSize (m : memorySorterBackEnd) : Z := -1.

Definition mem_flush (m : memorySorterBackEnd) : outcome unit * memorySorterBackEnd :=
  (Ok (), m).

Definition mem_reset (m : memorySorterBackEnd) : outcome unit * memorySorterBackEnd :=
  (Ok (), {| events := []; readIndex := 0 |}).

(** ** The interface [sorterBackEnd] *)

(** A value of the interface: a memory backend, a file backend, or the
    value that [alloc] makes on a cache hit, when it casts [ret] to a
    pointer to [sorterBackEnd] and dereferences it: [ret] points to the
    parked [fileSorterBackEnd] and not to an interface, so the two words of
    the value are the fields [f] and [readWriter] of [parked], and it has no
    method table. *)
Inductive sorterBackEnd : Type :=
| MemoryBackEnd (m : memorySorterBackEnd)
| FileBackEnd (b : fileSorterBackEnd)
| InvalidBackEnd (parked : fileSorterBackEnd).

(** A method call through [InvalidBackEnd] looks the method up in what is
    not a method table; the runtime stops the process on the bad address. *)
Definition invalidCall : string := "unexpected fault address"%string.

Definition liftMem {A : Type} (r : outcome A * memorySorterBackEnd) : outcome A * sorterBackEnd :=
  (fst r, MemoryBackEnd (snd r)).

Definition liftFile {A : Type} (r : outcome A * fileSorterBackEnd) : outcome A * sorterBackEnd :=
  (fst r, FileBackEnd (snd r)).

Section BackEnd.
Context `{serde : serializerDeserializer}.

Definition readNext (b : sorterBackEnd) : outcome (option Event) * sorterBackEnd :=
  match b with
  | MemoryBackEnd m => liftMem (mem_readNext m)
  | FileBackEnd fb => liftFile (file_readNext fb)
  | InvalidBackEnd _ => (Fatal invalidCall, b)
  end.

Definition writeNext (b : sorterBackEnd) (event : Event) : outcome unit * sorterBackEnd :=
  match b with
  | MemoryBackEnd m => liftMem (mem_writeNext m event)
  | FileBackEnd fb => liftFile (file_writeNext fb event)
  | InvalidBackEnd _ => (Fatal invalidCall, b)
  end.

Definition getSize (b : sorterBackEnd) : outcome Z :=
  match b with
  | MemoryBackEnd m => Ok (mem_getSize m)
  | FileBackEnd fb => Ok (file_getSize fb)
  | InvalidBackEnd _ => Fatal invalidCall
  end.

Definition flush (b : sorterBackEnd) : outcome unit * sorterBackEnd :=
  match b with
  | MemoryBackEnd m => liftMem (mem_flush m)
  | FileBackEnd fb => liftFile (file_flush fb)
  | InvalidBackEnd _ => (Fatal invalidCall, b)
  end.

Definition reset (b : sorterBackEnd) : outcome unit * sorterBackEnd :=
  match b with
  | MemoryBackEnd m => liftMem (mem_reset m)
  | FileBackEnd fb => liftFile (file_reset fb)
  | InvalidBackEnd _ => (Fatal invalidCall, b)
  end.

End BackEnd.

(** ** The backend pool *)

Record backEndPool : Type := {
  memoryUseEstimate : Z;
  fileNameCounter : Z;
  cache : list (option fileSorterBackEnd);
  dir : string
}.

Definition newBackEndPool (d : string) : backEndPool :=
  {| memoryUseEstimate := 0; fileNameCounter := 0; cache := replicate cacheSize None; dir := d |}.

Definition addMemoryUse (p : backEndPool) (delta : Z) : backEndPool :=
  {| memoryUseEstimate := wrapInt64 (memoryUseEstimate p + delta);
     fileNameCounter := fileNameCounter p; cache := cache p; dir := dir p |}.

Definition setCache (p : backEndPool) (c : list (option fileSorterBackEnd)) : backEndPool :=
  {| memoryUseEstimate := memoryUseEstimate p; fileNameCounter := fileNameCounter p;
     cache := c; dir := dir p |}.

Definition setFileNameCounter (p : backEndPool) (n : Z) : backEndPool :=
  {| memoryUseEstimate := memoryUseEstimate p; fileNameCounter := n;
     cache := cache p; dir := dir p |}.

(** The loop of [alloc] over the cache: [SwapPointer(ptr, nil)] on each
    slot until one held a backend. *)
Fixpoint takeCached (c : list (option fileSorterBackEnd))
  : option (fileSorterBackEnd * list (option fileSorterBackEnd)) :=
  match c with
  | [] => None
  | Some b :: r => Some (b, None :: r)
  | None :: r =>
      match takeCached r with
      | Some (b, r') => Some (b, None :: r')
      | None => None
      end
  end.

(** The loop of [dealloc] over the cache: [CompareAndSwapPointer(ptr, nil, b)]
    on each slot until one was free. *)
Fixpoint park (c : list (option fileSorterBackEnd)) (b : fileSorterBackEnd)
  : option (list (option fileSorterBackEnd)) :=
  match c with
  | [] => None
  | None :: r => Some (Some b :: r)
  | Some b' :: r =>
      match park r b with
      | Some r' => Some (Some b' :: r')
      | None => None
      end
  end.

Definition decimal (n : Z) : string := NilZero.string_of_uint (N.to_uint (Z.to_N n)).

(** The environment of the pool: whether [os.Create] of a path fails. *)
Record osEnv : Type := {
  createErr : string -> option string
}.

Section Pool.
Context `{codec : rawKVCodec}.

(** On a cache hit the slot is emptied and the value returned is the
    interface read at [ret]: not the parked backend but [InvalidBackEnd] of
    it. *)
Definition alloc (env : osEnv) (p : backEndPool) : outcome sorterBackEnd * backEndPool :=
  if memoryUseEstimate p <? memoryLimit then
    (Ok (MemoryBackEnd {| events := []; readIndex := 0 |}), addMemoryUse p heapSizeLimit)
  else
    match takeCached (cache p) with
    | Some (b, c') => (Ok (InvalidBackEnd b), setCache p c')
    | None =>
        let n := (fileNameCounter p + 1) mod 2 ^ 64 in
        let p1 := setFileNameCounter p n in
        let fname := (dir p ++ "/sort-" ++ decimal n)%string in
        match createErr env fname with
        | Some e => (Err e, p1)
        | None => (Ok (FileBackEnd (newFileSorterBackEnd fname)), addMemoryUse p1 heapSizeLimit)
        end
    end.

Definition dealloc (p : backEndPool) (backEnd : sorterBackEnd) : outcome unit * backEndPool :=
  let '(r, b) := reset backEnd in
  match r with
  | Ok _ =>
      match b with
      | MemoryBackEnd _ => (Ok (), addMemoryUse p (- heapSizeLimit))
      | FileBackEnd fb =>
          match park (cache p) fb with
          | Some c' => (Ok (), setCache p c')
          | None => (Panic "Unexpected type", p)
          end
      | InvalidBackEnd _ => (Panic "Unexpected type", p)
      end
  | Err e => (Err e, p)
  | Panic msg => (Panic msg, p)
  | Fatal msg => (Fatal msg, p)
  end.

End Pool.

(** ** Flush tasks and the sort heap *)

(** [taskPtr] is the address of the task, the key of the merger's maps;
    [finished] is what a receive on the completion channel yields: an error
    sent by the drain, or nothing once the channel is closed.  The closure
    [dealloc] is [taskDealloc] below. *)
Record flushTask : Type := {
  taskPtr : nat;
  heapSorterId : nat;
  backend : option sorterBackEnd;
  maxResolvedTs : Z;
  finished : option string
}.

Definition setBackend (t : flushTask) (b : sorterBackEnd) : flushTask :=
  {| taskPtr := taskPtr t; heapSorterId := heapSorterId t; backend := Some b;
     maxResolvedTs := maxResolvedTs t; finished := finished t |}.

Record sortItem : Type := {
  entry : option Event;
  data : option flushTask
}.

Definition sortHeap : Type := list sortItem.

(** Modelled from the spec: the comparison of [sortHeap] is not under src/.
    The heap is "keyed by SortKey", the lexicographic order of
    [(CRTs, StartTs)]; equal keys leave the heap in an order of its own,
    here the order of insertion. *)
Definition sortLess (a b : Event) : bool :=
  (CRTs a <? CRTs b) || ((CRTs a =? CRTs b) && (StartTs a <? StartTs b)).

Definition itemLess (a b : sortItem) : bool :=
  match entry a, entry b with
  | Some x, Some y => sortLess x y
  | _, _ => false
  end.

Fixpoint popMin (best : sortItem) (rest : list sortItem) : sortItem * list sortItem :=
  match rest with
  | [] => (best, [])
  | x :: r =>
      if itemLess x best then
        let '(m, r') := popMin x r in (m, best :: r')
      else
        let '(m, r') := popMin best r in (m, x :: r')
  end.

(** [heap.Pop] *)
Definition heapPop (h : sortHeap) : option (sortItem * sortHeap) :=
  match h with
  | [] => None
  | x :: r => Some (popMin x r)
  end.

Definition hasNilEntry (h : sortHeap) : bool :=
  existsb (fun it => match entry it with None => true | Some _ => false end) h.

(** [heap.Push]: on a non-empty heap the new item is compared with its
    parent, which dereferences both entries. *)
Definition heapPush (h : sortHeap) (x : sortItem) : outcome sortHeap :=
  match h with
  | [] => Ok [x]
  | _ :: _ => if hasNilEntry (x :: h) then Panic nilDeref else Ok (h ++ [x])
  end.

(** ** The heap sorter *)

Record heapSorter : Type := {
  id : nat;
  heap : sortHeap;
  maxResolved : Z;
  heapSizeBytesEstimate : Z
}.

Definition newHeapSorter (i : nat) : heapSorter :=
  {| id := i; heap := []; maxResolved := 0; heapSizeBytesEstimate := 0 |}.

(** What the heap sorters share: the pool, the queue of flush tasks to the
    merger, and the next free address for a task. *)
Record world : Type := {
  pool : backEndPool;
  sorterOutCh : list flushTask;
  nextPtr : nat
}.

Section HeapSorter.
Context `{codec : rawKVCodec}.

(** The drain of [flush]: pop the old heap into the backend, flush the
    backend; the result is the backend and what [finished] yields. *)
Fixpoint drainHeap (fuel : nat) (oldHeap : sortHeap) (b : sorterBackEnd)
  : option string * sorterBackEnd :=
  match fuel with
  | O => (None, b)
  | S fuel' =>
      match heapPop oldHeap with
      | None => (None, b)
      | Some (item, rest) =>
          match entry item with
          | None => (Some nilDeref, b)
          | Some event =>
              let '(r, b') := writeNext b event in
              match r with
              | Ok _ => drainHeap fuel' rest b'
              | Err e | Panic e | Fatal e => (Some e, b')
              end
          end
      end
  end.

Definition flushDrain (oldHeap : sortHeap) (b : sorterBackEnd) : option string * sorterBackEnd :=
  let '(fin, b1) := drainHeap (length oldHeap) oldHeap b in
  match fin with
  | Some e => (Some e, b1)
  | None =>
      let '(r, b2) := flush b1 in
      match r with
      | Ok _ => (None, b2)
      | Err e | Panic e | Fatal e => (Some e, b2)
      end
  end.

Definition heapSorter_flush (env : osEnv) (h : heapSorter) (w : world) (maxResolvedTs_ : Z)
  : outcome (heapSorter * world) :=
  match heap h with
  | [] =>
      let task := {| taskPtr := nextPtr w; heapSorterId := id h; backend := None;
                     maxResolvedTs := maxResolvedTs_; finished := None |} in
      Ok (h, {| pool := pool w; sorterOutCh := sorterOutCh w ++ [task]; nextPtr := S (nextPtr w) |})
  | oldHeap =>
      let '(r, pool') := alloc env (pool w) in
      backEnd ← r;
      let '(fin, backEnd') := flushDrain oldHeap backEnd in
      let task := {| taskPtr := nextPtr w; heapSorterId := id h; backend := Some backEnd';
                     maxResolvedTs := maxResolvedTs_; finished := fin |} in
      Ok ({| id := id h; heap := []; maxResolved := maxResolved h;
             heapSizeBytesEstimate := heapSizeBytesEstimate h |},
          {| pool := pool'; sorterOutCh := sorterOutCh w ++ [task]; nextPtr := S (nextPtr w) |})
  end.

(** One iteration of the loop of [heapSorter.run] on a received event. *)
Definition heapSorter_step (env : osEnv) (h : heapSorter) (w : world) (event : Event)
  : outcome (heapSorter * world) :=
  heap' ← heapPush (heap h) {| entry := Some event; data := None |};
  let isResolvedEvent := isResolved event in
  maxResolved' ←
    (match RawKV event with
     | Some kv =>
         if isResolvedEvent then
           if RawCRTs kv <? maxResolved h then Fatal "ResolvedTs regression, bug?"
           else Ok (RawCRTs kv)
         else Ok (maxResolved h)
     | None => Ok (maxResolved h)
     end);
  approx ←
    (match RawKV event with
     | Some kv => Ok (ApproximateSize kv)
     | None => Panic nilDeref
     end);
  let estimate := wrapInt64 (heapSizeBytesEstimate h + approx) in
  let h1 := {| id := id h; heap := heap'; maxResolved := maxResolved';
               heapSizeBytesEstimate := estimate |} in
  if (heapSizeLimit <=? estimate) || isResolvedEvent then
    '(h2, w2) ← heapSorter_flush env h1 w maxResolved';
    Ok ({| id := id h2; heap := heap h2; maxResolved := maxResolved h2;
           heapSizeBytesEstimate := 0 |}, w2)
  else Ok (h1, w).

(** [heapSorter.run] on the events of its input queue, in order. *)
Fixpoint heapSorter_run (env : osEnv) (h : heapSorter) (w : world) (input : list Event)
  : outcome (heapSorter * world) :=
  match input with
  | [] => Ok (h, w)
  | event :: rest =>
      '(h', w') ← heapSorter_step env h w event;
      heapSorter_run env h' w' rest
  end.

End HeapSorter.

(** ** The merger *)

(** Code that updates a state and may fail: the state survives the failure
    (what was sent on a channel stays sent). *)
Definition stateful (S A : Type) : Type := S -> outcome A * S.

Definition sbind {S A B : Type} (m : stateful S A) (k : A -> stateful S B) : stateful S B :=
  fun s =>
    match m s with
    | (Ok a, s') => k a s'
    | (Err e, s') => (Err e, s')
    | (Panic msg, s') => (Panic msg, s')
    | (Fatal msg, s') => (Fatal msg, s')
    end.

Notation "'do' x <- m ; k" := (sbind m (fun x => k))
  (at level 10, x name, m at level 100, k at level 200).

(** The merger's variables.  [pendingSet] is an association list keyed by
    [taskPtr], in the order of the map's iteration; [workingSet] and
    [mergeHeap] are the [workingSet] and [sortHeap] of the current round;
    [outCh] lists what was sent on [out], oldest first; [ticker] tells, for
    each poll of [resolvedTicker.C], whether a tick was waiting. *)
Record merger : Type := {
  lastResolvedTs : list Z;
  minResolvedTs : Z;
  pendingSet : list (flushTask * option Event);
  workingSet : list nat;
  mergeHeap : sortHeap;
  mpool : backEndPool;
  outCh : list Event;
  ticker : list bool
}.

Definition newMerger (numSorters : nat) (p : backEndPool) (ticks : list bool) : merger :=
  {| lastResolvedTs := replicate numSorters 0; minResolvedTs := 0; pendingSet := [];
     workingSet := []; mergeHeap := []; mpool := p; outCh := []; ticker := ticks |}.

Definition withFrontier (m : merger) (l : list Z) (ts : Z) : merger :=
  {| lastResolvedTs := l; minResolvedTs := ts; pendingSet := pendingSet m;
     workingSet := workingSet m; mergeHeap := mergeHeap m; mpool := mpool m;
     outCh := outCh m; ticker := ticker m |}.

Definition withPending (m : merger) (ps : list (flushTask * option Event)) : merger :=
  {| lastResolvedTs := lastResolvedTs m; minResolvedTs := minResolvedTs m; pendingSet := ps;
     workingSet := workingSet m; mergeHeap := mergeHeap m; mpool := mpool m;
     outCh := outCh m; ticker := ticker m |}.

Definition withWorking (m : merger) (ws : list nat) : merger :=
  {| lastResolvedTs := lastResolvedTs m; minResolvedTs := minResolvedTs m;
     pendingSet := pendingSet m; workingSet := ws; mergeHeap := mergeHeap m; mpool := mpool m;
     outCh := outCh m; ticker := ticker m |}.

Definition withHeap (m : merger) (h : sortHeap) : merger :=
  {| lastResolvedTs := lastResolvedTs m; minResolvedTs := minResolvedTs m;
     pendingSet := pendingSet m; workingSet := workingSet m; mergeHeap := h; mpool := mpool m;
     outCh := outCh m; ticker := ticker m |}.

Definition withPool (m : merger) (p : backEndPool) : merger :=
  {| lastResolvedTs := lastResolvedTs m; minResolvedTs := minResolvedTs m;
     pendingSet := pendingSet m; workingSet := workingSet m; mergeHeap := mergeHeap m; mpool := p;
     outCh := outCh m; ticker := ticker m |}.

Definition withOut (m : merger) (o : list Event) : merger :=
  {| lastResolvedTs := lastResolvedTs m; minResolvedTs := minResolvedTs m;
     pendingSet := pendingSet m; workingSet := workingSet m; mergeHeap := mergeHeap m;
     mpool := mpool m; outCh := o; ticker := ticker m |}.

Definition withTicker (m : merger) (t : list bool) : merger :=
  {| lastResolvedTs := lastResolvedTs m; minResolvedTs := minResolvedTs m;
     pendingSet := pendingSet m; workingSet := workingSet m; mergeHeap := mergeHeap m;
     mpool := mpool m; outCh := outCh m; ticker := t |}.

(** [pendingSet[task] = cache] *)
Fixpoint pendingInsert (ps : list (flushTask * option Event)) (task : flushTask)
  (cache : option Event) : list (flushTask * option Event) :=
  match ps with
  | [] => [(task, cache)]
  | (t, c) :: r =>
      if Nat.eqb (taskPtr t) (taskPtr task) then (task, cache) :: r
      else (t, c) :: pendingInsert r task cache
  end.

(** [delete(pendingSet, task)] *)
Definition pendingDelete (ps : list (flushTask * option Event)) (ptr : nat)
  : list (flushTask * option Event) :=
  filter (fun tc => negb (Nat.eqb (taskPtr (fst tc)) ptr)) ps.

(** [delete(workingSet, task)] *)
Definition workingDelete (ws : list nat) (ptr : nat) : list nat :=
  filter (fun p => negb (Nat.eqb p ptr)) ws.

(** The events a backend can still yield: a bound on the reads that
    succeed. *)
Definition backendRemaining (b : sorterBackEnd) : nat :=
  match b with
  | MemoryBackEnd m => Z.to_nat (len (events m) - readIndex m)
  | FileBackEnd fb => (length (rbuf fb) + length (drop (offset (f fb)) (content (f fb))))%nat
  | InvalidBackEnd _ => 0%nat
  end.

Definition itemWeight (it : sortItem) : nat :=
  match data it with
  | Some {| backend := Some b |} => S (backendRemaining b)
  | _ => 1%nat
  end.

Definition heapWeight (h : sortHeap) : nat := list_sum (map itemWeight h).

Section Merger.
Context `{codec : rawKVCodec}.

(** [sendResolvedEvent]: the send on [out] goes through. *)
Definition sendResolvedEvent (ts : Z) : stateful merger unit :=
  fun m => (Ok (), withOut m (outCh m ++ [NewResolvedPolymorphicEvent 0 ts])).

(** [task.backend.readNext()] *)
Definition taskReadNext (task : flushTask) : outcome (option Event) * flushTask :=
  match backend task with
  | None => (Panic nilDeref, task)
  | Some b => let '(r, b') := readNext b in (r, setBackend task b')
  end.

(** [task.dealloc()]: the pool's [dealloc] for the backend of the task,
    nothing for an empty flush. *)
Definition taskDealloc (task : flushTask) : stateful merger unit :=
  fun m =>
    match backend task with
    | None => (Ok (), m)
    | Some b => let '(r, p') := dealloc (mpool m) b in (r, withPool m p')
    end.

(** The body of the first loop of [onMinResolvedTsUpdate], for one entry
    of [pendingSet]. *)
Definition primeTask (task : flushTask) (cache : option Event) : stateful merger unit :=
  fun m =>
    if maxResolvedTs task <=? minResolvedTs m then
      let '(r, task') :=
        match cache with
        | Some e => (Ok (Some e), task)
        | None =>
            match finished task with
            | Some err => (Err err, task)
            | None => taskReadNext task
            end
        end in
      match r with
      | Ok event =>
          if match event with Some e => minResolvedTs m <? CRTs e | None => false end then
            (Ok (), withPending m (pendingInsert (pendingSet m) task' event))
          else
            let m1 := withWorking (withPending m (pendingInsert (pendingSet m) task' None))
                        (taskPtr task' :: workingSet m) in
            match heapPush (mergeHeap m1) {| entry := event; data := Some task' |} with
            | Ok h => (Ok (), withHeap m1 h)
            | Err e => (Err e, m1)
            | Panic msg => (Panic msg, m1)
            | Fatal msg => (Fatal msg, m1)
            end
      | Err e => (Err e, m)
      | Panic msg => (Panic msg, m)
      | Fatal msg => (Fatal msg, m)
      end
    else (Ok (), m).

Fixpoint prime (todo : list (flushTask * option Event)) : stateful merger unit :=
  match todo with
  | [] => fun m => (Ok (), m)
  | (task, cache) :: rest => do _ <- primeTask task cache; prime rest
  end.

Definition retire (task : flushTask) : stateful merger unit :=
  fun m =>
    let m1 := withWorking m (workingDelete (workingSet m) (taskPtr task)) in
    let '(r, task') := taskReadNext task in
    match r with
    | Ok None =>
        taskDealloc task' (withPending m1 (pendingDelete (pendingSet m1) (taskPtr task')))
    | Ok (Some nextEvent) =>
        (Ok (), withPending m1 (pendingInsert (pendingSet m1) task' (Some nextEvent)))
    | Err e => (Err e, m1)
    | Panic msg => (Panic msg, m1)
    | Fatal msg => (Fatal msg, m1)
    end.

(** The poll of the ticker after a push back: a waiting tick sends
    [event.CRTs] as a resolved marker. *)
Definition pollTicker (event : Event) : stateful merger unit :=
  fun m =>
    match ticker m with
    | true :: rest => sendResolvedEvent (CRTs event) (withTicker m rest)
    | false :: rest => (Ok (), withTicker m rest)
    | [] => (Ok (), m)
    end.

(** One iteration of [for sortHeap.Len() > 0] on the popped item; the
    loop goes on after [Ok]. *)
Definition drainStep (item : sortItem) : stateful merger unit :=
  fun m =>
    match data item with
    | None => (Panic "interface conversion: interface {} is nil, not *puller.flushTask", m)
    | Some task =>
        match entry item with
        | None => (Panic nilDeref, m)
        | Some event =>
            let m1 := if isRowChange event then withOut m (outCh m ++ [event]) else m in
            let '(r, task') := taskReadNext task in
            match r with
            | Ok None =>
                taskDealloc task'
                  (withPending (withWorking m1 (workingDelete (workingSet m1) (taskPtr task')))
                     (pendingDelete (pendingSet m1) (taskPtr task')))
            | Ok (Some next) =>
                if minResolvedTs m1 <=? CRTs next then retire task' m1
                else
                  match heapPush (mergeHeap m1) {| entry := Some next; data := Some task' |} with
                  | Ok h => pollTicker next (withHeap m1 h)
                  | Err e => (Err e, m1)
                  | Panic msg => (Panic msg, m1)
                  | Fatal msg => (Fatal msg, m1)
                  end
            | Err e => (Err e, m1)
            | Panic msg => (Panic msg, m1)
            | Fatal msg => (Fatal msg, m1)
            end
        end
    end.

(** The second loop of [onMinResolvedTsUpdate]; [None] when [fuel]
    iterations did not empty the heap. *)
Fixpoint drain (fuel : nat) (m : merger) : option (outcome unit * merger) :=
  match fuel with
  | O => None
  | S fuel' =>
      match heapPop (mergeHeap m) with
      | None => Some (Ok (), m)
      | Some (item, rest) =>
          match drainStep item (withHeap m rest) with
          | (Ok _, m') => drain fuel' m'
          | failed => Some failed
          end
      end
  end.

(** A merge round.  Every iteration of the drain takes an item off the
    heap and puts back at most one whose backend has fewer events left, so
    [heapWeight] bounds the iterations and the fuel never runs out
    ([drain_enough_fuel] below). *)
Definition onMinResolvedTsUpdate : stateful merger unit :=
  fun m =>
    let m0 := withHeap (withWorking m []) [] in
    match prime (pendingSet m0) m0 with
    | (Ok _, m1) =>
        match drain (S (heapWeight (mergeHeap m1))) m1 with
        | Some (Ok _, m2) => sendResolvedEvent (minResolvedTs m2) m2
        | Some failed => failed
        | None => (Panic "unreachable", m1)
        end
    | failed => failed
    end.

(** [minTemp]: the running minimum over [lastResolvedTs]. *)
Definition minOver (l : list Z) : Z :=
  fold_left (fun minTemp ts => if ts <? minTemp then ts else minTemp) l maxUint64.

(** The body of the loop of [runMerger] for a value received from [in]:
    [None] is the nil task that a closed channel yields. *)
Definition mergerRecv (received : option flushTask) : stateful merger unit :=
  fun m =>
    match received with
    | None => (Err "Unified Sorter: nil flushTask, exiting", m)
    | Some task =>
        let m1 := match backend task with
                  | Some _ => withPending m (pendingInsert (pendingSet m) task None)
                  | None => m
                  end in
        match lastResolvedTs m1 !! heapSorterId task with
        | None => (Panic "index out of range", m1)
        | Some prev =>
            let l := if prev <? maxResolvedTs task
                     then <[heapSorterId task := maxResolvedTs task]> (lastResolvedTs m1)
                     else lastResolvedTs m1 in
            let minTemp := minOver l in
            if minResolvedTs m1 <? minTemp
            then onMinResolvedTsUpdate (withFrontier m1 l minTemp)
            else (Ok (), withFrontier m1 l (minResolvedTs m1))
        end
    end.

End Merger.

(** ** Channels of flush tasks, [runMerger] and the facade *)

(** [chan *flushTask]: the queued tasks and whether the channel is closed. *)
Record flushChan : Type := {
  queue : list flushTask;
  closed : bool
}.

Definition chanClose (c : flushChan) : flushChan := {| queue := queue c; closed := true |}.

(** A receive: a queued task, the nil of a closed and drained channel, or
    nothing yet. *)
Definition chanRecv (c : flushChan) : option (option flushTask * flushChan) :=
  match queue c with
  | t :: r => Some (Some t, {| queue := r; closed := closed c |})
  | [] => if closed c then Some (None, c) else None
  end.

(** Where a run of the merger stands: waiting on an open, empty channel, or
    returned (the result is the returned error). *)
Inductive mergerRun : Type :=
| Waiting (m : merger)
| Returned (r : outcome unit) (m : merger).

(** The context of [runMerger] as its loop sees it: [None] when it is not
    cancelled while the merger runs; [Some (n, err)] when it is cancelled
    with [ctx.Err() = err] and the [select] of the loop, having taken [n]
    more values from [in], finds [ctx.Done()] closed and takes that arm.
    The context is alive during the rounds: a cancellation that a [select]
    inside a round would find is not part of this model. *)
Definition cancellation : Type := option (nat * string).

Section RunMerger.
Context `{codec : rawKVCodec}.

(** One more value taken from [in] before the cancellation is seen. *)
Definition received (ctx : cancellation) : cancellation :=
  match ctx with
  | Some (S n, err) => Some (n, err)
  | other => other
  end.

(** The loop of [runMerger] over what [in] holds, with both arms of its
    [select]: at [Some (0, err)] the arm [<-ctx.Done()] is taken and the
    merger returns [ctx.Err()]; otherwise the arm [task := <-in], and when
    [in] is open and empty the merger waits, for the cancellation if there
    is to be one. *)
Fixpoint mergerLoop (ctx : cancellation) (q : list flushTask) (isClosed : bool) (m : merger)
  : mergerRun :=
  match ctx with
  | Some (O, err) => Returned (Err err) m
  | _ =>
      match q with
      | [] =>
          if isClosed then let '(r, m') := mergerRecv None m in Returned r m'
          else
            match ctx with
            | Some (_, err) => Returned (Err err) m
            | None => Waiting m
            end
      | task :: rest =>
          match mergerRecv (Some task) m with
          | (Ok _, m') => mergerLoop (received ctx) rest isClosed m'
          | (r, m') => Returned r m'
          end
      end
  end.

Definition runMerger (ctx : cancellation) (numSorters : nat) (inCh : flushChan)
  (p : backEndPool) (ticks : list bool) : mergerRun :=
  mergerLoop ctx (queue inCh) (closed inCh) (newMerger numSorters p ticks).

End RunMerger.

(** The facade.  [sorterInputs] are the input queues of the heap sorters,
    [sorterOut] is [sorterOutCh]. *)
Record UnifiedSorter : Type := {
  nextSorterId : Z;
  sorterInputs : list (list Event);
  sorterOut : flushChan
}.

Definition NewUnifiedSorter : UnifiedSorter :=
  {| nextSorterId := 0; sorterInputs := replicate numConcurrentHeaps [];
     sorterOut := {| queue := []; closed := false |} |}.

(** What the [select] of [Run] takes: the cancellation, an error value from
    a child, or an input event. *)
Inductive runSelect : Type :=
| CtxDone (err : string)
| ChildReturned (err : option string)
| Input (event : Event).

(** The dispatch of one input event: a resolved marker goes to every heap
    sorter, any other event to sorter [nextSorterId % numConcurrentHeaps]. *)
Definition dispatch (s : UnifiedSorter) (event : Event) : outcome UnifiedSorter :=
  if isResolved event then
    Ok {| nextSorterId := nextSorterId s;
          sorterInputs := map (fun q => q ++ [event]) (sorterInputs s);
          sorterOut := sorterOut s |}
  else
    let targetId := Z.rem (nextSorterId s) (Z.of_nat numConcurrentHeaps) in
    if targetId <? 0 then Panic "index out of range"
    else
      match sorterInputs s !! Z.to_nat targetId with
      | None => Panic "index out of range"
      | Some q =>
          Ok {| nextSorterId := wrapInt64 (nextSorterId s + 1);
                sorterInputs := <[Z.to_nat targetId := q ++ [event]]> (sorterInputs s);
                sorterOut := sorterOut s |}
      end.

Definition closeSorterOut (s : UnifiedSorter) : UnifiedSorter :=
  {| nextSorterId := nextSorterId s; sorterInputs := sorterInputs s;
     sorterOut := chanClose (sorterOut s) |}.

(** [UnifiedSorter.Run] over the choices of its [select]: [None] while it
    has not returned; on return the deferred [close(sorterOutCh)] has run. *)
Fixpoint Run (sel : list runSelect) (s : UnifiedSorter) : option (outcome unit) * UnifiedSorter :=
  match sel with
  | [] => (None, s)
  | CtxDone err :: _ => (Some (Err err), closeSorterOut s)
  | ChildReturned (Some err) :: _ => (Some (Err err), closeSorterOut s)
  | ChildReturned None :: rest => Run rest s
  | Input event :: rest =>
      match dispatch s event with
      | Ok s' => Run rest s'
      | failed => (Some (failed ≫= fun _ => Ok ()), closeSorterOut s)
      end
  end.

Section Pipeline.
Context `{codec : rawKVCodec}.

(** One schedule of the whole sorter: the facade dispatches every input
    event, then the heap sorters run one after the other over their input
    queues, then the merger runs over the tasks they queued.  The result
    is the heap sorters as they stand and the run of the merger. *)
Fixpoint runHeapSorters (env : osEnv) (i : nat) (inputs : list (list Event)) (w : world)
  : outcome (list heapSorter * world) :=
  match inputs with
  | [] => Ok ([], w)
  | input :: rest =>
      '(h, w') ← heapSorter_run env (newHeapSorter i) w input;
      '(hs, w'') ← runHeapSorters env (S i) rest w';
      Ok (h :: hs, w'')
  end.

Definition sequentialRun (env : osEnv) (d : string) (ticks : list bool) (input : list Event)
  : outcome (list heapSorter * mergerRun) :=
  match Run (map Input input) NewUnifiedSorter with
  | (None, s) =>
      '(hs, w) ← runHeapSorters env 0 (sorterInputs s)
                   {| pool := newBackEndPool d; sorterOutCh := []; nextPtr := 0 |};
      Ok (hs, mergerLoop None (sorterOutCh w) false
                (newMerger numConcurrentHeaps (pool w) ticks))
  | (Some r, _) => r ≫= (fun _ => Err "Run returned")
  end.

End Pipeline.

(** ** The scheduler: [getMinWorkloadCapture] *)

Module replication.

Definition CaptureID : Type := string.
Definition ChangeFeedID : Type := string.
Definition TableID : Type := Z.

(** [model.TaskStatus], of which the scheduler reads the table map. *)
Record TaskStatus : Type := {
  Tables : list TableID
}.

(** [ownerState.TaskStatuses]: a map of maps, each listed in the order of
    its iteration (which Go leaves open: every order is a run). *)
Definition TaskStatuses : Type := list (ChangeFeedID * list (CaptureID * TaskStatus)).

(** [workloads[captureID] += n] *)
Fixpoint addWorkload (workloads : list (CaptureID * Z)) (captureID : CaptureID) (n : Z)
  : list (CaptureID * Z) :=
  match workloads with
  | [] => [(captureID, wrapInt64 n)]
  | (c, w) :: r =>
      if String.eqb c captureID then (c, wrapInt64 (w + n)) :: r
      else (c, w) :: addWorkload r captureID n
  end.

Definition countWorkloads (statuses : TaskStatuses) : list (CaptureID * Z) :=
  fold_left
    (fun workloads captureStatuses =>
       fold_left (fun wl ct => addWorkload wl (fst ct) (len (Tables (snd ct))))
         (snd captureStatuses) workloads)
    statuses [].

(** The second loop, over [workloads] in the order of iteration:
    [minWorkLoad] stays [math.MaxInt32]. *)
Definition pickMinCapture (workloads : list (CaptureID * Z)) : CaptureID :=
  let minWorkLoad := maxInt32 in
  fold_left
    (fun minCapture cw => if snd cw <? minWorkLoad then fst cw else minCapture)
    workloads ""%string.

Definition getMinWorkloadCapture (statuses : TaskStatuses) : CaptureID :=
  pickMinCapture (countWorkloads statuses).

(** The workload of a capture, 0 when it has none. *)
Definition workloadOf (workloads : list (CaptureID * Z)) (c : CaptureID) : Z :=
  match find (fun cw => String.eqb (fst cw) c) workloads with
  | Some cw => snd cw
  | None => 0
  end.

(** [s.ownerState.TaskStatuses[s.cfID]]: the nil map when the changefeed
    has no entry. *)
Definition statusesOf (statuses : TaskStatuses) (cfID : ChangeFeedID)
  : list (CaptureID * TaskStatus) :=
  match find (fun cf => String.eqb (fst cf) cfID) statuses with
  | Some cf => snd cf
  | None => []
  end.

(** [tableToCaptureMap[tableID] = captureID] *)
Fixpoint setCapture (m : list (TableID * CaptureID)) (tableID : TableID)
  (captureID : CaptureID) : list (TableID * CaptureID) :=
  match m with
  | [] => [(tableID, captureID)]
  | (t, c) :: r =>
      if t =? tableID then (t, captureID) :: r
      else (t, c) :: setCapture r tableID captureID
  end.

Definition getTableToCaptureMap (statuses : TaskStatuses) (cfID : ChangeFeedID)
  : list (TableID * CaptureID) :=
  fold_left
    (fun m ct => fold_left (fun m' tableID => setCapture m' tableID (fst ct))
                   (Tables (snd ct)) m)
    (statusesOf statuses cfID) [].

(** [tableToCaptureMap[tableID]] with its [ok]. *)
Definition captureOfTable (m : list (TableID * CaptureID)) (tableID : TableID)
  : option CaptureID :=
  match find (fun tc => fst tc =? tableID) m with
  | Some tc => Some (snd tc)
  | None => None
  end.

End replication.

(** ** Fixtures for the worked examples *)

Definition putUint64LE (n : Z) : list byte :=
  map (fun i => byteOfZ (n / 256 ^ i)) [0; 1; 2; 3; 4; 5; 6; 7].

Definition uint64LE (bs : list byte) : Z :=
  fold_right (fun b acc => zOfByte b + 256 * acc) 0 bs.

Definition opTypeCode (o : OpType) : Z :=
  match o with
  | OpTypeUnknown => 0
  | OpTypePut => 1
  | OpTypeDelete => 2
  | OpTypeResolved => 3
  end.

Definition opTypeOfCode (z : Z) : OpType :=
  if z =? 1 then OpTypePut
  else if z =? 2 then OpTypeDelete
  else if z =? 3 then OpTypeResolved
  else OpTypeUnknown.

(** A codec for the examples: 17 bytes per entry (the opcode and the two
    timestamps), written over the scratch buffer.  It serves to run the
    examples in which what the codec does with the buffer plays no part;
    those in which it does use [appendingCodec] below. *)
Definition exampleMarshal (kv : RawKVEntry) (_ : list byte) : outcome (list byte) :=
  Ok (byteOfZ (opTypeCode (OpType_ kv)) :: putUint64LE (RawStartTs kv) ++ putUint64LE (RawCRTs kv)).

Definition exampleUnmarshal (bs : list byte) : outcome (RawKVEntry * list byte) :=
  match bs with
  | op :: rest =>
      if len rest <? 16 then Err "msgp: too few bytes left to read object"
      else
        Ok ({| OpType_ := opTypeOfCode (zOfByte op); Key := []; Value := []; OldValue := [];
               RawStartTs := uint64LE (take 8 rest);
               RawCRTs := uint64LE (take 8 (drop 8 rest)); RegionID := 0 |},
            drop 16 rest)
  | [] => Err "msgp: too few bytes left to read object"
  end.

Definition exampleCodec : rawKVCodec :=
  {| MarshalMsg := exampleMarshal; UnmarshalMsg := exampleUnmarshal |}.

(** [generateMockRawKV] of the sorter's test; [ts - 5] is a [uint64]. *)
Definition generateMockRawKV (ts : Z) : RawKVEntry :=
  {| OpType_ := OpTypePut; Key := []; Value := []; OldValue := [];
     RawStartTs := (ts - 5) mod 2 ^ 64; RawCRTs := ts; RegionID := 0 |}.

Definition put (ts : Z) : Event := NewPolymorphicEvent (generateMockRawKV ts).
Definition resolved (ts : Z) : Event := NewResolvedPolymorphicEvent 0 ts.

Definition noCreateErr : osEnv := {| createErr := fun _ => None |}.

(** A flushed memory run as the merger receives it. *)
Definition memoryTask (ptr sorter : nat) (maxTs : Z) (run : list Event) : flushTask :=
  {| taskPtr := ptr; heapSorterId := sorter;
     backend := Some (MemoryBackEnd {| events := run; readIndex := 0 |});
     maxResolvedTs := maxTs; finished := None |}.

Definition emptyTask (ptr sorter : nat) (maxTs : Z) : flushTask :=
  {| taskPtr := ptr; heapSorterId := sorter; backend := None;
     maxResolvedTs := maxTs; finished := None |}.

(** What a run of the merger has sent on [out]. *)
Definition emitted (r : mergerRun) : list Event :=
  match r with
  | Waiting m => outCh m
  | Returned _ m => outCh m
  end.

Definition rowChanges (l : list Event) : list Event := filter (fun e => isRowChange e) l.

Definition crtsOf (l : list Event) : list Z := map CRTs l.

(** The resolved barrier on an output stream: after a resolved marker, every
    row change has a larger [CRTs]. *)
Fixpoint resolvedBarrier (l : list Event) : bool :=
  match l with
  | [] => true
  | e :: r =>
      (if isResolved e
       then forallb (fun x => negb (isRowChange x) || (CRTs e <? CRTs x)) r
       else true)
      && resolvedBarrier r
  end.

(** What a merge round started in [m] sends on [out]. *)
Definition roundEmitted `{codec : rawKVCodec} (m : merger) : list Event :=
  drop (length (outCh m)) (outCh (snd (onMinResolvedTsUpdate m))).

(** [x] is the minimum of [l]. *)
Definition isMinOf (x : Z) (l : list Z) : Prop := In x l /\ Forall (fun y => x <= y) l.

Definition inUint64 (z : Z) : Prop := 0 <= z <= maxUint64.

(** The merger's variables at the end of a run, returned or waiting. *)
Definition finalState (r : mergerRun) : merger :=
  match r with
  | Waiting m => m
  | Returned _ m => m
  end.

(** [m'] has the frontier of [m]. *)
Definition sameFrontier (m m' : merger) : Prop :=
  lastResolvedTs m' = lastResolvedTs m /\ minResolvedTs m' = minResolvedTs m.

Definition nilFlushTask : string := "Unified Sorter: nil flushTask, exiting"%string.

(** The event [e] is at or below the cut [minTs]. *)
Definition bounded (minTs : Z) (e : Event) : Prop := CRTs e <= minTs.

(** Every entry of the heap is at or below the cut. *)
Definition heapBounded (minTs : Z) (h : sortHeap) : Prop :=
  Forall (fun it => forall e, entry it = Some e -> CRTs e <= minTs) h.

(** The invariant of a merge round cut at [minTs] that started with [base]
    already sent. *)
Definition roundInv (minTs : Z) (base : list Event) (m : merger) : Prop :=
  minResolvedTs m = minTs
  /\ heapBounded minTs (mergeHeap m)
  /\ exists body, outCh m = base ++ body /\ Forall (bounded minTs) body.

(** The row changes of a stream that carry the commit timestamp [ts]. *)
Definition countAt (ts : Z) (l : list Event) : nat :=
  length (filter (fun e => isRowChange e && (CRTs e =? ts)) l).

(** [pendingSet[task]], by the address of the task. *)
Definition pendingLookup (ps : list (flushTask * option Event)) (ptr : nat)
  : option (option Event) :=
  match find (fun tc => Nat.eqb (taskPtr (fst tc)) ptr) ps with
  | Some tc => Some (snd tc)
  | None => None
  end.

(** An input on which an event is lost: the first heap sorter receives
    [Put@3, Put@8, Put@12, Put@13] (the events between them go to the other
    fifteen), then every sorter receives [Resolved@5], [Resolved@10] and
    [Resolved@20]. *)
Definition lossInput : list Event :=
  [put 3] ++ repeat (put 1) 15 ++ [put 8] ++ repeat (put 1) 15
  ++ [put 12] ++ repeat (put 1) 15 ++ [put 13] ++ repeat (put 1) 15
  ++ [resolved 5; resolved 10; resolved 20].

(** An input on which a periodic marker overtakes events: the first heap
    sorter receives [Put@1, Put@10], the second [Put@2, Put@3], the others
    [Put@15], then every sorter receives [Resolved@20]. *)
Definition barrierInput : list Event :=
  [put 1; put 2] ++ repeat (put 15) 14 ++ [put 10; put 3; resolved 20].

(** An input with an event at the cut: the first heap sorter receives
    [Put@3, Put@7], then every sorter receives [Resolved@5] and
    [Resolved@7]. *)
Definition cutInput : list Event :=
  [put 3] ++ repeat (put 1) 15 ++ [put 7; resolved 5; resolved 7].

(** The merger of one heap sorter at the start of the round cut at 7: the
    sorter flushed [Put@3, Resolved@5, Put@7] on [Resolved@5], which the
    round cut at 5 read up to [Put@7], and [Resolved@7] on [Resolved@7]. *)
Definition cutMerger : merger :=
  let m5 := finalState (@mergerLoop exampleCodec None
                          [memoryTask 0 0 5 [put 3; resolved 5; put 7]] false
                          (newMerger 1 (newBackEndPool "/tmp") [])) in
  withFrontier
    (withPending m5 (pendingInsert (pendingSet m5) (memoryTask 1 0 7 [resolved 7]) None))
    [7] 7.

(** ** Observations used by the further properties *)

(** The bytes a file backend has yet to yield: what its reader holds, then
    the file from the offset on. *)
Definition fileAvail (b : fileSorterBackEnd) : list byte :=
  rbuf b ++ drop (offset (f b)) (content (f b)).

(** The bytes a file backend was given: the file, then what its writer
    holds. *)
Definition fileWritten (b : fileSorterBackEnd) : list byte := content (f b) ++ wbuf b.

(** The file offset is at the end of the file, as it is while a run is
    written. *)
Definition appending (b : fileSorterBackEnd) : Prop := offset (f b) = length (content (f b)).

(** A record of the spill file: the length prefix, then the payload. *)
Definition record (raw : list byte) : list byte := putUint32LE (len raw mod 2 ^ 32) ++ raw.

Section Iteration.
Context `{serde : serializerDeserializer}.

(** [writeNext] on each event in turn, up to the first that fails. *)
Fixpoint writeAll (b : sorterBackEnd) (es : list Event) : outcome unit * sorterBackEnd :=
  match es with
  | [] => (Ok (), b)
  | event :: rest =>
      match writeNext b event with
      | (Ok _, b') => writeAll b' rest
      | failed => failed
      end
  end.

(** The results of [n] calls of [readNext] in a row. *)
Fixpoint readN (n : nat) (b : sorterBackEnd) : list (outcome (option Event)) * sorterBackEnd :=
  match n with
  | O => ([], b)
  | S k =>
      let '(r, b') := readNext b in
      let '(rs, b'') := readN k b' in
      (r :: rs, b'')
  end.

End Iteration.

(** The contract of the code that msgp generates for [RawKVEntry] (not
    under src/), for the entry [kv] with the encoding [enc kv]:
    [MarshalMsg] appends the encoding to the slice it is given and returns
    the result, [UnmarshalMsg] decodes one entry from the front of its input
    and returns the bytes left. *)
Definition codecAppends `{codec : rawKVCodec} (enc : RawKVEntry -> list byte)
  (kv : RawKVEntry) : Prop :=
  (forall buf, MarshalMsg kv buf = Ok (buf ++ enc kv))
  /\ (forall tail, UnmarshalMsg (enc kv ++ tail) = Ok (kv, tail)).

(** What [writeNext] hands to the writer, event after event, when
    [MarshalMsg] appends and [f.rawBytes] held [acc]: [f.rawBytes] is never
    cut back, so every payload carries the ones before it. *)
Fixpoint payloads (enc : RawKVEntry -> list byte) (acc : list byte)
  (kvs : list RawKVEntry) : list (list byte) :=
  match kvs with
  | [] => []
  | kv :: rest => (acc ++ enc kv) :: payloads enc (acc ++ enc kv) rest
  end.

(** The encoding of [exampleMarshal], and a codec for the examples that
    appends it as msgp does. *)
Definition exampleEncode (kv : RawKVEntry) : list byte :=
  byteOfZ (opTypeCode (OpType_ kv)) :: putUint64LE (RawStartTs kv) ++ putUint64LE (RawCRTs kv).

Definition appendingCodec : rawKVCodec :=
  {| MarshalMsg := fun kv buf => Ok (buf ++ exampleEncode kv);
     UnmarshalMsg := exampleUnmarshal |}.

(** [a] is not after [b] in commit order. *)
Definition crtsLe (a b : Event) : Prop := CRTs a <= CRTs b.

(** The events of a heap. *)
Definition entryEvents (h : sortHeap) : list Event := omap entry h.

(** What the merger may send: a row change, or a resolved marker of its
    own making. *)
Definition outputEvent (e : Event) : Prop :=
  isRowChange e = true \/ exists ts, e = NewResolvedPolymorphicEvent 0 ts.

(** [m'] has sent what [m] had, then events that satisfy [P]. *)
Definition outExtends (P : Event -> Prop) (m m' : merger) : Prop :=
  exists body, outCh m' = outCh m ++ body /\ Forall P body.

(** The events a memory backend has yet to yield. *)
Definition memRemaining (mb : memorySorterBackEnd) : list Event :=
  drop (Z.to_nat (readIndex mb)) (events mb).

(** The run of [task] is in memory and, from the cursor on, in
    non-decreasing commit order, with the peeked event [cache], when there is
    one, not after any of it. *)
Definition sortedTask (task : flushTask) (cache : option Event) : Prop :=
  exists mb,
    backend task = Some (MemoryBackEnd mb)
    /\ 0 <= readIndex mb
    /\ StronglySorted crtsLe
         match cache with
         | Some c => c :: memRemaining mb
         | None => memRemaining mb
         end.

(** The heap of a round over sorted runs: a nil entry only alone in the
    heap, and every item with its task sorted from its entry on. *)
Definition sortedHeap (h : sortHeap) : Prop :=
  (hasNilEntry h = false \/ (length h <= 1)%nat)
  /\ Forall (fun it => forall e, entry it = Some e ->
                        exists task, data it = Some task /\ sortedTask task (Some e)) h.

(** The invariant of a round over sorted runs that started with [base]
    sent: the row changes sent since are in commit order and none is after
    an entry of the heap. *)
Definition sortedRound (base : list Event) (m : merger) : Prop :=
  sortedHeap (mergeHeap m)
  /\ exists rc, rowChanges (outCh m) = rowChanges base ++ rc
                /\ StronglySorted crtsLe rc
                /\ Forall (fun x => Forall (crtsLe x) (entryEvents (mergeHeap m))) rc.

(** What a pending task has yet to give: its cached event, then what its
    memory backend has left. *)
Definition pendingEvents (tc : flushTask * option Event) : list Event :=
  option_list (snd tc)
  ++ match backend (fst tc) with
     | Some (MemoryBackEnd mb) => memRemaining mb
     | _ => []
     end.

(** The events of [l], from the first on, as long as they are strictly
    below the cut. *)
Fixpoint below (cut : Z) (l : list Event) : list Event :=
  match l with
  | [] => []
  | e :: rest => if CRTs e <? cut then e :: below cut rest else []
  end.

(** What a round cut at [cut] takes of a task that is due, given the events
    the task has yet to give: nothing when the first is above the cut; else
    the first, and those after it as long as they are strictly below. *)
Definition taken (cut : Z) (events : list Event) : list Event :=
  match events with
  | [] => []
  | e0 :: rest => if cut <? CRTs e0 then [] else e0 :: below cut rest
  end.

(** What a round cut at [cut] takes of a pending task. *)
Definition roundShare (cut : Z) (tc : flushTask * option Event) : list Event :=
  if maxResolvedTs (fst tc) <=? cut then taken cut (pendingEvents tc) else [].

(** What the drain of a round cut at [cut] takes of an item of the heap:
    its entry, then what its task has left as long as it is strictly below
    the cut. *)
Definition itemShare (cut : Z) (it : sortItem) : list Event :=
  match entry it, data it with
  | Some e, Some task => e :: below cut (pendingEvents (task, None))
  | Some e, None => [e]
  | None, _ => []
  end.

Definition heapShare (cut : Z) (h : sortHeap) : list Event :=
  concat (map (itemShare cut) h).

(** A pending task that, when it is due at [cut], has its run in memory
    and, when it has not been read, has not failed and has an event to
    give, as every task that a heap sorter queues with a backend has. *)
Definition dueInMemory (cut : Z) (task : flushTask) (cache : option Event) : Prop :=
  maxResolvedTs task <= cut ->
  exists mb,
    backend task = Some (MemoryBackEnd mb)
    /\ 0 <= readIndex mb
    /\ (cache = None -> finished task = None /\ memRemaining mb <> []).

(** An item of the heap whose task has its run in memory. *)
Definition memoryItem (it : sortItem) : Prop :=
  exists e task mb,
    entry it = Some e /\ data it = Some task
    /\ backend task = Some (MemoryBackEnd mb)
    /\ 0 <= readIndex mb.

(** The captures that [TaskStatuses] names, over all changefeeds. *)
Definition captureIDs (statuses : replication.TaskStatuses) : list replication.CaptureID :=
  concat (map (fun cf => map fst (snd cf)) statuses).

(** The events with which the first loop of a round fills the heap: for
    each task that is due, its cached event or the first one read, unless it
    is above the cut. *)
Definition primedEvents `{codec : rawKVCodec} (m : merger) : list Event :=
  let m0 := withHeap (withWorking m []) [] in
  entryEvents (mergeHeap (snd (prime (pendingSet m0) m0))).

(** The invariant of the drain of a round cut at [minTs] that started with
    [base] already sent, for a property [P] of the events in the heap and
    of the events sent. *)
Definition drainInv (P : Event -> Prop) (minTs : Z) (base : list Event) (m : merger)
  : Prop :=
  minResolvedTs m = minTs
  /\ Forall (fun it => forall e, entry it = Some e -> P e) (mergeHeap m)
  /\ exists body, outCh m = base ++ body /\ Forall P body.

(** * Properties *)

(** ** Lists cut by machine integers *)

Lemma takeZ_dropZ {A : Type} (n : Z) (l : list A) : takeZ n l ++ dropZ n l = l.
Proof.
  revert n; induction l as [|x r IH]; intros n; simpl; [done|].
  destruct (n <=? 0); simpl; [done|]. by rewrite IH.
Qed.

Lemma length_takeZ_dropZ {A : Type} (n : Z) (l : list A) :
  (length (takeZ n l) + length (dropZ n l) = length l)%nat.
Proof. rewrite <- length_app. by rewrite takeZ_dropZ. Qed.

Lemma length_takeZ_full {A : Type} (n : Z) (l : list A) :
  len l <= n -> takeZ n l = l.
Proof.
  unfold len. revert n; induction l as [|x r IH]; intros n Hn; simpl in *; [done|].
  destruct (Z.leb_spec n 0); [lia|]. f_equal. apply IH. lia.
Qed.

Lemma len_takeZ {A : Type} (n : Z) (l : list A) :
  0 <= n -> len (takeZ n l) = Z.min n (len l).
Proof.
  unfold len. revert n; induction l as [|x r IH]; intros n Hn; simpl; [lia|].
  destruct (Z.leb_spec n 0); simpl; [lia|].
  rewrite Nat2Z.inj_succ, IH by lia. lia.
Qed.

(** ** The file backend: size accounting and reset *)

Section FileBackEndFacts.
Context `{serde : serializerDeserializer}.

(** A successful [writeNext] doubles [size] and adds 8, whatever was
    written. *)
Lemma file_writeNext_size (b b' : fileSorterBackEnd) (event : Event) :
  file_writeNext b event = (Ok (), b') ->
  file_getSize b' = wrapInt64 (file_getSize b + (file_getSize b + 8)).
Proof.
  unfold file_writeNext. destruct (marshal event (rawBytes b)) as [raw| | |]; [|done..].
  intros [= <-]. unfold file_getSize, writerWrite.
  repeat (match goal with |- context [if ?c then _ else _] => destruct c end); reflexivity.
Qed.

(** A successful [reset] leaves a file of [size] bytes, not an empty one. *)
Lemma file_reset_length (b b' : fileSorterBackEnd) :
  file_reset b = (Ok (), b') ->
  len (content (f b')) = size b /\ offset (f b') = 0%nat /\ file_getSize b' = 0
  /\ rbuf b' = [] /\ wbuf b' = [].
Proof.
  unfold file_reset, fileTruncate. destruct (Z.ltb_spec (size b) 0); [done|].
  intros [= <-]. simpl. repeat split; try reflexivity.
  unfold len. rewrite length_app, length_take, length_replicate. lia.
Qed.

End FileBackEndFacts.

(** The memory backend is empty after [reset]. *)
Lemma mem_reset_empty (m : memorySorterBackEnd) :
  let '(r, m') := mem_reset m in
  r = Ok () /\ events m' = [] /\ readIndex m' = 0 /\ fst (mem_readNext m') = Ok None.
Proof. simpl. auto. Qed.

Section FileBackEndExamples.
#[local] Existing Instance exampleCodec.

Example exampleCodec_roundtrip :
  let b := snd (file_flush (snd (file_writeNext (newFileSorterBackEnd "/tmp/sort-1") (put 9)))) in
  fst (file_readNext b) = Ok (Some (put 9)).
Proof. vm_compute. reflexivity. Qed.

(** C7 (the code departs from the claim).  Two events of 17 serialized bytes
    each are written to a fresh file backend: 42 bytes reach the file, the
    sum of [4 + len(p)] over the payloads, and [getSize] returns 24,
    because [writeNext] computes [f.size += f.size + 8]. *)
Theorem file_getSize_after_two_writes :
  let '(r1, b1) := file_writeNext (newFileSorterBackEnd "/tmp/sort-1") (put 5) in
  let '(r2, b2) := file_writeNext b1 (put 7) in
  r1 = Ok () /\ r2 = Ok ()
  /\ len (rawBytes b1) = 17 /\ len (rawBytes b2) = 17
  /\ len (content (f (snd (file_flush b2)))) = (4 + 17) + (4 + 17)
  /\ getSize (FileBackEnd b2) = Ok 24.
Proof. vm_compute. repeat split; reflexivity. Qed.

(** C8 (the code departs from the claim).  A file backend holding one
    flushed event of 17 bytes has [size = 8]; [reset] succeeds and
    truncates the file to 8 bytes, not to none, and the [readNext] that
    follows returns an error, not the end-of-run sentinel.  The memory
    variant does what the claim says ([mem_reset_empty]). *)
Theorem file_reset_leaves_stale_bytes :
  let b := snd (file_flush (snd (file_writeNext (newFileSorterBackEnd "/tmp/sort-1") (put 5)))) in
  let '(r, b') := reset (FileBackEnd b) in
  r = Ok ()
  /\ (exists fb, b' = FileBackEnd fb /\ len (content (f fb)) = 8
                 /\ offset (f fb) = 0%nat /\ size fb = 0)
  /\ getSize b' = Ok 0
  /\ fst (readNext b') = Err "unexpected EOF".
Proof.
  vm_compute. split; [reflexivity|]. split; [|split; reflexivity].
  eexists. split; [reflexivity|]. repeat split; reflexivity.
Qed.

End FileBackEndExamples.

(** ** The pool: [dealloc] on a full cache *)

Lemma park_full (c : list (option fileSorterBackEnd)) (b : fileSorterBackEnd) :
  Forall (fun slot => slot <> None) c -> park c b = None.
Proof.
  induction 1 as [|slot r Hslot _ IH]; simpl; [done|].
  destruct slot as [b'|]; [|done]. by rewrite IH.
Qed.

Lemma park_free (c : list (option fileSorterBackEnd)) (b : fileSorterBackEnd) :
  In None c -> exists c', park c b = Some c' /\ In (Some b) c' /\ length c' = length c.
Proof.
  induction c as [|slot r IH]; simpl; [done|].
  destruct slot as [b'|].
  - intros [|Hin]; [done|]. destruct (IH Hin) as (c' & -> & Hb & Hlen).
    exists (Some b' :: c'). simpl. auto.
  - intros _. exists (Some b :: r). simpl. auto.
Qed.

(** C4 (the code departs from the claim).  When every cache slot is taken,
    [dealloc] of a file backend whose [reset] succeeds falls out of the
    [switch] and reaches [panic("Unexpected type")]; the pool is as it
    was: nothing is credited to [memoryUseEstimate]. *)
Theorem dealloc_file_full_cache_panics (p : backEndPool) (fb : fileSorterBackEnd) :
  Forall (fun slot => slot <> None) (cache p) ->
  0 <= size fb ->
  dealloc p (FileBackEnd fb) = (Panic "Unexpected type", p).
Proof.
  intros Hfull Hsize. unfold dealloc, reset, liftFile, file_reset, fileTruncate.
  destruct (Z.ltb_spec (size fb) 0); [lia|]. simpl.
  by rewrite park_full.
Qed.

Lemma dealloc_file_full_cache_panics_witness :
  let p := setCache (newBackEndPool "/tmp")
             (replicate cacheSize (Some (newFileSorterBackEnd "/tmp/sort-0"))) in
  let fb := snd (file_flush
              (snd (@file_writeNext (@msgPackGenSerde exampleCodec)
                      (newFileSorterBackEnd "/tmp/sort-1") (put 5)))) in
  dealloc p (FileBackEnd fb) = (Panic "Unexpected type", p).
Proof.
  apply dealloc_file_full_cache_panics.
  - cbn [cache setCache]. apply Forall_replicate. discriminate.
  - vm_compute. discriminate.
Defined.

(** The memory variant and a file backend that finds a free slot return
    normally. *)
Lemma dealloc_memory (p : backEndPool) (m : memorySorterBackEnd) :
  dealloc p (MemoryBackEnd m) = (Ok (), addMemoryUse p (- heapSizeLimit)).
Proof. reflexivity. Qed.

(** ** The scheduler *)

Section Scheduler.
Import replication.

(** The capture returned is the last one, in the order of iteration, whose
    workload is below [math.MaxInt32]. *)
Lemma pickMinCapture_last (workloads : list (CaptureID * Z)) (c : CaptureID) (w : Z) :
  w < maxInt32 -> pickMinCapture (workloads ++ [(c, w)]) = c.
Proof.
  intros Hw. unfold pickMinCapture. rewrite fold_left_app. simpl.
  destruct (Z.ltb_spec w maxInt32); [done|lia].
Qed.

(** C9.  With capture "a" holding one table and capture "b" holding two,
    iterated in this order, [getMinWorkloadCapture] returns "b", whose
    workload 2 is not the minimum 1: the comparison is always against
    [math.MaxInt32]. *)
Theorem getMinWorkloadCapture_not_minimum :
  exists statuses : TaskStatuses,
    let workloads := countWorkloads statuses in
    let chosen := getMinWorkloadCapture statuses in
    (exists c1 c2 w1 w2, In (c1, w1) workloads /\ In (c2, w2) workloads /\ w1 <> w2)
    /\ In (chosen, workloadOf workloads chosen) workloads
    /\ exists c w, In (c, w) workloads /\ w < workloadOf workloads chosen.
Proof.
  exists [("cf"%string, [("a"%string, {| Tables := [1] |});
                         ("b"%string, {| Tables := [2; 3] |})])].
  vm_compute. split; [|split].
  - exists "a"%string, "b"%string, 1, 2. repeat split; auto. discriminate.
  - auto.
  - exists "a"%string, 1. split; auto.
Qed.

End Scheduler.

(** ** The heap sorter: the regression check *)

Section HeapSorterFacts.
Context `{codec : rawKVCodec}.

Lemma heapPush_no_nil (h : sortHeap) (event : Event) (d : option flushTask) :
  hasNilEntry h = false ->
  exists h', heapPush h {| entry := Some event; data := d |} = Ok h'
             /\ h' = h ++ [{| entry := Some event; data := d |}].
Proof.
  intros Hnil. destruct h as [|x r]; simpl; [eauto|].
  simpl in Hnil. rewrite Hnil. eauto.
Qed.



End HeapSorterFacts.


(** The scenario S4 of the specification on one heap sorter. *)
Example heapSorter_regression_S4 :
  @heapSorter_run exampleCodec noCreateErr (newHeapSorter 0)
    {| pool := newBackEndPool "/tmp"; sorterOutCh := []; nextPtr := 0 |}
    [resolved 10; resolved 5]
  = Fatal "ResolvedTs regression, bug?".
Proof. vm_compute. reflexivity. Qed.

(** ** The merger: the frontier *)

Section MergerFrontier.
Context `{codec : rawKVCodec}.

Lemma sameFrontier_refl (m : merger) : sameFrontier m m.
Proof. by split. Qed.

Lemma sameFrontier_trans (m1 m2 m3 : merger) :
  sameFrontier m1 m2 -> sameFrontier m2 m3 -> sameFrontier m1 m3.
Proof. intros [? ?] [? ?]. split; congruence. Qed.

Ltac frontier_cases :=
  repeat match goal with
    | |- context [match ?x with _ => _ end] => destruct x eqn:?
    | |- context [if ?c then _ else _] => destruct c eqn:?
    end;
  cbn; try (split; reflexivity).

Lemma sendResolvedEvent_frontier (ts : Z) (m : merger) :
  sameFrontier m (snd (sendResolvedEvent ts m)).
Proof. by split. Qed.

Lemma taskDealloc_frontier (task : flushTask) (m : merger) :
  sameFrontier m (snd (taskDealloc task m)).
Proof. unfold taskDealloc. frontier_cases. Qed.

Lemma primeTask_frontier (task : flushTask) (cache : option Event) (m : merger) :
  sameFrontier m (snd (primeTask task cache m)).
Proof. unfold primeTask. frontier_cases. Qed.

Lemma prime_frontier (todo : list (flushTask * option Event)) (m : merger) :
  sameFrontier m (snd (prime todo m)).
Proof.
  revert m; induction todo as [|[task cache] rest IH]; intros m; [by split|].
  cbn [prime]. unfold sbind.
  pose proof (primeTask_frontier task cache m) as H1.
  destruct (primeTask task cache m) as [[| | |] m1]; cbn [snd] in *; try exact H1.
  eapply sameFrontier_trans; [exact H1 | apply IH].
Qed.

Lemma retire_frontier (task : flushTask) (m : merger) :
  sameFrontier m (snd (retire task m)).
Proof.
  unfold retire. destruct (taskReadNext task) as [[[ev|]| | |] task']; try by split.
  eapply sameFrontier_trans; [|apply taskDealloc_frontier]. by split.
Qed.

Lemma pollTicker_frontier (event : Event) (m : merger) :
  sameFrontier m (snd (pollTicker event m)).
Proof. unfold pollTicker. destruct (ticker m) as [|[|] rest]; by split. Qed.

Lemma drainStep_frontier (item : sortItem) (m : merger) :
  sameFrontier m (snd (drainStep item m)).
Proof.
  unfold drainStep. destruct (data item) as [task|]; [|by split].
  destruct (entry item) as [event|]; [|by split].
  set (m1 := if isRowChange event then _ else m).
  assert (H1 : sameFrontier m m1) by (subst m1; destruct (isRowChange event); by split).
  clearbody m1.
  destruct (taskReadNext task) as [[[next|]| | |] task']; try exact H1.
  - destruct (minResolvedTs m1 <=? CRTs next).
    + eapply sameFrontier_trans; [exact H1 | apply retire_frontier].
    + destruct (heapPush _ _) as [h| | |]; try exact H1.
      eapply sameFrontier_trans; [exact H1|].
      eapply sameFrontier_trans; [|apply pollTicker_frontier]. by split.
  - eapply sameFrontier_trans; [exact H1|].
    eapply sameFrontier_trans; [|apply taskDealloc_frontier]. by split.
Qed.

Lemma drain_frontier (fuel : nat) (m : merger) (r : outcome unit) (m' : merger) :
  drain fuel m = Some (r, m') -> sameFrontier m m'.
Proof.
  revert m; induction fuel as [|fuel IH]; intros m; [done|].
  cbn [drain]. destruct (heapPop (mergeHeap m)) as [[item rest]|].
  - pose proof (drainStep_frontier item (withHeap m rest)) as H1.
    destruct (drainStep item (withHeap m rest)) as [[[]| | |] m1]; cbn [snd] in H1.
    + intros H. eapply sameFrontier_trans; [|exact (IH _ H)]. exact H1.
    + intros [= <- <-]. exact H1.
    + intros [= <- <-]. exact H1.
    + intros [= <- <-]. exact H1.
  - intros [= <- <-]. by split.
Qed.

Lemma onMinResolvedTsUpdate_frontier (m : merger) :
  sameFrontier m (snd (onMinResolvedTsUpdate m)).
Proof.
  unfold onMinResolvedTsUpdate.
  set (m0 := withHeap (withWorking m []) []).
  pose proof (prime_frontier (pendingSet m0) m0) as H1.
  destruct (prime (pendingSet m0) m0) as [[[]| | |] m1]; cbn [snd] in H1; try exact H1.
  destruct (drain _ m1) as [[[[]| | |] m2]|] eqn:Hd; try exact H1;
    (eapply sameFrontier_trans; [exact H1 | exact (drain_frontier _ _ _ _ Hd)]).
Qed.

(** [minOver] is the minimum of a non-empty list of [uint64]. *)
Lemma minOver_fold (l : list Z) (acc : Z) :
  let r := fold_left (fun minTemp ts => if ts <? minTemp then ts else minTemp) l acc in
  r <= acc /\ Forall (fun y => r <= y) l /\ (r = acc \/ In r l).
Proof.
  revert acc; induction l as [|x l IH]; intros acc; cbn.
  - split; [lia|]. split; [constructor | by left].
  - destruct (IH (if x <? acc then x else acc)) as (Hle & Hall & Hin).
    destruct (Z.ltb_spec x acc).
    + split; [lia|]. split; [constructor; [lia|done]|].
      destruct Hin as [->|Hin]; right; [by left | by right].
    + split; [lia|]. split; [constructor; [lia|done]|].
      destruct Hin as [Heq|Hin]; [by left | right; by right].
Qed.

Lemma minOver_isMinOf (l : list Z) :
  l <> [] -> Forall inUint64 l -> isMinOf (minOver l) l.
Proof.
  intros Hne Hall. unfold minOver.
  destruct (minOver_fold l maxUint64) as (Hle & Hmin & Hin).
  split; [|exact Hmin].
  destruct Hin as [Heq|Hin]; [|exact Hin].
  destruct l as [|x l]; [done|].
  apply Forall_cons in Hall as [[_ Hx] _]. apply Forall_cons in Hmin as [Hmx _].
  rewrite Heq in *. assert (x = maxUint64) as -> by lia. by left.
Qed.

Lemma mergerRecv_min_mono (received : option flushTask) (m : merger) :
  minResolvedTs m <= minResolvedTs (snd (mergerRecv received m)).
Proof.
  unfold mergerRecv. destruct received as [task|]; [|cbn; lia].
  set (m1 := match backend task with Some _ => _ | None => m end).
  assert (Hm1 : minResolvedTs m1 = minResolvedTs m) by (subst m1; by destruct (backend task)).
  clearbody m1. rewrite <- Hm1.
  destruct (lastResolvedTs m1 !! heapSorterId task) as [prev|]; [|cbn; lia].
  set (l := if prev <? _ then _ else _). clearbody l.
  destruct (Z.ltb_spec (minResolvedTs m1) (minOver l)); [|cbn; lia].
  destruct (onMinResolvedTsUpdate_frontier (withFrontier m1 l (minOver l))) as [_ ->].
  cbn. lia.
Qed.

Lemma mergerLoop_min_mono (ctx : cancellation) (q : list flushTask) (isClosed : bool)
  (m : merger) :
  minResolvedTs m <= minResolvedTs (finalState (mergerLoop ctx q isClosed m)).
Proof.
  revert ctx m; induction q as [|task rest IH]; intros ctx m;
    destruct ctx as [[[|n] err]|]; cbn [mergerLoop finalState]; try lia;
    try (destruct isClosed; cbn; lia).
  - pose proof (mergerRecv_min_mono (Some task) m) as H1.
    destruct (mergerRecv (Some task) m) as [[[]| | |] m1]; cbn [snd finalState] in *; try exact H1.
    etransitivity; [exact H1 | apply IH].
  - pose proof (mergerRecv_min_mono (Some task) m) as H1.
    destruct (mergerRecv (Some task) m) as [[[]| | |] m1]; cbn [snd finalState] in *; try exact H1.
    etransitivity; [exact H1 | apply IH].
Qed.

End MergerFrontier.

(** ** The merger: a closed input channel *)

Section MergerShutdown.
Context `{codec : rawKVCodec}.

(** While the context is alive, the loop of [runMerger] is the receive on
    the channel followed by the body of the loop. *)
Lemma mergerLoop_chanRecv (c : flushChan) (m : merger) :
  mergerLoop None (queue c) (closed c) m =
  match chanRecv c with
  | None => Waiting m
  | Some (received, c') =>
      match mergerRecv received m with
      | (Ok _, m') => mergerLoop None (queue c') (closed c') m'
      | (r, m') => Returned r m'
      end
  end.
Proof.
  unfold chanRecv. destruct c as [[|task rest] [|]]; cbn; try reflexivity.
Qed.

Lemma mergerLoop_closed (q : list flushTask) (m : merger) :
  match mergerLoop None q true m with
  | Waiting _ => False
  | Returned r m' =>
      r <> Ok ()
      /\ match mergerLoop None q false m with
         | Waiting mw => r = Err nilFlushTask /\ m' = mw
         | Returned r2 m2 => r = r2 /\ m' = m2
         end
  end.
Proof.
  revert m; induction q as [|task rest IH]; intros m; cbn [mergerLoop].
  - cbn. split; [discriminate | by split].
  - destruct (mergerRecv (Some task) m) as [[[]| | |] m1]; [apply IH | ..];
      (split; [discriminate | by split]).
Qed.

(** With a context that is cancelled, the merger never waits and never
    returns nil: it returns [ctx.Err()], or what it returns on the same
    queue, closed, with the context alive. *)
Lemma mergerLoop_cancelled (n : nat) (err : string) (q : list flushTask) (isClosed : bool)
  (m : merger) :
  exists r m',
    mergerLoop (Some (n, err)) q isClosed m = Returned r m'
    /\ r <> Ok ()
    /\ (r = Err err \/ mergerLoop None q true m = Returned r m').
Proof.
  revert n m; induction q as [|task rest IH]; intros n m.
  - destruct n as [|n]; cbn [mergerLoop].
    + eexists _, _. split; [reflexivity|]. split; [discriminate | by left].
    + destruct isClosed; cbn.
      * eexists _, _. split; [reflexivity|]. split; [discriminate | by right].
      * eexists _, _. split; [reflexivity|]. split; [discriminate | by left].
  - destruct n as [|n]; cbn [mergerLoop received].
    + eexists _, _. split; [reflexivity|]. split; [discriminate | by left].
    + destruct (mergerRecv (Some task) m) as [[[]| | |] m1];
        try (eexists _, _; split; [reflexivity|]; split; [discriminate | by right]).
      apply IH.
Qed.

Lemma Run_exits (sel : list runSelect) (s : UnifiedSorter) :
  (exists err, In (CtxDone err) sel \/ In (ChildReturned (Some err)) sel) ->
  exists r s', Run sel s = (Some r, s') /\ r <> Ok () /\ closed (sorterOut s') = true.
Proof.
  intros [err Hin]. revert s; induction sel as [|choice rest IH]; intros s.
  - destruct Hin as [[]|[]].
  - destruct choice as [e|[e|]|event]; cbn [Run].
    + eexists _, _. split; [reflexivity|]. split; [discriminate | done].
    + eexists _, _. split; [reflexivity|]. split; [discriminate | done].
    + apply IH. destruct Hin as [[|]|[|]]; [done | by left | done | by right].
    + destruct (dispatch s event) as [s1| | |].
      * apply IH. destruct Hin as [[|]|[|]]; [done | by left | done | by right].
      * eexists _, _. split; [reflexivity|]. split; [discriminate | done].
      * eexists _, _. split; [reflexivity|]. split; [discriminate | done].
      * eexists _, _. split; [reflexivity|]. split; [discriminate | done].
Qed.

(** C10, as the code has it.  A nil task makes the body of the loop return
    the error "Unified Sorter: nil flushTask, exiting".  [Run] returns, with
    an error, as soon as its [select] takes a cancellation or the error of a
    child, and whenever it returns its deferred [close(sorterOutCh)] has
    closed the channel.  On the closed channel the merger never waits and
    never returns nil.  With the context alive it returns what a queued task
    made it return or, once the queue is drained, the nil-task error.  With
    the context cancelled, which is how [Run] is shut down, its [select] can
    take [ctx.Done()] as well: it returns [ctx.Err()] instead, at once when
    that arm is taken first. *)
Theorem runMerger_closed_channel_error :
  (forall m, mergerRecv None m = (Err "Unified Sorter: nil flushTask, exiting", m))
  /\ (forall sel s,
         match Run sel s with
         | (Some _, s') => closed (sorterOut s') = true
                           /\ chanRecv {| queue := []; closed := closed (sorterOut s') |}
                              = Some (None, {| queue := []; closed := true |})
         | (None, _) => True
         end)
  /\ (forall sel s,
         (exists err, In (CtxDone err) sel \/ In (ChildReturned (Some err)) sel) ->
         exists r s', Run sel s = (Some r, s') /\ r <> Ok ()
                      /\ closed (sorterOut s') = true)
  /\ (forall q m,
         match mergerLoop None q true m with
         | Waiting _ => False
         | Returned r m' =>
             r <> Ok ()
             /\ match mergerLoop None q false m with
                | Waiting mw => r = Err "Unified Sorter: nil flushTask, exiting" /\ m' = mw
                | Returned r2 m2 => r = r2 /\ m' = m2
                end
         end)
  /\ (forall n err q m,
         exists r m',
           mergerLoop (Some (n, err)) q true m = Returned r m'
           /\ r <> Ok ()
           /\ (r = Err err \/ mergerLoop None q true m = Returned r m'))
  /\ (forall err q isClosed m,
         mergerLoop (Some (0%nat, err)) q isClosed m = Returned (Err err) m).
Proof.
  split; [reflexivity|]. split; [|split; [apply Run_exits|]].
  - intros sel. induction sel as [|choice rest IH]; intros s; cbn [Run]; [done|].
    destruct choice as [err|[err|]|event].
    + cbn. auto.
    + cbn. auto.
    + apply IH.
    + destruct (dispatch s event); [apply IH | cbn; auto ..].
  - split; [apply mergerLoop_closed|]. split.
    + intros n err q m. apply mergerLoop_cancelled.
    + intros err q isClosed m. by destruct q.
Qed.

End MergerShutdown.

(** C10 as stated fails: [Run] is shut down by the cancellation of its
    context and has closed the channel, the queue is drained, and the
    merger, whose [select] takes [ctx.Done()], returns [ctx.Err()] and not
    the nil-task error. *)
Lemma shutdown_returns_ctx_error :
  ~ (forall (codec : rawKVCodec) (err : string) (sel : list runSelect)
            (s s' : UnifiedSorter) (n : nat) (m : merger),
        Run sel s = (Some (Err err), s') ->
        In (CtxDone err) sel ->
        exists m',
          @mergerLoop codec (Some (n, err)) [] (closed (sorterOut s')) m
          = Returned (Err "Unified Sorter: nil flushTask, exiting") m').
Proof.
  intros H.
  destruct (H exampleCodec "context canceled"%string [CtxDone "context canceled"]
              NewUnifiedSorter (closeSorterOut NewUnifiedSorter) 0%nat
              (newMerger 1 (newBackEndPool "/tmp") []) eq_refl ltac:(by left))
    as [m' Hm].
  cbn in Hm. discriminate.
Qed.

(** ** The sort heap *)

Lemma popMin_perm (rest : list sortItem) (best m : sortItem) (rest' : list sortItem) :
  popMin best rest = (m, rest') -> best :: rest ≡ₚ m :: rest'.
Proof.
  revert best m rest'; induction rest as [|x r IH]; intros best m rest'; cbn.
  - by intros [= <- <-].
  - destruct (itemLess x best).
    + destruct (popMin x r) as [m1 r1] eqn:Hp. intros [= <- <-].
      etrans; [apply perm_skip, (IH _ _ _ Hp) | apply perm_swap].
    + destruct (popMin best r) as [m1 r1] eqn:Hp. intros [= <- <-].
      etrans; [apply perm_swap|].
      etrans; [apply perm_skip, (IH _ _ _ Hp) | apply perm_swap].
Qed.

Lemma heapPop_perm (h : sortHeap) (item : sortItem) (rest : sortHeap) :
  heapPop h = Some (item, rest) -> h ≡ₚ item :: rest.
Proof.
  destruct h as [|x r]; cbn; [done|]. intros [= Hp]. by apply popMin_perm.
Qed.

Lemma heapWeight_perm (h1 h2 : sortHeap) : h1 ≡ₚ h2 -> heapWeight h1 = heapWeight h2.
Proof.
  unfold heapWeight, list_sum. induction 1; cbn [map fold_right]; lia.
Qed.

Lemma heapWeight_app (h1 h2 : sortHeap) :
  heapWeight (h1 ++ h2) = (heapWeight h1 + heapWeight h2)%nat.
Proof. unfold heapWeight. by rewrite map_app, list_sum_app. Qed.

Lemma heapPush_ok (h : sortHeap) (x : sortItem) (h' : sortHeap) :
  heapPush h x = Ok h' -> h' = h ++ [x].
Proof.
  unfold heapPush. destruct h as [|y r]; [by intros [= <-]|].
  destruct (hasNilEntry _); [done | by intros [= <-]].
Qed.

(** ** Reads use up the backend *)

Lemma readFull_remaining (b : fileSorterBackEnd) (n : Z) (st : readStatus)
  (got : list byte) (b' : fileSorterBackEnd) :
  readFull b n = (st, got, b') ->
  (backendRemaining (FileBackEnd b') + length got = backendRemaining (FileBackEnd b))%nat.
Proof.
  unfold readFull. destruct (n <=? 0); [by intros [= <- <- <-]; cbn; lia|].
  destruct (n <=? len (rbuf b)).
  - intros [= <- <- <-]. cbn. pose proof (length_takeZ_dropZ n (rbuf b)). lia.
  - unfold fileRead.
    set (k := if fileBufferSize <=? n - len (rbuf b) then _ else _).
    set (rest := drop (offset (f b)) (content (f b))).
    set (want := n - len (rbuf b)).
    assert (Hgoal : (length (dropZ want (takeZ k rest))
                     + length (drop (offset (f b) + length (takeZ k rest)) (content (f b)))
                     + length (rbuf b ++ takeZ want (takeZ k rest))
                     = length (rbuf b) + length rest)%nat).
    { rewrite length_app.
      pose proof (length_takeZ_dropZ want (takeZ k rest)).
      pose proof (length_takeZ_dropZ k rest).
      assert (length rest = (length (content (f b)) - offset (f b))%nat) as Hr
        by (subst rest; apply length_drop).
      rewrite length_drop. lia. }
    repeat match goal with |- context [if ?c then _ else _] => destruct c end;
      intros [= <- <- <-]; cbn; exact Hgoal.
Qed.

Lemma readFull_ok_len (b : fileSorterBackEnd) (n : Z) (got : list byte)
  (b' : fileSorterBackEnd) :
  readFull b n = (RdOk, got, b') -> 0 < n -> len got = n.
Proof.
  unfold readFull. destruct (Z.leb_spec n 0); [lia|].
  destruct (Z.leb_spec n (len (rbuf b))).
  - intros [= <- <-] _. rewrite len_takeZ by lia. lia.
  - destruct (fileRead _ _) as [chunk file'].
    destruct (Z.eqb_spec (len (rbuf b ++ takeZ (n - len (rbuf b)) chunk)) n).
    + by intros [= <- <-] _.
    + destruct (_ =? 0); discriminate.
Qed.

Section ReadsDecrease.
Context `{serde : serializerDeserializer}.

Lemma file_readNext_remaining (b b' : fileSorterBackEnd) (event : Event) :
  file_readNext b = (Ok (Some event), b') ->
  (backendRemaining (FileBackEnd b') < backendRemaining (FileBackEnd b))%nat.
Proof.
  unfold file_readNext.
  destruct (readFull b 4) as [[st bs] b1] eqn:H1.
  destruct st; [|done..].
  destruct (readFull b1 (uint32LE bs)) as [[st2 raw] b2] eqn:H2.
  pose proof (readFull_remaining _ _ _ _ _ H1) as R1.
  pose proof (readFull_remaining _ _ _ _ _ H2) as R2.
  pose proof (readFull_ok_len _ _ _ _ H1 ltac:(lia)) as L1. unfold len in L1.
  destruct st2; [|done..].
  destruct (unmarshal raw) as [[ev rest]| | |]; [|done..].
  intros [= <- <-]. cbn in *. lia.
Qed.

Lemma mem_readNext_remaining (m m' : memorySorterBackEnd) (event : Event) :
  mem_readNext m = (Ok (Some event), m') ->
  (backendRemaining (MemoryBackEnd m') < backendRemaining (MemoryBackEnd m))%nat.
Proof.
  unfold mem_readNext. destruct (Z.leb_spec (len (events m)) (readIndex m)); [done|].
  destruct (readIndex m <? 0); [done|].
  destruct (events m !! _); [|done].
  intros [= <- <-]. cbn. lia.
Qed.

Lemma readNext_remaining (b b' : sorterBackEnd) (event : Event) :
  readNext b = (Ok (Some event), b') -> (backendRemaining b' < backendRemaining b)%nat.
Proof.
  destruct b as [m|fb|parked]; cbn [readNext]; unfold liftMem, liftFile.
  - destruct (mem_readNext m) as [r m'] eqn:H. cbn. intros [= -> <-].
    by eapply mem_readNext_remaining.
  - destruct (file_readNext fb) as [r fb'] eqn:H. cbn. intros [= -> <-].
    by eapply file_readNext_remaining.
  - done.
Qed.

End ReadsDecrease.

(** ** The merge round: what each step does to the heap and to [out] *)

Section MergeRound.
Context `{codec : rawKVCodec}.

Lemma itemWeight_pos (it : sortItem) : (0 < itemWeight it)%nat.
Proof.
  unfold itemWeight. destruct (data it) as [[? ? [b|] ? ?]|]; lia.
Qed.

Lemma taskReadNext_weight (task task' : flushTask) (event : Event) (x y : option Event) :
  taskReadNext task = (Ok (Some event), task') ->
  (itemWeight {| entry := x; data := Some task' |}
   < itemWeight {| entry := y; data := Some task |})%nat.
Proof.
  unfold taskReadNext. destruct task as [ptr sid [b|] maxTs fin]; cbn; [|done].
  destruct (readNext b) as [r b'] eqn:Hr. intros [= -> <-]. cbn.
  apply readNext_remaining in Hr. lia.
Qed.

Lemma taskDealloc_effect (task : flushTask) (m : merger) :
  outCh (snd (taskDealloc task m)) = outCh m
  /\ mergeHeap (snd (taskDealloc task m)) = mergeHeap m.
Proof.
  unfold taskDealloc. destruct (backend task) as [b|]; [|done].
  by destruct (dealloc (mpool m) b).
Qed.

Lemma retire_effect (task : flushTask) (m : merger) :
  outCh (snd (retire task m)) = outCh m /\ mergeHeap (snd (retire task m)) = mergeHeap m.
Proof.
  unfold retire. destruct (taskReadNext task) as [[[ev|]| | |] task']; try done.
  match goal with
  | |- context [taskDealloc ?t ?m0] => exact (taskDealloc_effect t m0)
  end.
Qed.

Lemma pollTicker_effect (event : Event) (m : merger) :
  mergeHeap (snd (pollTicker event m)) = mergeHeap m
  /\ exists body, outCh (snd (pollTicker event m)) = outCh m ++ body
                  /\ Forall (fun e => CRTs e = CRTs event) body.
Proof.
  unfold pollTicker. destruct (ticker m) as [|[|] rest]; cbn.
  - split; [done|]. exists []. by rewrite app_nil_r.
  - split; [done|]. eexists. split; [done|]. by constructor.
  - split; [done|]. exists []. by rewrite app_nil_r.
Qed.

(** One iteration of the drain sends at most the popped event and resolved
    markers, and puts back at most one item, below the cut and lighter than
    the popped one. *)
Lemma drainStep_effect (item : sortItem) (m : merger) :
  let m' := snd (drainStep item m) in
  (exists body, outCh m' = outCh m ++ body
                /\ Forall (fun e => entry item = Some e \/ CRTs e < minResolvedTs m) body)
  /\ (mergeHeap m' = mergeHeap m
      \/ exists next task',
           mergeHeap m' = mergeHeap m ++ [{| entry := Some next; data := Some task' |}]
           /\ CRTs next < minResolvedTs m
           /\ (itemWeight {| entry := Some next; data := Some task' |} < itemWeight item)%nat).
Proof.
  assert (Hnil : forall m0 : merger,
             (exists body, outCh m0 = outCh m0 ++ body
                /\ Forall (fun e => entry item = Some e \/ CRTs e < minResolvedTs m0) body)
             /\ (mergeHeap m0 = mergeHeap m0
                 \/ exists next task',
                      mergeHeap m0 = mergeHeap m0 ++ [{| entry := Some next; data := Some task' |}]
                      /\ CRTs next < minResolvedTs m0
                      /\ (itemWeight {| entry := Some next; data := Some task' |}
                          < itemWeight item)%nat)).
  { intros m0. split; [|by left]. exists []. by rewrite app_nil_r. }
  unfold drainStep. destruct item as [[event|] [task|]]; cbn [entry data]; try apply Hnil.
  set (m1 := if isRowChange event then _ else m).
  assert (Hm1 : mergeHeap m1 = mergeHeap m /\ minResolvedTs m1 = minResolvedTs m
                /\ exists body, outCh m1 = outCh m ++ body
                     /\ Forall (fun e => Some event = Some e \/ CRTs e < minResolvedTs m) body).
  { subst m1. destruct (isRowChange event); cbn.
    - repeat split. eexists. split; [done|]. constructor; [by left | constructor].
    - repeat split. exists []. by rewrite app_nil_r. }
  clearbody m1. destruct Hm1 as (Hheap & Hmin & body1 & Hout & Hbody).
  assert (Hsame : forall m2 : merger,
             outCh m2 = outCh m1 -> mergeHeap m2 = mergeHeap m1 ->
             (exists body, outCh m2 = outCh m ++ body
                /\ Forall (fun e => Some event = Some e \/ CRTs e < minResolvedTs m) body)
             /\ (mergeHeap m2 = mergeHeap m
                 \/ exists next task',
                      mergeHeap m2 = mergeHeap m ++ [{| entry := Some next; data := Some task' |}]
                      /\ CRTs next < minResolvedTs m
                      /\ (itemWeight {| entry := Some next; data := Some task' |}
                          < itemWeight {| entry := Some event; data := Some task |})%nat)).
  { intros m2 Ho Hh. split; [|left; congruence].
    exists body1. split; [congruence | done]. }
  destruct (taskReadNext task) as [[[next|]| | |] task'] eqn:Hread; cbn [snd];
    try (apply Hsame; reflexivity).
  - destruct (Z.leb_spec (minResolvedTs m1) (CRTs next)).
    + apply Hsame; apply retire_effect.
    + destruct (heapPush _ _) as [h| | |] eqn:Hpush; cbn [snd];
        try (apply Hsame; reflexivity).
      apply heapPush_ok in Hpush. subst h.
      destruct (pollTicker_effect next (withHeap m1 (mergeHeap m1 ++
                  [{| entry := Some next; data := Some task' |}])))
        as (Hh & body2 & Ho & Hb2).
      split.
      * exists (body1 ++ body2). split.
        -- rewrite Ho. cbn. rewrite Hout. by rewrite app_assoc.
        -- apply Forall_app. split; [done|].
           eapply Forall_impl; [exact Hb2|]. intros e He. cbn beta in He. right. lia.
      * right. exists next, task'. split; [|split].
        -- rewrite Hh. cbn. by rewrite Hheap.
        -- lia.
        -- by eapply taskReadNext_weight.
  - match goal with
    | |- context [taskDealloc ?t ?m0] =>
        apply Hsame; [exact (proj1 (taskDealloc_effect t m0))
                     | exact (proj2 (taskDealloc_effect t m0))]
    end.
Qed.

Lemma drainStep_weight (item : sortItem) (m : merger) :
  (heapWeight (mergeHeap (snd (drainStep item m))) < itemWeight item + heapWeight (mergeHeap m))%nat.
Proof.
  destruct (drainStep_effect item m) as [_ [->|(next & task' & -> & _ & Hw)]].
  - pose proof (itemWeight_pos item). lia.
  - rewrite heapWeight_app. unfold heapWeight at 2. cbn [map list_sum fold_right]. lia.
Qed.

(** The fuel given to the drain by [onMinResolvedTsUpdate] is enough. *)
Lemma drain_enough_fuel (fuel : nat) (m : merger) :
  (heapWeight (mergeHeap m) < fuel)%nat -> exists result, drain fuel m = Some result.
Proof.
  revert m; induction fuel as [|fuel IH]; intros m Hfuel; [lia|].
  cbn [drain]. destruct (heapPop (mergeHeap m)) as [[item rest]|] eqn:Hpop; [|eauto].
  pose proof (heapWeight_perm _ _ (heapPop_perm _ _ _ Hpop)) as Hw.
  change (heapWeight (item :: rest)) with (itemWeight item + heapWeight rest)%nat in Hw.
  pose proof (drainStep_weight item (withHeap m rest)) as Hstep. cbn [mergeHeap withHeap] in Hstep.
  destruct (drainStep item (withHeap m rest)) as [[[]| | |] m1]; cbn [snd] in Hstep; eauto.
  apply IH. lia.
Qed.

Lemma onMinResolvedTsUpdate_total (m m1 : merger) (u : unit) :
  prime (pendingSet m) (withHeap (withWorking m []) []) = (Ok u, m1) ->
  exists r m2,
    drain (S (heapWeight (mergeHeap m1))) m1 = Some (r, m2)
    /\ onMinResolvedTsUpdate m =
       match r with
       | Ok _ => sendResolvedEvent (minResolvedTs m2) m2
       | _ => (r, m2)
       end.
Proof.
  intros Hprime.
  destruct (drain_enough_fuel (S (heapWeight (mergeHeap m1))) m1 ltac:(lia)) as [[r m2] Hd].
  exists r, m2. split; [exact Hd|].
  unfold onMinResolvedTsUpdate. cbn [pendingSet withHeap withWorking].
  rewrite Hprime, Hd. by destruct r.
Qed.

(** *** The cut of a round *)

Lemma roundInv_out (minTs : Z) (base : list Event) (m m' : merger) (body : list Event) :
  roundInv minTs base m ->
  minResolvedTs m' = minResolvedTs m ->
  heapBounded minTs (mergeHeap m') ->
  outCh m' = outCh m ++ body ->
  Forall (bounded minTs) body ->
  roundInv minTs base m'.
Proof.
  intros (Hmin & _ & body0 & Hout & Hb0) Hmin' Hheap Hout' Hbody.
  split; [congruence|]. split; [done|].
  exists (body0 ++ body). split; [by rewrite Hout', Hout, app_assoc | by apply Forall_app].
Qed.

Lemma primeTask_inv (minTs : Z) (base : list Event) (task : flushTask)
  (cache : option Event) (m : merger) :
  roundInv minTs base m -> roundInv minTs base (snd (primeTask task cache m)).
Proof.
  intros Hinv. pose proof Hinv as (Hmin & Hheap & _).
  assert (Hkeep : forall m2 : merger,
             minResolvedTs m2 = minResolvedTs m -> mergeHeap m2 = mergeHeap m ->
             outCh m2 = outCh m -> roundInv minTs base m2).
  { intros m2 H1 H2 H3. eapply (roundInv_out _ _ m m2 []); eauto.
    - by rewrite H2.
    - by rewrite app_nil_r. }
  unfold primeTask. destruct (maxResolvedTs task <=? minResolvedTs m); [|done].
  set (read := match cache with Some e => _ | None => _ end).
  destruct read as [[event| | |] task']; cbn [snd]; try done.
  destruct (match event with Some e => minResolvedTs m <? CRTs e | None => false end) eqn:Hcut.
  - by apply Hkeep.
  - destruct (heapPush _ _) as [h| | |] eqn:Hpush; cbn [snd]; try by apply Hkeep.
    apply heapPush_ok in Hpush. cbn in Hpush. subst h.
    eapply (roundInv_out _ _ m _ []); eauto.
    + cbn. apply Forall_app. split; [done|]. constructor; [|constructor].
      cbn. intros e ->. destruct (Z.ltb_spec (minResolvedTs m) (CRTs e)); [done | lia].
    + cbn. by rewrite app_nil_r.
Qed.

Lemma prime_inv (minTs : Z) (base : list Event) (todo : list (flushTask * option Event))
  (m : merger) :
  roundInv minTs base m -> roundInv minTs base (snd (prime todo m)).
Proof.
  revert m; induction todo as [|[task cache] rest IH]; intros m Hinv; [done|].
  cbn [prime]. unfold sbind.
  pose proof (primeTask_inv _ _ task cache m Hinv) as H1.
  destruct (primeTask task cache m) as [[| | |] m1]; cbn [snd] in *; try exact H1.
  by apply IH.
Qed.

Lemma drainStep_inv (minTs : Z) (base : list Event) (item : sortItem) (m : merger) :
  roundInv minTs base m ->
  (forall e, entry item = Some e -> CRTs e <= minTs) ->
  roundInv minTs base (snd (drainStep item m)).
Proof.
  intros Hinv Hitem. pose proof Hinv as (Hmin & Hheap & _).
  destruct (drainStep_effect item m) as [(body & Hout & Hbody) Hh].
  eapply roundInv_out; [exact Hinv | apply drainStep_frontier | | exact Hout |].
  - destruct Hh as [->|(next & task' & -> & Hlt & _)]; [done|].
    apply Forall_app. split; [done|]. constructor; [|constructor].
    cbn. intros e [= <-]. lia.
  - eapply Forall_impl; [exact Hbody|]. intros e [He|He].
    + by apply Hitem.
    + unfold bounded. lia.
Qed.

Lemma drain_inv (minTs : Z) (base : list Event) (fuel : nat) (m : merger)
  (r : outcome unit) (m' : merger) :
  roundInv minTs base m -> drain fuel m = Some (r, m') ->
  roundInv minTs base m' /\ (r = Ok () -> mergeHeap m' = []).
Proof.
  revert m; induction fuel as [|fuel IH]; intros m Hinv; [done|].
  cbn [drain]. destruct (heapPop (mergeHeap m)) as [[item rest]|] eqn:Hpop.
  - pose proof (heapPop_perm _ _ _ Hpop) as Hperm.
    destruct Hinv as (Hmin & Hheap & Hout).
    unfold heapBounded in Hheap. rewrite Hperm in Hheap.
    apply Forall_cons in Hheap as [Hitem Hrest].
    assert (Hinv1 : roundInv minTs base (withHeap m rest)) by (by split).
    pose proof (drainStep_inv _ _ item _ Hinv1 Hitem) as H1.
    destruct (drainStep item (withHeap m rest)) as [[[]| | |] m1]; cbn [snd] in H1.
    + intros H. by apply (IH m1).
    + by intros [= <- <-].
    + by intros [= <- <-].
    + by intros [= <- <-].
  - intros [= <- <-]. split; [done|]. intros _.
    by destruct (mergeHeap m).
Qed.

End MergeRound.

(** ** The merge round on concrete inputs *)

(** C3 as stated fails: in the round cut at 7 of [cutMerger] the event
    [Put@7], cached by the round before, is emitted, and 7 is not below 7. *)
Lemma round_emits_event_at_cut :
  ~ (forall (codec : rawKVCodec) (m : merger) (e : Event),
        In e (@roundEmitted codec m) -> isRowChange e = true -> CRTs e < minResolvedTs m).
Proof.
  intros H. specialize (H exampleCodec cutMerger (put 7)).
  assert (Hlt : CRTs (put 7) < minResolvedTs cutMerger).
  { apply H; [|reflexivity]. vm_compute. by left. }
  vm_compute in Hlt. discriminate.
Qed.

(** The same round in the whole sorter: [Put@7] leaves between
    [Resolved(5)] and [Resolved(7)]. *)
Example cutInput_run :
  match @sequentialRun exampleCodec noCreateErr "/tmp" [] cutInput with
  | Ok (_, run) => drop 15 (emitted run) = [put 3; resolved 5; put 7; resolved 7]
  | _ => False
  end.
Proof. vm_compute. reflexivity. Qed.

(** C1 (the code departs from the claim).  On [lossInput] the sorter ends
    with every heap empty, nothing pending in the merger and the merger
    waiting for more, and [Put@12], submitted once, was never emitted: the
    round cut at 10 peeked it, called [retire], and [retire] read the
    backend again and cached [Put@13] in its place. *)
Theorem retire_loses_peeked_event :
  match @sequentialRun exampleCodec noCreateErr "/tmp" [] lossInput with
  | Ok (sorters, run) =>
      (exists m, run = Waiting m /\ pendingSet m = [] /\ mergeHeap m = [])
      /\ forallb (fun h => Nat.eqb (length (heap h)) 0) sorters = true
      /\ countAt 12 lossInput = 1%nat
      /\ countAt 12 (emitted run) = 0%nat
      /\ length (rowChanges lossInput) = 64%nat
      /\ length (rowChanges (emitted run)) = 63%nat
      /\ drop 60 (emitted run) = [put 3; resolved 5; put 8; resolved 10; put 13; resolved 20]
  | _ => False
  end.
Proof.
  vm_compute. split; [|repeat split; reflexivity].
  eexists. repeat split; reflexivity.
Qed.

(** C2 (the code departs from the claim).  On [barrierInput], with a tick
    waiting at the first poll of the ticker, the merger sends [Resolved(10)]
    (the [CRTs] of the event it just pushed back) and then [Put@2], [Put@3]
    and [Put@10]. *)
Theorem periodic_marker_overtakes_events :
  match @sequentialRun exampleCodec noCreateErr "/tmp" [true] barrierInput with
  | Ok (_, run) =>
      take 5 (emitted run) = [put 1; resolved 10; put 2; put 3; put 10]
      /\ resolvedBarrier (emitted run) = false
  | _ => False
  end.
Proof. vm_compute. split; reflexivity. Qed.

(** Without a tick the same input meets the barrier. *)
Example barrierInput_without_tick :
  match @sequentialRun exampleCodec noCreateErr "/tmp" [] barrierInput with
  | Ok (_, run) => resolvedBarrier (emitted run) = true
  | _ => False
  end.
Proof. vm_compute. reflexivity. Qed.

(** The scenario S1 of the specification, [Put@5, Put@7, Resolved@7]: only
    [Put@5] and [Resolved(7)] come out. *)
Example scenario_S1 :
  match @sequentialRun exampleCodec noCreateErr "/tmp" [] [put 5; put 7; resolved 7] with
  | Ok (_, run) => emitted run = [put 5; resolved 7]
  | _ => False
  end.
Proof. vm_compute. reflexivity. Qed.

(** ** How the drain retires a task *)

Lemma pendingLookup_insert (ps : list (flushTask * option Event)) (task : flushTask)
  (cache : option Event) (ptr : nat) :
  taskPtr task = ptr ->
  pendingLookup (pendingInsert ps task cache) ptr = Some cache.
Proof.
  intros <-. unfold pendingLookup. induction ps as [|[t c] r IH]; cbn.
  - by rewrite Nat.eqb_refl.
  - destruct (Nat.eqb (taskPtr t) (taskPtr task)) eqn:Heq; cbn.
    + by rewrite Nat.eqb_refl.
    + by rewrite Heq.
Qed.

Lemma mem_readNext_at (pre post : list Event) (e : Event) :
  mem_readNext {| events := pre ++ e :: post; readIndex := len pre |}
  = (Ok (Some e), {| events := pre ++ e :: post; readIndex := len pre + 1 |}).
Proof.
  unfold mem_readNext, len. cbn [events readIndex].
  rewrite length_app. cbn [length].
  destruct (Z.leb_spec (Z.of_nat (length pre + S (length post))) (Z.of_nat (length pre))); [lia|].
  destruct (Z.ltb_spec (Z.of_nat (length pre)) 0); [lia|].
  rewrite Nat2Z.id. by rewrite list_lookup_middle.
Qed.

Section Retire.
Context `{codec : rawKVCodec}.

(** When the event peeked by the drain is at or above the cut, the drain
    calls [retire], which reads the backend once more: the event after the
    peeked one is cached, and the peeked one is neither sent, nor cached, nor
    back in the heap. *)
Lemma drainStep_retire_skips_peeked (m : merger) (task : flushTask) (ev e1 e2 : Event)
  (pre post : list Event) :
  backend task
  = Some (MemoryBackEnd {| events := pre ++ e1 :: e2 :: post; readIndex := len pre |}) ->
  minResolvedTs m <= CRTs e1 ->
  let result := drainStep {| entry := Some ev; data := Some task |} m in
  fst result = Ok ()
  /\ pendingLookup (pendingSet (snd result)) (taskPtr task) = Some (Some e2)
  /\ outCh (snd result) = (if isRowChange ev then outCh m ++ [ev] else outCh m)
  /\ mergeHeap (snd result) = mergeHeap m.
Proof.
  intros Hb Hcut result.
  destruct (drainStep {| entry := Some ev; data := Some task |} m) as [r m'] eqn:Hd.
  subst result. cbn [fst snd].
  unfold drainStep in Hd. cbn [entry data] in Hd.
  unfold taskReadNext at 1 in Hd. rewrite Hb in Hd. cbn [readNext] in Hd.
  rewrite mem_readNext_at in Hd. cbn [liftMem fst snd] in Hd.
  assert (Hmin : minResolvedTs (if isRowChange ev then withOut m (outCh m ++ [ev]) else m)
                 = minResolvedTs m) by (by destruct (isRowChange ev)).
  rewrite Hmin in Hd. destruct (Z.leb_spec (minResolvedTs m) (CRTs e1)); [|lia].
  unfold retire, taskReadNext in Hd. cbn [backend setBackend readNext] in Hd.
  replace (pre ++ e1 :: e2 :: post) with ((pre ++ [e1]) ++ e2 :: post) in Hd
    by (by rewrite <- app_assoc).
  replace (len pre + 1) with (len (pre ++ [e1])) in Hd
    by (unfold len; rewrite length_app; cbn; lia).
  rewrite mem_readNext_at in Hd. cbn [liftMem fst snd] in Hd.
  injection Hd as <- <-.
  split; [done|]. split; [by apply pendingLookup_insert|].
  by destruct (isRowChange ev).
Qed.

End Retire.

(** * Further properties *)

(** ** Lists cut by machine integers, continued *)

Lemma takeZ_nonpos {A : Type} (n : Z) (l : list A) : n <= 0 -> takeZ n l = [].
Proof. intros Hn. destruct l; cbn; [done|]. by destruct (Z.leb_spec n 0); [|lia]. Qed.

Lemma dropZ_nonpos {A : Type} (n : Z) (l : list A) : n <= 0 -> dropZ n l = l.
Proof. intros Hn. destruct l; cbn; [done|]. by destruct (Z.leb_spec n 0); [|lia]. Qed.

Lemma takeZ_app_l {A : Type} (n : Z) (l1 l2 : list A) :
  n <= len l1 -> takeZ n (l1 ++ l2) = takeZ n l1.
Proof.
  unfold len. revert n; induction l1 as [|x r IH]; intros n Hn; cbn in *.
  - by apply takeZ_nonpos.
  - destruct (n <=? 0); [done|]. f_equal. apply IH. lia.
Qed.

Lemma takeZ_app_r {A : Type} (n : Z) (l1 l2 : list A) :
  len l1 <= n -> takeZ n (l1 ++ l2) = l1 ++ takeZ (n - len l1) l2.
Proof.
  unfold len. revert n; induction l1 as [|x r IH]; intros n Hn; cbn in *.
  - f_equal. lia.
  - destruct (Z.leb_spec n 0); [lia|]. f_equal. rewrite IH by lia. do 2 f_equal. lia.
Qed.

Lemma dropZ_app_l {A : Type} (n : Z) (l1 l2 : list A) :
  n <= len l1 -> dropZ n (l1 ++ l2) = dropZ n l1 ++ l2.
Proof.
  unfold len. revert n; induction l1 as [|x r IH]; intros n Hn; cbn in *.
  - by apply dropZ_nonpos.
  - destruct (n <=? 0); [done|]. apply IH. lia.
Qed.

Lemma dropZ_app_r {A : Type} (n : Z) (l1 l2 : list A) :
  len l1 <= n -> dropZ n (l1 ++ l2) = dropZ (n - len l1) l2.
Proof.
  unfold len. revert n; induction l1 as [|x r IH]; intros n Hn; cbn in *.
  - f_equal. lia.
  - destruct (Z.leb_spec n 0); [lia|]. rewrite IH by lia. f_equal. lia.
Qed.

Lemma takeZ_takeZ {A : Type} (n k : Z) (l : list A) :
  n <= k -> takeZ n (takeZ k l) = takeZ n l.
Proof.
  revert n k; induction l as [|x r IH]; intros n k Hnk; cbn; [done|].
  destruct (Z.leb_spec k 0).
  - cbn. by destruct (Z.leb_spec n 0); [|lia].
  - cbn. destruct (n <=? 0); [done|]. f_equal. apply IH. lia.
Qed.

Lemma dropZ_takeZ {A : Type} (n k : Z) (l : list A) :
  n <= k -> dropZ n (takeZ k l) ++ dropZ k l = dropZ n l.
Proof.
  revert n k; induction l as [|x r IH]; intros n k Hnk; cbn; [done|].
  destruct (Z.leb_spec k 0).
  - cbn. by destruct (Z.leb_spec n 0); [|lia].
  - cbn. destruct (Z.leb_spec n 0).
    + cbn. f_equal. apply takeZ_dropZ.
    + apply IH. lia.
Qed.

Lemma drop_length_takeZ {A : Type} (k : Z) (l : list A) :
  drop (length (takeZ k l)) l = dropZ k l.
Proof.
  rewrite <- (takeZ_dropZ k l) at 2. by rewrite drop_app_length.
Qed.

Lemma len_app {A : Type} (l1 l2 : list A) : len (l1 ++ l2) = len l1 + len l2.
Proof. unfold len. rewrite length_app. lia. Qed.

Lemma len_nonneg {A : Type} (l : list A) : 0 <= len l.
Proof. unfold len. lia. Qed.

Lemma len_nil_inv {A : Type} (l : list A) : len l = 0 -> l = [].
Proof. unfold len. destruct l; cbn; [done | lia]. Qed.

(** ** The length prefix *)

Lemma zOfByte_byteOfZ (z : Z) : zOfByte (byteOfZ z) = z mod 256.
Proof.
  unfold zOfByte, byteOfZ.
  pose proof (Z.mod_pos_bound z 256 ltac:(lia)) as Hb.
  destruct (Byte.of_N (Z.to_N (z mod 256))) as [b|] eqn:Hof.
  - apply Byte.to_of_N in Hof. rewrite Hof. lia.
  - apply Byte.of_N_None_iff in Hof. lia.
Qed.

Lemma uint32LE_putUint32LE (n : Z) : 0 <= n < 2 ^ 32 -> uint32LE (putUint32LE n) = n.
Proof.
  intros Hn. unfold uint32LE, putUint32LE. rewrite !zOfByte_byteOfZ.
  change (2 ^ 32) with 4294967296 in Hn.
  pose proof (Z.div_mod n 256 ltac:(lia)).
  pose proof (Z.div_mod n 65536 ltac:(lia)).
  pose proof (Z.div_mod n 16777216 ltac:(lia)).
  pose proof (Z.div_mod (n / 256) 256 ltac:(lia)).
  pose proof (Z.div_mod (n / 65536) 256 ltac:(lia)).
  pose proof (Z.div_mod (n / 16777216) 256 ltac:(lia)).
  rewrite (Z.div_div n 256 256) in * by lia.
  rewrite (Z.div_div n 65536 256) in * by lia.
  rewrite (Z.div_div n 16777216 256) in * by lia.
  change (256 * 256) with 65536 in *. change (65536 * 256) with 16777216 in *.
  change (16777216 * 256) with 4294967296 in *.
  assert (n / 4294967296 = 0) by (apply Z.div_small; lia).
  lia.
Qed.

Lemma length_putUint32LE (n : Z) : len (putUint32LE n) = 4.
Proof. reflexivity. Qed.

(** ** The file backend: writing, flushing and reading back *)

Lemma fileWrite_append (file : osFile) (p : list byte) :
  offset file = length (content file) ->
  fileWrite file p = {| content := content file ++ p; offset := length (content file ++ p) |}.
Proof.
  intros Hoff. unfold fileWrite. rewrite Hoff.
  rewrite take_ge by lia. rewrite Nat.sub_diag. cbn [replicate app].
  rewrite drop_ge by lia. rewrite app_nil_r. by rewrite length_app.
Qed.

Lemma writerWrite_spec (b : fileSorterBackEnd) (p : list byte) :
  appending b ->
  appending (writerWrite b p)
  /\ fileWritten (writerWrite b p) = fileWritten b ++ p
  /\ rbuf (writerWrite b p) = rbuf b
  /\ rawBytes (writerWrite b p) = rawBytes b
  /\ size (writerWrite b p) = size b.
Proof.
  unfold appending, fileWritten, writerWrite. intros Happ.
  destruct (len p <=? fileBufferSize - len (wbuf b)).
  { cbn. by rewrite app_assoc. }
  destruct (Z.eqb_spec (len (wbuf b)) 0) as [Hw|Hw].
  { apply len_nil_inv in Hw. rewrite Hw. rewrite (fileWrite_append _ _ Happ). cbn.
    by rewrite !app_nil_r. }
  rewrite (fileWrite_append _ _ Happ).
  destruct (len (dropZ _ p) <=? fileBufferSize).
  - cbn. repeat split; try done.
    rewrite <- !app_assoc. do 2 f_equal. apply takeZ_dropZ.
  - rewrite fileWrite_append by done. cbn. repeat split; try done.
    rewrite app_nil_r, <- !app_assoc. do 2 f_equal. apply takeZ_dropZ.
Qed.

(** What [readFull] returns, in terms of the bytes left. *)
Lemma readFull_spec (b : fileSorterBackEnd) (n : Z) :
  0 < n ->
  let '(st, got, b') := readFull b n in
  got = takeZ n (fileAvail b)
  /\ fileAvail b' = dropZ n (fileAvail b)
  /\ st = (if n <=? len (fileAvail b) then RdOk
           else if len (fileAvail b) =? 0 then RdEOF else RdUnexpectedEOF)
  /\ wbuf b' = wbuf b /\ rawBytes b' = rawBytes b /\ size b' = size b
  /\ content (f b') = content (f b).
Proof.
  intros Hn. unfold readFull, fileAvail.
  destruct (Z.leb_spec n 0); [lia|].
  set (rest := drop (offset (f b)) (content (f b))).
  destruct (Z.leb_spec n (len (rbuf b))) as [Hle|Hgt].
  - cbn [f rbuf wbuf rawBytes size setFile content offset]. fold rest.
    rewrite takeZ_app_l, dropZ_app_l by done.
    rewrite len_app. pose proof (len_nonneg rest).
    destruct (Z.leb_spec n (len (rbuf b) + len rest)); [done | lia].
  - unfold fileRead. fold rest.
    set (want := n - len (rbuf b)).
    set (k := if fileBufferSize <=? want then want else fileBufferSize).
    assert (Hk : want <= k).
    { subst k. destruct (Z.leb_spec fileBufferSize want); lia. }
    assert (Hgot : rbuf b ++ takeZ want (takeZ k rest) = takeZ n (rbuf b ++ rest)).
    { rewrite takeZ_takeZ by done. rewrite takeZ_app_r by lia. done. }
    assert (Hleft : dropZ want (takeZ k rest)
                    ++ drop (offset (f b) + length (takeZ k rest)) (content (f b))
                    = dropZ n (rbuf b ++ rest)).
    { rewrite <- drop_drop. fold rest. rewrite drop_length_takeZ.
      rewrite dropZ_takeZ by done. rewrite dropZ_app_r by lia. done. }
    assert (Hlen : len (rbuf b ++ takeZ want (takeZ k rest))
                   = Z.min n (len (rbuf b ++ rest))).
    { rewrite Hgot. apply len_takeZ. lia. }
    rewrite !len_app in *. pose proof (len_nonneg rest). pose proof (len_nonneg (rbuf b)).
    destruct (Z.eqb_spec (len (rbuf b) + len (takeZ want (takeZ k rest))) n) as [He|He];
      [|destruct (Z.eqb_spec (len (rbuf b) + len (takeZ want (takeZ k rest))) 0) as [Hz|Hz]];
      cbn [f rbuf wbuf rawBytes size setFile content offset];
      rewrite ?len_app; repeat split; try done;
      repeat match goal with
        | |- context [Z.leb ?x ?y] => destruct (Z.leb_spec x y)
        | |- context [Z.eqb ?x ?y] => destruct (Z.eqb_spec x y)
        end; try done; lia.
Qed.

Section FileRoundTrip.
Context `{serde : serializerDeserializer}.

Lemma file_writeNext_spec (b : fileSorterBackEnd) (event : Event) (raw : list byte) :
  appending b ->
  marshal event (rawBytes b) = Ok raw ->
  exists b',
    file_writeNext b event = (Ok (), b')
    /\ appending b'
    /\ fileWritten b' = fileWritten b ++ record raw
    /\ rawBytes b' = raw.
Proof.
  intros Happ Hm. unfold file_writeNext. rewrite Hm.
  eexists. split; [reflexivity|].
  set (b1 := setRawBytes b raw).
  assert (Happ1 : appending b1) by done.
  destruct (writerWrite_spec b1 (putUint32LE (len raw mod 2 ^ 32)) Happ1)
    as (Happ2 & Hw2 & _ & Hr2 & _).
  destruct (writerWrite_spec _ raw Happ2) as (Happ3 & Hw3 & _ & Hr3 & _).
  split; [exact Happ3|]. split.
  - unfold fileWritten in *. cbn [setSize f wbuf]. rewrite Hw3, Hw2.
    unfold record. by rewrite <- app_assoc.
  - cbn [setSize rawBytes]. by rewrite Hr3, Hr2.
Qed.

Lemma file_flush_spec (b : fileSorterBackEnd) :
  appending b ->
  fst (file_flush b) = Ok ()
  /\ fileAvail (snd (file_flush b)) = fileWritten b
  /\ wbuf (snd (file_flush b)) = []
  /\ content (f (snd (file_flush b))) = fileWritten b.
Proof.
  intros Happ. unfold file_flush, fileAvail, fileWritten.
  rewrite (fileWrite_append _ _ Happ). cbn. done.
Qed.

Lemma file_readNext_record (b : fileSorterBackEnd) (raw rest tail : list byte) (event : Event) :
  fileAvail b = record raw ++ rest ->
  len raw < 2 ^ 32 ->
  unmarshal raw = Ok (event, tail) ->
  exists b', file_readNext b = (Ok (Some event), b') /\ fileAvail b' = rest.
Proof.
  intros Hav Hlen Hun. unfold file_readNext.
  pose proof (readFull_spec b 4 ltac:(lia)) as H1.
  destruct (readFull b 4) as [[st bs] b1].
  destruct H1 as (Hbs & Hav1 & Hst & _).
  pose proof (len_nonneg raw) as Hraw0.
  assert (Hmod : len raw mod 2 ^ 32 = len raw) by (apply Z.mod_small; lia).
  unfold record in Hav. rewrite Hmod in Hav.
  rewrite Hav in Hbs, Hav1, Hst.
  rewrite <- app_assoc in Hbs, Hav1, Hst.
  rewrite takeZ_app_l in Hbs by (rewrite length_putUint32LE; lia).
  rewrite length_takeZ_full in Hbs by (rewrite length_putUint32LE; lia).
  rewrite dropZ_app_r in Hav1 by (rewrite length_putUint32LE; lia).
  rewrite length_putUint32LE in Hav1. rewrite dropZ_nonpos in Hav1 by lia.
  rewrite len_app, length_putUint32LE in Hst.
  pose proof (len_nonneg (raw ++ rest)).
  destruct (Z.leb_spec 4 (4 + len (raw ++ rest))); [|lia].
  subst st bs. rewrite uint32LE_putUint32LE by lia.
  destruct (Z.eqb_spec (len raw) 0) as [Hz|Hz].
  - apply len_nil_inv in Hz. subst raw.
    change (readFull b1 (len [])) with (RdOk, @nil byte, b1). cbv iota beta.
    rewrite Hun. eexists. split; [reflexivity|]. exact Hav1.
  - pose proof (readFull_spec b1 (len raw) ltac:(lia)) as H2.
    destruct (readFull b1 (len raw)) as [[st2 got] b2].
    destruct H2 as (Hgot & Hav2 & Hst2 & _).
    rewrite Hav1 in Hgot, Hav2, Hst2.
    rewrite takeZ_app_l in Hgot by lia. rewrite length_takeZ_full in Hgot by lia.
    rewrite dropZ_app_r in Hav2 by lia. rewrite Z.sub_diag, dropZ_nonpos in Hav2 by lia.
    rewrite len_app in Hst2. pose proof (len_nonneg rest).
    destruct (Z.leb_spec (len raw) (len raw + len rest)); [|lia].
    subst st2 got. rewrite Hun. eexists. split; [reflexivity|]. exact Hav2.
Qed.

Lemma file_readNext_end (b : fileSorterBackEnd) :
  (fst (file_readNext b) = Ok None <-> fileAvail b = [])
  /\ (0 < len (fileAvail b) < 4 -> fst (file_readNext b) = Err "unexpected EOF").
Proof.
  unfold file_readNext.
  pose proof (readFull_spec b 4 ltac:(lia)) as H1.
  destruct (readFull b 4) as [[st bs] b1].
  destruct H1 as (_ & _ & Hst & _).
  pose proof (len_nonneg (fileAvail b)) as H0.
  destruct (Z.leb_spec 4 (len (fileAvail b))) as [H4|H4].
  - subst st. split; [|lia]. split.
    + destruct (readFull b1 (uint32LE bs)) as [[[| |] raw] b2]; cbn; try discriminate.
      destruct (unmarshal raw) as [[ev rest]| | |]; cbn; discriminate.
    + intros Hnil. rewrite Hnil in H4. change (len (@nil byte)) with 0 in H4. lia.
  - destruct (Z.eqb_spec (len (fileAvail b)) 0) as [He|He]; subst st; cbn.
    + split; [|lia]. split; [intros _; by apply len_nil_inv | done].
    + split; [|done]. split; [discriminate|]. intros Hnil. rewrite Hnil in He.
      by change (len (@nil byte)) with 0 in He.
Qed.

(** [readNext] returns the end-of-run sentinel exactly when no byte is left
    to read; a file that ends inside a length prefix is an error. *)
Theorem file_readNext_sentinel_iff (b : fileSorterBackEnd) :
  (fst (file_readNext b) = Ok None <-> fileAvail b = [])
  /\ (0 < len (fileAvail b) < 4 -> fst (file_readNext b) = Err "unexpected EOF").
Proof. exact (file_readNext_end b). Qed.

End FileRoundTrip.

(** ** Round trips through a backend *)

Section MemoryRoundTrip.
Context `{serde : serializerDeserializer}.

Lemma writeAll_memory (evs es : list Event) (i : Z) :
  writeAll (MemoryBackEnd {| events := evs; readIndex := i |}) es
  = (Ok (), MemoryBackEnd {| events := evs ++ es; readIndex := i |}).
Proof.
  revert evs; induction es as [|e r IH]; intros evs; cbn.
  - by rewrite app_nil_r.
  - rewrite IH. by rewrite <- app_assoc.
Qed.

Lemma readN_memory_end (evs : list Event) (k : nat) :
  readN k (MemoryBackEnd {| events := evs; readIndex := len evs |})
  = (replicate k (Ok None), MemoryBackEnd {| events := evs; readIndex := len evs |}).
Proof.
  induction k as [|k IH]; [done|].
  cbn [readN readNext]. unfold mem_readNext. cbn [events readIndex].
  rewrite Z.leb_refl. cbn [liftMem fst snd]. by rewrite IH.
Qed.

Lemma readN_memory (pre es : list Event) (k : nat) :
  readN (length es + k) (MemoryBackEnd {| events := pre ++ es; readIndex := len pre |})
  = (map (fun e => Ok (Some e)) es ++ replicate k (Ok None),
     MemoryBackEnd {| events := pre ++ es; readIndex := len (pre ++ es) |}).
Proof.
  revert pre; induction es as [|e r IH]; intros pre.
  - rewrite app_nil_r. apply readN_memory_end.
  - cbn [length Nat.add readN readNext]. rewrite mem_readNext_at. cbn [liftMem fst snd].
    replace (pre ++ e :: r) with ((pre ++ [e]) ++ r) by (by rewrite <- app_assoc).
    replace (len pre + 1) with (len (pre ++ [e])) by (rewrite len_app; done).
    by rewrite IH.
Qed.

(** A memory backend is a queue: the events written to an empty one come
    back from [readNext] in the order written, and every read after them
    returns the end-of-run sentinel. *)
Theorem memory_backend_round_trip (es : list Event) (k : nat) :
  let '(w, b1) := writeAll (MemoryBackEnd {| events := []; readIndex := 0 |}) es in
  let '(fl, b2) := flush b1 in
  w = Ok () /\ fl = Ok ()
  /\ fst (readN (length es + k) b2) = map (fun e => Ok (Some e)) es ++ replicate k (Ok None).
Proof.
  rewrite writeAll_memory. cbn [flush mem_flush liftMem fst snd app].
  split; [done|]. split; [done|].
  pose proof (readN_memory [] es k) as H. cbn [app] in H.
  change (len (@nil Event)) with 0 in H. by rewrite H.
Qed.

End MemoryRoundTrip.

Section FileRoundTripAll.
Context `{codec : rawKVCodec}.

Lemma writeAll_file (enc : RawKVEntry -> list byte) (kvs : list RawKVEntry)
  (es : list Event) (fb : fileSorterBackEnd) :
  appending fb ->
  map RawKV es = map Some kvs ->
  Forall (codecAppends enc) kvs ->
  exists fb1,
    writeAll (FileBackEnd fb) es = (Ok (), FileBackEnd fb1)
    /\ appending fb1
    /\ fileWritten fb1
       = fileWritten fb ++ concat (map record (payloads enc (rawBytes fb) kvs))
    /\ rawBytes fb1 = rawBytes fb ++ concat (map enc kvs).
Proof.
  revert kvs fb; induction es as [|e r IH]; intros kvs fb Happ Hkv Hall.
  - destruct kvs; [|done]. exists fb. cbn. by rewrite !app_nil_r.
  - destruct kvs as [|kv kvs]; [done|]. injection Hkv as He Hr.
    apply Forall_cons in Hall as [[Hm _] Hall].
    assert (Hmar : marshal e (rawBytes fb) = Ok (rawBytes fb ++ enc kv)).
    { cbn. unfold msgPackGenSerde_marshal. by rewrite He. }
    destruct (file_writeNext_spec fb e _ Happ Hmar) as (fb' & Hw & Happ' & Hwr & Hraw).
    destruct (IH kvs fb' Happ' Hr Hall) as (fb1 & Hall1 & Happ1 & Hwr1 & Hraw1).
    exists fb1. cbn [writeAll writeNext liftFile]. rewrite Hw. cbn [fst snd].
    split; [exact Hall1|]. split; [exact Happ1|]. split.
    + rewrite Hwr1, Hwr, Hraw. cbn. by rewrite <- app_assoc.
    + rewrite Hraw1, Hraw. cbn. by rewrite <- app_assoc.
Qed.

(** Every payload starts with what [f.rawBytes] held and is no longer than
    all the encodings together. *)
Lemma payloads_prefix (enc : RawKVEntry -> list byte) (acc : list byte)
  (kvs : list RawKVEntry) :
  Forall (fun raw => (exists tail, raw = acc ++ tail)
                     /\ len raw <= len acc + len (concat (map enc kvs)))
    (payloads enc acc kvs)
  /\ length (payloads enc acc kvs) = length kvs.
Proof.
  revert acc; induction kvs as [|kv r IH]; intros acc; cbn [payloads map concat length].
  - split; [constructor | done].
  - destruct (IH (acc ++ enc kv)) as [Hall Hlen]. split; [|by rewrite Hlen].
    pose proof (len_nonneg (concat (map enc r))) as Hr.
    pose proof (len_nonneg (enc kv)) as Hk.
    constructor.
    + split; [eauto|]. rewrite !len_app. lia.
    + eapply Forall_impl; [exact Hall|]. intros raw [[tail ->] Hle]. split.
      * exists (enc kv ++ tail). by rewrite <- app_assoc.
      * rewrite !len_app in *. lia.
Qed.

Lemma readN_file_end (b : fileSorterBackEnd) (k : nat) :
  fileAvail b = [] -> fst (readN k (FileBackEnd b)) = replicate k (Ok None).
Proof.
  revert b; induction k as [|k IH]; intros b Hav; [done|].
  cbn [readN readNext liftFile].
  pose proof (proj1 (file_readNext_end b)) as [_ Hs]. specialize (Hs Hav).
  assert (Hav' : fileAvail (snd (file_readNext b)) = []).
  { unfold file_readNext in *.
    pose proof (readFull_spec b 4 ltac:(lia)) as H1.
    destruct (readFull b 4) as [[st bs] b1]. destruct H1 as (_ & Hav1 & Hst & _).
    rewrite Hav in Hav1, Hst. change (len (@nil byte)) with 0 in Hst.
    cbn in Hst. subst st. cbn [snd]. exact Hav1. }
  destruct (file_readNext b) as [r b']. cbn [fst snd] in *. subst r.
  specialize (IH b' Hav'). destruct (readN k (FileBackEnd b')) as [rs b'']. cbn in *.
  by rewrite IH.
Qed.

Lemma readN_file (kvs : list RawKVEntry) (raws : list (list byte)) (b : fileSorterBackEnd)
  (k : nat) :
  fileAvail b = concat (map record raws) ->
  Forall2 (fun kv raw => len raw < 2 ^ 32 /\ exists tail, UnmarshalMsg raw = Ok (kv, tail))
    kvs raws ->
  fst (readN (length kvs + k) (FileBackEnd b))
  = map (fun kv => Ok (Some (NewPolymorphicEvent kv))) kvs ++ replicate k (Ok None).
Proof.
  intros Hav Hf2. revert b Hav. induction Hf2 as [|kv raw kvs raws [Hlen [tail Hun]] _ IH];
    intros b Hav.
  - by apply readN_file_end.
  - cbn [length Nat.add readN readNext liftFile].
    assert (Hun' : unmarshal raw = Ok (NewPolymorphicEvent kv, tail)).
    { cbn. unfold msgPackGenSerde_unmarshal. rewrite Hun. done. }
    destruct (file_readNext_record b raw (concat (map record raws)) tail _ Hav Hlen Hun')
      as (b' & Hr & Hav').
    rewrite Hr. cbn [fst snd]. specialize (IH b' Hav').
    destruct (readN (length kvs + k) (FileBackEnd b')) as [rs b'']. cbn in *.
    by rewrite IH.
Qed.

Lemma file_backend_first_event (enc : RawKVEntry -> list byte)
  (kv1 : RawKVEntry) (kvs : list RawKVEntry) (es : list Event)
  (fb : fileSorterBackEnd) :
  Forall (codecAppends enc) (kv1 :: kvs) ->
  appending fb ->
  fileWritten fb = [] ->
  rawBytes fb = [] ->
  map RawKV es = map Some (kv1 :: kvs) ->
  len (concat (map enc (kv1 :: kvs))) < 2 ^ 32 ->
  exists fb2,
    (exists b1, writeAll (FileBackEnd fb) es = (Ok (), b1)
                /\ flush b1 = (Ok (), FileBackEnd fb2))
    /\ forall k, fst (readN (length es + k) (FileBackEnd fb2))
                 = replicate (length es) (Ok (Some (NewPolymorphicEvent kv1)))
                   ++ replicate k (Ok None).
Proof.
  intros Hcodec Happ Hempty Hraw0 Hkv Hlen.
  destruct (writeAll_file enc (kv1 :: kvs) es fb Happ Hkv Hcodec)
    as (fb1 & Hw & Happ1 & Hwr & _).
  destruct (file_flush_spec fb1 Happ1) as (Hfl & Hav & _).
  exists (snd (file_flush fb1)). split.
  { exists (FileBackEnd fb1). split; [exact Hw | reflexivity]. }
  intros k.
  assert (Hes : length es = length (kv1 :: kvs)).
  { apply (f_equal length) in Hkv. by rewrite !length_map in Hkv. }
  apply Forall_cons in Hcodec as [[_ Hun] _].
  rewrite Hraw0 in Hwr. cbn [payloads app] in Hwr.
  destruct (payloads_prefix enc (enc kv1) kvs) as [Hpre Hplen].
  set (raws := enc kv1 :: payloads enc (enc kv1) kvs) in *.
  assert (Hf2 : Forall2 (fun kv raw => len raw < 2 ^ 32
                                       /\ exists tail, UnmarshalMsg raw = Ok (kv, tail))
                  (replicate (length es) kv1) raws).
  { rewrite Hes. cbn [length replicate]. subst raws.
    cbn [map concat] in Hlen. rewrite len_app in Hlen.
    pose proof (len_nonneg (concat (map enc kvs))) as Hr.
    constructor.
    - split; [lia|]. exists []. rewrite <- (app_nil_r (enc kv1)) at 1. apply Hun.
    - rewrite <- Hplen. clear Hplen Hwr.
      induction Hpre as [|raw raws [[tail ->] Hle] _ IH]; cbn [length replicate];
        constructor; [|exact IH].
      split; [lia | eauto]. }
  pose proof (readN_file _ raws (snd (file_flush fb1)) k ltac:(by rewrite Hav, Hwr, Hempty) Hf2)
    as Hread.
  rewrite length_replicate in Hread. rewrite Hread.
  f_equal. clear. induction (length es) as [|n IH]; cbn; [done | by rewrite IH].
Qed.

(** With a codec that appends, as msgp's does, a file backend does not
    give back what was written.  [writeNext] hands [MarshalMsg] the slice
    [f.rawBytes] with the events before still in it, so the record of the
    i-th event holds the encodings of the first i events; [readNext]
    decodes the first of them.  Events written to a new backend and flushed
    therefore all come back as the first event written, and then the
    sentinel; only a run of one event comes back as it was. *)
Theorem file_backend_rereads_first_event (enc : RawKVEntry -> list byte)
  (kv1 : RawKVEntry) (kvs : list RawKVEntry) (es : list Event)
  (fb : fileSorterBackEnd) (k : nat) :
  Forall (codecAppends enc) (kv1 :: kvs) ->
  appending fb ->
  fileWritten fb = [] ->
  rawBytes fb = [] ->
  map RawKV es = map Some (kv1 :: kvs) ->
  len (concat (map enc (kv1 :: kvs))) < 2 ^ 32 ->
  exists b1 b2,
    writeAll (FileBackEnd fb) es = (Ok (), b1)
    /\ flush b1 = (Ok (), b2)
    /\ fst (readN (length es + k) b2)
       = replicate (length es) (Ok (Some (NewPolymorphicEvent kv1)))
         ++ replicate k (Ok None).
Proof.
  intros Hcodec Happ Hempty Hraw0 Hkv Hlen.
  destruct (file_backend_first_event enc kv1 kvs es fb Hcodec Happ Hempty Hraw0 Hkv Hlen)
    as (fb2 & (b1 & Hw & Hfl) & Hread).
  exists b1, (FileBackEnd fb2). split; [exact Hw|]. split; [exact Hfl|]. apply Hread.
Qed.

End FileRoundTripAll.

Lemma exampleEncode_appends (kv : RawKVEntry) :
  Key kv = [] -> Value kv = [] -> OldValue kv = [] -> RegionID kv = 0 ->
  opTypeOfCode (opTypeCode (OpType_ kv)) = OpType_ kv ->
  0 <= RawStartTs kv < 2 ^ 64 -> 0 <= RawCRTs kv < 2 ^ 64 ->
  @codecAppends appendingCodec exampleEncode kv.
Proof.
  intros HK HV HO HR Hop Hs Hc. split; [done|]. intros tail.
  destruct kv as [op key val old sts cts rid]. cbn in *. subst key val old rid.
  unfold exampleUnmarshal, exampleEncode. cbn [OpType_ RawStartTs RawCRTs app].
  assert (Hlen : forall n, length (putUint64LE n) = 8%nat) by done.
  assert (Hrt : forall n, 0 <= n < 2 ^ 64 -> uint64LE (putUint64LE n) = n).
  { intros n Hn. unfold uint64LE, putUint64LE. cbn [map fold_right].
    rewrite !zOfByte_byteOfZ. change (2 ^ 64) with 18446744073709551616 in Hn.
    change (256 ^ 0) with 1. change (256 ^ 1) with 256. change (256 ^ 2) with 65536.
    change (256 ^ 3) with 16777216. change (256 ^ 4) with 4294967296.
    change (256 ^ 5) with 1099511627776. change (256 ^ 6) with 281474976710656.
    change (256 ^ 7) with 72057594037927936.
    rewrite Z.div_1_r.
    assert (E1 : n / 65536 = n / 256 / 256) by (by rewrite Z.div_div by lia).
    assert (E2 : n / 16777216 = n / 65536 / 256) by (by rewrite Z.div_div by lia).
    assert (E3 : n / 4294967296 = n / 16777216 / 256) by (by rewrite Z.div_div by lia).
    assert (E4 : n / 1099511627776 = n / 4294967296 / 256) by (by rewrite Z.div_div by lia).
    assert (E5 : n / 281474976710656 = n / 1099511627776 / 256)
      by (by rewrite Z.div_div by lia).
    assert (E6 : n / 72057594037927936 = n / 281474976710656 / 256)
      by (by rewrite Z.div_div by lia).
    assert (E7 : n / 72057594037927936 / 256 = 0).
    { rewrite Z.div_div by lia. apply Z.div_small. lia. }
    pose proof (Z.div_mod n 256 ltac:(lia)) as D0.
    pose proof (Z.div_mod (n / 256) 256 ltac:(lia)) as D1.
    pose proof (Z.div_mod (n / 65536) 256 ltac:(lia)) as D2.
    pose proof (Z.div_mod (n / 16777216) 256 ltac:(lia)) as D3.
    pose proof (Z.div_mod (n / 4294967296) 256 ltac:(lia)) as D4.
    pose proof (Z.div_mod (n / 1099511627776) 256 ltac:(lia)) as D5.
    pose proof (Z.div_mod (n / 281474976710656) 256 ltac:(lia)) as D6.
    pose proof (Z.div_mod (n / 72057594037927936) 256 ltac:(lia)) as D7.
    rewrite <- E1 in D1. rewrite <- E2 in D2. rewrite <- E3 in D3. rewrite <- E4 in D4.
    rewrite <- E5 in D5. rewrite <- E6 in D6. rewrite E7 in D7.
    lia. }
  match goal with |- context [?a <? 16] => destruct (Z.ltb_spec a 16) as [Hlt|_] end.
  { unfold len in Hlt. cbn [length] in Hlt. lia. }
  transitivity
    (@Ok (RawKVEntry * list byte)
       ({| OpType_ := opTypeOfCode (zOfByte (byteOfZ (opTypeCode op)));
           Key := []; Value := []; OldValue := [];
           RawStartTs := uint64LE (putUint64LE sts);
           RawCRTs := uint64LE (putUint64LE cts); RegionID := 0 |}, tail));
    [reflexivity|].
  rewrite !Hrt by done. rewrite zOfByte_byteOfZ.
  rewrite Z.mod_small by (destruct op; cbn; lia). by rewrite Hop.
Qed.

Lemma file_backend_rereads_first_event_witness :
  exists b1 b2,
    @writeAll (@msgPackGenSerde appendingCodec)
      (FileBackEnd (newFileSorterBackEnd "/tmp/sort-1")) [put 5; put 7; put 9] = (Ok (), b1)
    /\ flush b1 = (Ok (), b2)
    /\ fst (@readN (@msgPackGenSerde appendingCodec) (3 + 2) b2)
       = replicate 3 (Ok (Some (NewPolymorphicEvent (generateMockRawKV 5))))
         ++ replicate 2 (Ok None).
Proof.
  apply (@file_backend_rereads_first_event appendingCodec exampleEncode
           (generateMockRawKV 5) [generateMockRawKV 7; generateMockRawKV 9]
           [put 5; put 7; put 9] (newFileSorterBackEnd "/tmp/sort-1") 2).
  - apply Forall_cons; split;
      [|apply Forall_cons; split; [|apply Forall_cons; split; [|apply Forall_nil_2]]];
      (apply exampleEncode_appends;
       first [reflexivity | vm_compute; split; [discriminate | reflexivity]]).
  - reflexivity.
  - reflexivity.
  - reflexivity.
  - reflexivity.
  - vm_compute. reflexivity.
Defined.

(** ** The size of a file backend over a run of writes *)

Lemma wrapInt64_double (a : Z) :
  wrapInt64 (wrapInt64 a + (wrapInt64 a + 8)) = wrapInt64 (a + (a + 8)).
Proof.
  unfold wrapInt64. f_equal.
  set (M := 2 ^ 64). set (H := 2 ^ 63).
  replace ((a + H) mod M - H + ((a + H) mod M - H + 8) + H)
    with (2 * ((a + H) mod M) + (8 - H)) by lia.
  replace (a + (a + 8) + H) with (2 * (a + H) + (8 - H)) by lia.
  rewrite <- (Zplus_mod_idemp_l (2 * ((a + H) mod M))).
  rewrite Zmult_mod_idemp_r. by rewrite Zplus_mod_idemp_l.
Qed.

Section SizeOverWrites.
Context `{serde : serializerDeserializer}.

Lemma writeAll_size (es : list Event) (fb : fileSorterBackEnd) (k : Z) (b' : sorterBackEnd) :
  0 <= k ->
  size fb = wrapInt64 (8 * (2 ^ k - 1)) ->
  writeAll (FileBackEnd fb) es = (Ok (), b') ->
  getSize b' = Ok (wrapInt64 (8 * (2 ^ (k + len es) - 1))).
Proof.
  revert fb k; induction es as [|e r IH]; intros fb k Hk Hsize.
  - cbn [writeAll]. intros [= <-]. cbn [getSize]. unfold file_getSize. rewrite Hsize.
    change (len (@nil Event)) with 0. by rewrite Z.add_0_r.
  - cbn [writeAll writeNext liftFile].
    destruct (file_writeNext fb e) as [[[]| | |] fb1] eqn:Hw; cbn [fst snd]; try done.
    intros Hall. apply file_writeNext_size in Hw. unfold file_getSize in Hw.
    rewrite (IH fb1 (k + 1) ltac:(lia)); [| |exact Hall].
    + replace (k + len (e :: r)) with (k + 1 + len r); [done|].
      unfold len. cbn [length]. lia.
    + rewrite Hw, Hsize, wrapInt64_double. f_equal.
      rewrite Z.pow_add_r by lia. lia.
Qed.

(** After [n] successful writes to a file backend whose [size] was 0,
    [getSize] is [8 * (2^n - 1)] wrapped to 64 bits, whatever was written. *)
Theorem file_size_after_writes (es : list Event) (fb : fileSorterBackEnd)
  (b' : sorterBackEnd) :
  size fb = 0 ->
  writeAll (FileBackEnd fb) es = (Ok (), b') ->
  getSize b' = Ok (wrapInt64 (8 * (2 ^ len es - 1))).
Proof.
  intros Hsize Hall. by apply (writeAll_size es fb 0).
Qed.

Lemma writeAll_file_kind (es : list Event) (fb : fileSorterBackEnd) (b' : sorterBackEnd) :
  writeAll (FileBackEnd fb) es = (Ok (), b') -> exists fb', b' = FileBackEnd fb'.
Proof.
  revert fb; induction es as [|e r IH]; intros fb; cbn [writeAll writeNext liftFile].
  - intros [= <-]. eauto.
  - destruct (file_writeNext fb e) as [[[]| | |] fb1]; cbn [fst snd]; try done. apply IH.
Qed.

(** A run of 61 events or more leaves [size] at -8, so the [reset] of
    [dealloc] fails in [Truncate] and [dealloc] returns that error with the
    pool untouched. *)
Theorem dealloc_fails_after_long_run (es : list Event) (fb : fileSorterBackEnd)
  (b' : sorterBackEnd) (p : backEndPool) :
  size fb = 0 ->
  61 <= len es ->
  writeAll (FileBackEnd fb) es = (Ok (), b') ->
  getSize (snd (flush b')) = Ok (-8)
  /\ dealloc p (snd (flush b')) = (Err "truncate: invalid argument", p).
Proof.
  intros Hsize Hlen Hall.
  assert (Hs : getSize b' = Ok (wrapInt64 (8 * (2 ^ len es - 1))))
    by (by apply (writeAll_size es fb 0)).
  destruct (writeAll_file_kind es fb b' Hall) as [fb' ->].
  assert (Hm8 : wrapInt64 (8 * (2 ^ len es - 1)) = -8).
  { unfold wrapInt64.
    replace (len es) with (61 + (len es - 61)) by lia.
    rewrite Z.pow_add_r by lia.
    replace (8 * (2 ^ 61 * 2 ^ (len es - 61) - 1) + 2 ^ 63)
      with (2 ^ 63 - 8 + 2 ^ (len es - 61) * 2 ^ 64).
    2:{ change (2 ^ 64) with (8 * 2 ^ 61). lia. }
    rewrite Z_mod_plus_full. rewrite Z.mod_small; [lia|].
    change (2 ^ 63) with 9223372036854775808.
    change (2 ^ 64) with 18446744073709551616. lia. }
  rewrite Hm8 in Hs. cbn [getSize] in Hs. unfold file_getSize in Hs.
  injection Hs as Hs.
  split; [cbn; unfold file_getSize; cbn; by rewrite Hs|].
  unfold dealloc, reset, flush, liftFile, file_reset, file_flush, fileTruncate.
  cbn [fst snd setFile size]. rewrite Hs. reflexivity.
Qed.

End SizeOverWrites.

Lemma file_size_after_writes_witness :
  getSize (snd (@writeAll (@msgPackGenSerde exampleCodec)
                  (FileBackEnd (newFileSorterBackEnd "/tmp/sort-1")) [put 5; put 7]))
  = Ok (wrapInt64 (8 * (2 ^ len [put 5; put 7] - 1))).
Proof.
  apply (@file_size_after_writes (@msgPackGenSerde exampleCodec) [put 5; put 7]
           (newFileSorterBackEnd "/tmp/sort-1")); reflexivity.
Defined.

Lemma dealloc_fails_after_long_run_witness :
  let b' := snd (@writeAll (@msgPackGenSerde exampleCodec)
                   (FileBackEnd (newFileSorterBackEnd "/tmp/sort-1")) (repeat (put 5) 61)) in
  getSize (snd (flush b')) = Ok (-8)
  /\ dealloc (newBackEndPool "/tmp") (snd (flush b'))
     = (Err "truncate: invalid argument", newBackEndPool "/tmp").
Proof.
  apply (@dealloc_fails_after_long_run (@msgPackGenSerde exampleCodec) (repeat (put 5) 61)
           (newFileSorterBackEnd "/tmp/sort-1")).
  - reflexivity.
  - vm_compute. discriminate.
  - vm_compute. reflexivity.
Defined.

(** ** [reset] of a file backend whose size is 0 *)

(** With [size] at 0, as after [newFileSorterBackEnd] or after a [reset],
    [reset] does empty the file: nothing is left to read, the next
    [readNext] returns the sentinel, and the backend is ready to be written
    from the start.  So a second [reset] always empties a backend. *)
Theorem file_reset_twice_empties `{serde : serializerDeserializer} (fb : fileSorterBackEnd) :
  0 <= size fb ->
  let fb1 := snd (file_reset fb) in
  let fb2 := snd (file_reset fb1) in
  fst (file_reset fb) = Ok () /\ fst (file_reset fb1) = Ok ()
  /\ content (f fb2) = [] /\ fileWritten fb2 = [] /\ appending fb2 /\ size fb2 = 0
  /\ fst (file_readNext fb2) = Ok None.
Proof.
  intros Hsize fb1 fb2. subst fb1 fb2.
  unfold file_reset at 2 4 5 6 7 8 9. unfold file_reset. unfold fileTruncate.
  destruct (Z.ltb_spec (size fb) 0); [lia|].
  cbn [fst snd setSize setFile size f content fileSeekStart].
  cbn -[file_readNext]. repeat split.
Qed.

Lemma file_reset_twice_empties_witness :
  let fb := snd (file_flush
              (snd (@file_writeNext (@msgPackGenSerde exampleCodec)
                      (newFileSorterBackEnd "/tmp/sort-1") (put 5)))) in
  let fb1 := snd (file_reset fb) in
  let fb2 := snd (file_reset fb1) in
  fst (file_reset fb) = Ok () /\ fst (file_reset fb1) = Ok ()
  /\ content (f fb2) = [] /\ fileWritten fb2 = [] /\ appending fb2 /\ size fb2 = 0
  /\ fst (@file_readNext (@msgPackGenSerde exampleCodec) fb2) = Ok None.
Proof.
  apply (@file_reset_twice_empties (@msgPackGenSerde exampleCodec)).
  vm_compute. discriminate.
Defined.

(** ** The pool: its cache and its accounting *)

Lemma takeCached_length (c c' : list (option fileSorterBackEnd)) (b : fileSorterBackEnd) :
  takeCached c = Some (b, c') -> length c' = length c /\ In (Some b) c.
Proof.
  revert c'; induction c as [|slot r IH]; intros c'; cbn; [done|].
  destruct slot as [b0|].
  - intros [= <- <-]. cbn. auto.
  - destruct (takeCached r) as [[b1 r1]|]; [|done].
    intros [= <- <-]. destruct (IH r1 eq_refl) as [Hlen Hin]. cbn. auto.
Qed.

Lemma takeCached_none (c : list (option fileSorterBackEnd)) :
  takeCached c = None <-> Forall (fun slot => slot = None) c.
Proof.
  induction c as [|slot r IH]; cbn.
  - split; [constructor | done].
  - destruct slot as [b0|].
    + split; [done|]. intros H. by apply Forall_cons in H as [? _].
    + destruct (takeCached r) as [[b1 r1]|].
      * split; [done|]. intros H. apply Forall_cons in H as [_ H]. by apply IH in H.
      * split; [|done]. intros _. constructor; [done|]. by apply IH.
Qed.

Lemma park_length (c c' : list (option fileSorterBackEnd)) (b : fileSorterBackEnd) :
  park c b = Some c' -> length c' = length c.
Proof.
  revert c'; induction c as [|slot r IH]; intros c'; cbn; [done|].
  destruct slot as [b0|].
  - destruct (park r b) as [r1|]; [|done]. intros [= <-]. cbn. by rewrite (IH r1).
  - by intros [= <-].
Qed.

Lemma park_takeCached (c c' : list (option fileSorterBackEnd)) (b : fileSorterBackEnd) :
  park c b = Some c' -> exists b' c'', takeCached c' = Some (b', c'').
Proof.
  destruct c as [|[b0|] r]; cbn; [done | |].
  - destruct (park r b); [|done]. intros [= <-]. cbn. eauto.
  - intros [= <-]. cbn. eauto.
Qed.

Lemma park_takeCached_free (c : list (option fileSorterBackEnd)) (b : fileSorterBackEnd) :
  Forall (fun slot => slot = None) c -> c <> [] ->
  exists c', park c b = Some c' /\ takeCached c' = Some (b, c).
Proof.
  intros Hall Hne. destruct c as [|slot r]; [done|].
  apply Forall_cons in Hall as [-> Hr]. cbn. eexists. split; [done|]. done.
Qed.

(** Neither [alloc] nor [dealloc] changes the number of cache slots. *)
Theorem pool_cache_length (env : osEnv) (p : backEndPool)
  (backEnd : sorterBackEnd) :
  length (cache (snd (alloc env p))) = length (cache p)
  /\ length (cache (snd (dealloc p backEnd))) = length (cache p).
Proof.
  split.
  - unfold alloc. destruct (memoryUseEstimate p <? memoryLimit); [done|].
    destruct (takeCached (cache p)) as [[b c']|] eqn:Ht.
    + cbn. by apply takeCached_length in Ht as [-> _].
    + by destruct (createErr env _).
  - unfold dealloc. destruct (reset backEnd) as [[[]| | |] b]; try done.
    destruct b as [m|fb|parked]; [done| |done].
    destruct (park (cache p) fb) as [c'|] eqn:Hp; [|done].
    cbn. by apply park_length in Hp.
Qed.

(** Below the memory limit, [alloc] hands out an empty memory backend and
    charges [heapSizeLimit]; the [dealloc] of that backend, in whatever
    state, gives the charge back: the pool is as before. *)
Theorem alloc_dealloc_memory (env : osEnv) (p : backEndPool)
  (used : memorySorterBackEnd) :
  - 2 ^ 63 <= memoryUseEstimate p < memoryLimit ->
  alloc env p
  = (Ok (MemoryBackEnd {| events := []; readIndex := 0 |}), addMemoryUse p heapSizeLimit)
  /\ memoryUseEstimate (addMemoryUse p heapSizeLimit) = memoryUseEstimate p + heapSizeLimit
  /\ fst (dealloc (addMemoryUse p heapSizeLimit) (MemoryBackEnd used)) = Ok ()
  /\ memoryUseEstimate (snd (dealloc (addMemoryUse p heapSizeLimit) (MemoryBackEnd used)))
     = memoryUseEstimate p
  /\ cache (snd (dealloc (addMemoryUse p heapSizeLimit) (MemoryBackEnd used))) = cache p
  /\ fileNameCounter (snd (dealloc (addMemoryUse p heapSizeLimit) (MemoryBackEnd used)))
     = fileNameCounter p.
Proof.
  intros [Hlo Hhi]. unfold alloc.
  destruct (Z.ltb_spec (memoryUseEstimate p) memoryLimit); [|lia].
  split; [done|]. cbn.
  unfold wrapInt64, memoryLimit, heapSizeLimit in *.
  change (2 ^ 63) with 9223372036854775808 in *.
  change (2 ^ 64) with 18446744073709551616.
  assert (H1 : (memoryUseEstimate p + 4 * 1024 * 1024 + 9223372036854775808)
               mod 18446744073709551616
               = memoryUseEstimate p + 4 * 1024 * 1024 + 9223372036854775808)
    by (apply Z.mod_small; lia).
  rewrite H1. split; [lia|]. split; [done|]. split; [|done].
  replace (memoryUseEstimate p + 4 * 1024 * 1024 + 9223372036854775808 - 9223372036854775808
           + - (4 * 1024 * 1024) + 9223372036854775808)
    with (memoryUseEstimate p + 9223372036854775808) by lia.
  rewrite Z.mod_small by lia. lia.
Qed.

Lemma alloc_dealloc_memory_witness :
  let p := newBackEndPool "/tmp" in
  let used := {| events := [put 5; put 7]; readIndex := 1 |} in
  alloc noCreateErr p
  = (Ok (MemoryBackEnd {| events := []; readIndex := 0 |}), addMemoryUse p heapSizeLimit)
  /\ memoryUseEstimate (addMemoryUse p heapSizeLimit) = memoryUseEstimate p + heapSizeLimit
  /\ fst (dealloc (addMemoryUse p heapSizeLimit) (MemoryBackEnd used)) = Ok ()
  /\ memoryUseEstimate (snd (dealloc (addMemoryUse p heapSizeLimit) (MemoryBackEnd used)))
     = memoryUseEstimate p
  /\ cache (snd (dealloc (addMemoryUse p heapSizeLimit) (MemoryBackEnd used))) = cache p
  /\ fileNameCounter (snd (dealloc (addMemoryUse p heapSizeLimit) (MemoryBackEnd used)))
     = fileNameCounter p.
Proof.
  apply (alloc_dealloc_memory noCreateErr (newBackEndPool "/tmp")).
  vm_compute. split; discriminate || reflexivity.
Defined.



(** A file backend that [dealloc] parks does not come back: the next
    [alloc] above the memory limit takes a parked backend out of the cache,
    without a new file and without a charge, but what it returns is the
    invalid interface value made from it, not a file backend.  When the
    cache was empty before, the backend taken is the one just parked and the
    pool is as it was before the [dealloc]: it no longer holds the file. *)
Theorem dealloc_alloc_file (env : osEnv) (p : backEndPool)
  (fb : fileSorterBackEnd) :
  0 <= size fb ->
  In None (cache p) ->
  memoryLimit <= memoryUseEstimate p ->
  exists p1 fb' p2,
    dealloc p (FileBackEnd fb) = (Ok (), p1)
    /\ memoryUseEstimate p1 = memoryUseEstimate p
    /\ alloc env p1 = (Ok (InvalidBackEnd fb'), p2)
    /\ fileNameCounter p2 = fileNameCounter p
    /\ memoryUseEstimate p2 = memoryUseEstimate p
    /\ In (Some fb') (cache p1)
    /\ length (cache p2) = length (cache p)
    /\ (Forall (fun slot => slot = None) (cache p) ->
        fb' = snd (file_reset fb) /\ p2 = p).
Proof.
  intros Hsize Hfree Hlim.
  unfold dealloc at 1. unfold reset at 1. unfold liftFile, file_reset, fileTruncate.
  destruct (Z.ltb_spec (size fb) 0); [lia|]. cbn [fst snd].
  set (fbr := setSize _ 0).
  destruct (park_free (cache p) fbr Hfree) as (c' & Hp & _ & _).
  rewrite Hp.
  destruct (park_takeCached _ _ _ Hp) as (b' & c'' & Ht).
  exists (setCache p c'), b', (setCache (setCache p c') c'').
  split; [done|]. split; [done|]. split.
  { unfold alloc. cbn [memoryUseEstimate setCache cache].
    destruct (Z.ltb_spec (memoryUseEstimate p) memoryLimit); [lia|]. by rewrite Ht. }
  split; [done|]. split; [done|].
  destruct (takeCached_length _ _ _ Ht) as [Hlen2 Hin].
  split; [exact Hin|]. split.
  { cbn [cache setCache]. rewrite Hlen2. by destruct (park_length _ _ _ Hp). }
  intros Hall. destruct (park_takeCached_free (cache p) fbr Hall) as (c1 & Hp1 & Ht1).
  { intros Hnil. rewrite Hnil in Hfree. done. }
  rewrite Hp in Hp1. injection Hp1 as <-. rewrite Ht in Ht1. injection Ht1 as -> ->.
  split; [done|]. by destruct p.
Qed.

Lemma dealloc_alloc_file_witness :
  let p := addMemoryUse (newBackEndPool "/tmp") memoryLimit in
  let fb := snd (file_flush
              (snd (@file_writeNext (@msgPackGenSerde exampleCodec)
                      (newFileSorterBackEnd "/tmp/sort-1") (put 5)))) in
  exists p1 fb' p2,
    dealloc p (FileBackEnd fb) = (Ok (), p1)
    /\ memoryUseEstimate p1 = memoryUseEstimate p
    /\ alloc noCreateErr p1 = (Ok (InvalidBackEnd fb'), p2)
    /\ fileNameCounter p2 = fileNameCounter p
    /\ memoryUseEstimate p2 = memoryUseEstimate p
    /\ In (Some fb') (cache p1)
    /\ length (cache p2) = length (cache p)
    /\ (Forall (fun slot => slot = None) (cache p) ->
        fb' = snd (file_reset fb) /\ p2 = p).
Proof.
  apply (dealloc_alloc_file noCreateErr).
  - vm_compute. discriminate.
  - cbn. by left.
  - vm_compute. discriminate.
Defined.

(** ** The heap sorter: what a flush ships *)

Lemma hasNilEntry_false (h : sortHeap) :
  hasNilEntry h = false <-> Forall (fun it => exists e, entry it = Some e) h.
Proof.
  unfold hasNilEntry. induction h as [|x r IH]; cbn.
  - split; [constructor | done].
  - destruct (entry x) as [e|] eqn:He; cbn.
    + rewrite IH. split; [intros H; constructor; eauto | intros H; by apply Forall_cons in H as [_ ?]].
    + split; [done|]. intros H. apply Forall_cons in H as [[e He'] _]. congruence.
Qed.

Lemma itemLess_spec (a b : sortItem) (ea eb : Event) :
  entry a = Some ea -> entry b = Some eb ->
  itemLess a b = false <->
  (CRTs eb < CRTs ea \/ (CRTs eb = CRTs ea /\ StartTs eb <= StartTs ea)).
Proof.
  intros Ha Hb. unfold itemLess, sortLess. rewrite Ha, Hb.
  rewrite orb_false_iff, andb_false_iff, !Z.ltb_ge, Z.eqb_neq. lia.
Qed.

(** The item popped is not after any item of the heap. *)
Lemma popMin_min (rest : list sortItem) (best m : sortItem) (rest' : list sortItem) :
  Forall (fun it => exists e, entry it = Some e) (best :: rest) ->
  popMin best rest = (m, rest') ->
  Forall (fun it => itemLess it m = false) (best :: rest).
Proof.
  revert best m rest'; induction rest as [|x r IH]; intros best m rest' Hall; cbn.
  - intros [= <- <-]. constructor; [|constructor].
    apply Forall_cons in Hall as [[e He] _]. apply (itemLess_spec _ _ e e He He). lia.
  - pose proof Hall as Hall0.
    apply Forall_cons in Hall as [[eb Heb] Hall]. apply Forall_cons in Hall as [[ex Hex] Hr].
    destruct (itemLess x best) eqn:Hlt.
    + destruct (popMin x r) as [m1 r1] eqn:Hp. intros [= <- <-].
      assert (Hxr : Forall (fun it => exists e, entry it = Some e) (x :: r))
        by (constructor; eauto).
      pose proof (IH x m1 r1 Hxr Hp) as Hmin.
      assert (Hm : exists em, entry m1 = Some em).
      { pose proof (popMin_perm _ _ _ _ Hp) as Hperm. rewrite Hperm in Hxr.
        by apply Forall_cons in Hxr as [? _]. }
      destruct Hm as [em Hem].
      constructor; [|exact Hmin].
      apply Forall_cons in Hmin as [Hxm _].
      apply (itemLess_spec _ _ ex em Hex Hem) in Hxm.
      apply (itemLess_spec _ _ eb em Heb Hem).
      unfold itemLess, sortLess in Hlt. rewrite Hex, Heb in Hlt.
      rewrite orb_true_iff, andb_true_iff, !Z.ltb_lt, Z.eqb_eq in Hlt. lia.
    + destruct (popMin best r) as [m1 r1] eqn:Hp. intros [= <- <-].
      assert (Hbr : Forall (fun it => exists e, entry it = Some e) (best :: r))
        by (constructor; eauto).
      pose proof (IH best m1 r1 Hbr Hp) as Hmin.
      assert (Hm : exists em, entry m1 = Some em).
      { pose proof (popMin_perm _ _ _ _ Hp) as Hperm. rewrite Hperm in Hbr.
        by apply Forall_cons in Hbr as [? _]. }
      destruct Hm as [em Hem].
      apply Forall_cons in Hmin as [Hbm Hrm].
      constructor; [exact Hbm|]. constructor; [|exact Hrm].
      apply (itemLess_spec _ _ eb em Heb Hem) in Hbm.
      apply (itemLess_spec _ _ ex eb Hex Heb) in Hlt.
      apply (itemLess_spec _ _ ex em Hex Hem). lia.
Qed.

Lemma heapPop_min (h : sortHeap) (item : sortItem) (rest : sortHeap) (e : Event) :
  hasNilEntry h = false ->
  heapPop h = Some (item, rest) ->
  entry item = Some e ->
  Forall (crtsLe e) (entryEvents rest) /\ hasNilEntry rest = false
  /\ entryEvents h ≡ₚ e :: entryEvents rest.
Proof.
  intros Hnil Hpop He. apply hasNilEntry_false in Hnil.
  pose proof (heapPop_perm _ _ _ Hpop) as Hperm.
  destruct h as [|x r]; [done|]. cbn in Hpop. injection Hpop as Hp.
  pose proof (popMin_min _ _ _ _ Hnil Hp) as Hmin.
  rewrite Hperm in Hmin, Hnil.
  apply Forall_cons in Hmin as [_ Hmin]. apply Forall_cons in Hnil as [_ Hnil].
  split; [|split].
  - unfold entryEvents. clear Hperm Hp.
    induction rest as [|y rest IH]; cbn; [constructor|].
    apply Forall_cons in Hmin as [Hy Hmin]. apply Forall_cons in Hnil as [[ey Hey] Hnil].
    rewrite Hey. cbn. constructor; [|by apply IH].
    apply (itemLess_spec _ _ ey e Hey He) in Hy. unfold crtsLe. lia.
  - by apply hasNilEntry_false.
  - unfold entryEvents. rewrite Hperm. cbn. by rewrite He.
Qed.

Section HeapSorterFlush.
Context `{codec : rawKVCodec}.

Lemma drainHeap_memory (fuel : nat) (h : sortHeap) (evs : list Event) (i : Z) :
  hasNilEntry h = false ->
  (length h <= fuel)%nat ->
  exists run,
    drainHeap fuel h (MemoryBackEnd {| events := evs; readIndex := i |})
    = (None, MemoryBackEnd {| events := evs ++ run; readIndex := i |})
    /\ run ≡ₚ entryEvents h
    /\ StronglySorted crtsLe run.
Proof.
  revert h evs; induction fuel as [|fuel IH]; intros h evs Hnil Hlen.
  - destruct h; [|cbn in Hlen; lia]. exists []. cbn. rewrite app_nil_r.
    split; [done|]. split; [done | constructor].
  - cbn [drainHeap]. destruct (heapPop h) as [[item rest]|] eqn:Hpop.
    + assert (Hitem : exists e, entry item = Some e).
      { pose proof (heapPop_perm _ _ _ Hpop) as Hperm.
        apply hasNilEntry_false in Hnil. rewrite Hperm in Hnil.
        by apply Forall_cons in Hnil as [? _]. }
      destruct Hitem as [e He]. rewrite He.
      destruct (heapPop_min h item rest e Hnil Hpop He) as (Hmin & Hnil' & Hperm).
      assert (Hlen' : (length rest <= fuel)%nat).
      { pose proof (heapPop_perm _ _ _ Hpop) as Hp. apply Permutation_length in Hp.
        cbn in Hp. lia. }
      cbn [writeNext liftMem mem_writeNext fst snd events readIndex].
      destruct (IH rest (evs ++ [e]) Hnil' Hlen') as (run & Hrun & Hp & Hs).
      exists (e :: run). rewrite Hrun. split; [by rewrite <- app_assoc|]. split.
      * rewrite Hperm. by constructor.
      * constructor; [exact Hs|]. by rewrite Hp.
    + destruct h; [|done]. exists []. rewrite app_nil_r.
      split; [done|]. split; [done | constructor].
Qed.

(** While the pool is below its memory limit, a flush of a non-empty heap
    ships one task whose backend holds the events of the heap, each once,
    in non-decreasing commit order, ready to be read from the start; the
    sorter is left with an empty heap. *)
Theorem heapSorter_flush_sorted_run (env : osEnv) (h : heapSorter) (w : world) (ts : Z) :
  heap h <> [] ->
  hasNilEntry (heap h) = false ->
  memoryUseEstimate (pool w) < memoryLimit ->
  exists run h' w',
    heapSorter_flush env h w ts = Ok (h', w')
    /\ heap h' = []
    /\ sorterOutCh w'
       = sorterOutCh w
         ++ [{| taskPtr := nextPtr w; heapSorterId := id h;
                backend := Some (MemoryBackEnd {| events := run; readIndex := 0 |});
                maxResolvedTs := ts; finished := None |}]
    /\ run ≡ₚ entryEvents (heap h)
    /\ StronglySorted crtsLe run.
Proof.
  intros Hne Hnil Hmem. unfold heapSorter_flush.
  destruct (heap h) as [|x r] eqn:Hh; [done|].
  unfold alloc. destruct (Z.ltb_spec (memoryUseEstimate (pool w)) memoryLimit); [|lia].
  cbn [mbind outcome_bind obind].
  unfold flushDrain.
  destruct (drainHeap_memory (length (x :: r)) (x :: r) [] 0 Hnil ltac:(lia))
    as (run & Hrun & Hp & Hs).
  rewrite Hrun. cbn [flush liftMem mem_flush fst snd app].
  exists run. eexists _, _. split; [reflexivity|]. cbn. by repeat split.
Qed.

Lemma heapSorter_step_effect (env : osEnv) (h h' : heapSorter) (w w' : world)
  (event : Event) (kv : RawKVEntry) :
  RawKV event = Some kv ->
  hasNilEntry (heap h) = false ->
  heapSorter_step env h w event = Ok (h', w') ->
  id h' = id h
  /\ maxResolved h <= maxResolved h'
  /\ hasNilEntry (heap h') = false
  /\ if (heapSizeLimit <=? wrapInt64 (heapSizeBytesEstimate h + ApproximateSize kv))
        || isResolved event
     then exists task,
            sorterOutCh w' = sorterOutCh w ++ [task]
            /\ backend task <> None
            /\ heapSorterId task = id h
            /\ maxResolvedTs task = maxResolved h'
            /\ heap h' = [] /\ heapSizeBytesEstimate h' = 0
     else sorterOutCh w' = sorterOutCh w
          /\ heap h' = heap h ++ [{| entry := Some event; data := None |}]
          /\ heapSizeBytesEstimate h'
             = wrapInt64 (heapSizeBytesEstimate h + ApproximateSize kv)
          /\ maxResolved h' = maxResolved h.
Proof.
  intros Hkv Hnil.
  destruct (heapPush_no_nil (heap h) event None Hnil) as (h1 & Hpush & Hh1).
  unfold heapSorter_step. rewrite Hpush, Hkv. cbn [mbind outcome_bind obind].
  set (mr := if isResolved event then _ else Ok (maxResolved h)).
  assert (Hmr : forall v, mr = Ok v -> maxResolved h <= v).
  { subst mr. intros v. destruct (isResolved event).
    - destruct (Z.ltb_spec (RawCRTs kv) (maxResolved h)); [done|]. intros [= <-]. lia.
    - intros [= <-]. lia. }
  destruct mr as [v| | |] eqn:Hv; cbn [obind]; try done.
  specialize (Hmr v eq_refl).
  assert (Hnil1 : hasNilEntry h1 = false).
  { subst h1. unfold hasNilEntry in *. rewrite existsb_app, Hnil. done. }
  destruct ((heapSizeLimit <=? wrapInt64 (heapSizeBytesEstimate h + ApproximateSize kv))
            || isResolved event) eqn:Htrig.
  - unfold heapSorter_flush. cbn [heap pool sorterOutCh nextPtr id].
    destruct h1 as [|it h1]; [by destruct (heap h)|].
    destruct (alloc env (pool w)) as [[b| | |] pool']; cbn [mbind outcome_bind obind]; try done.
    destruct (flushDrain (it :: h1) b) as [fin b']. cbn [mbind outcome_bind obind].
    intros [= <- <-]. cbn. repeat split; try done. eexists. by repeat split.
  - intros [= <- <-]. cbn. repeat split; try done.
    subst mr. destruct (isResolved event); [by rewrite orb_true_r in Htrig|]. by injection Hv.
Qed.

(** One turn of the loop of [run] on an event with a raw entry: a task is
    queued exactly when the event is a resolved marker or the size estimate
    has reached [heapSizeLimit]; the task always has a backend (the event
    was pushed first, so the flush is never an empty one), carries the id of
    the sorter and its [maxResolved], and leaves the heap empty and the
    estimate at 0; otherwise the event only joins the heap.  [maxResolved]
    does not decrease. *)
Theorem heapSorter_step_queues (env : osEnv) (h h' : heapSorter) (w w' : world)
  (event : Event) (kv : RawKVEntry) :
  RawKV event = Some kv ->
  hasNilEntry (heap h) = false ->
  heapSorter_step env h w event = Ok (h', w') ->
  id h' = id h
  /\ maxResolved h <= maxResolved h'
  /\ hasNilEntry (heap h') = false
  /\ if (heapSizeLimit <=? wrapInt64 (heapSizeBytesEstimate h + ApproximateSize kv))
        || isResolved event
     then exists task,
            sorterOutCh w' = sorterOutCh w ++ [task]
            /\ backend task <> None
            /\ heapSorterId task = id h
            /\ maxResolvedTs task = maxResolved h'
            /\ heap h' = [] /\ heapSizeBytesEstimate h' = 0
     else sorterOutCh w' = sorterOutCh w
          /\ heap h' = heap h ++ [{| entry := Some event; data := None |}]
          /\ heapSizeBytesEstimate h'
             = wrapInt64 (heapSizeBytesEstimate h + ApproximateSize kv)
          /\ maxResolved h' = maxResolved h.
Proof. exact (heapSorter_step_effect env h h' w w' event kv). Qed.

End HeapSorterFlush.

Lemma heapSorter_step_queues_witness :
  let h := newHeapSorter 3 in
  let w := {| pool := newBackEndPool "/tmp"; sorterOutCh := []; nextPtr := 0 |} in
  exists h' w',
    @heapSorter_step exampleCodec noCreateErr h w (resolved 9) = Ok (h', w')
    /\ id h' = id h
    /\ maxResolved h <= maxResolved h'
    /\ hasNilEntry (heap h') = false
    /\ exists task,
         sorterOutCh w' = sorterOutCh w ++ [task]
         /\ backend task <> None
         /\ heapSorterId task = id h
         /\ maxResolvedTs task = maxResolved h'
         /\ heap h' = [] /\ heapSizeBytesEstimate h' = 0.
Proof.
  intros h w.
  destruct (@heapSorter_step exampleCodec noCreateErr h w (resolved 9)) as [[h' w']| | |] eqn:Hs;
    try (vm_compute in Hs; discriminate).
  exists h', w'. split; [reflexivity|].
  exact (@heapSorter_step_queues exampleCodec noCreateErr h h' w w' (resolved 9) _
           eq_refl eq_refl Hs).
Defined.

Lemma heapSorter_flush_sorted_run_witness :
  let h := {| id := 0;
              heap := [{| entry := Some (put 9); data := None |};
                       {| entry := Some (put 3); data := None |}];
              maxResolved := 0; heapSizeBytesEstimate := 0 |} in
  let w := {| pool := newBackEndPool "/tmp"; sorterOutCh := []; nextPtr := 0 |} in
  exists run h' w',
    @heapSorter_flush exampleCodec noCreateErr h w 0 = Ok (h', w')
    /\ heap h' = []
    /\ sorterOutCh w'
       = sorterOutCh w
         ++ [{| taskPtr := nextPtr w; heapSorterId := id h;
                backend := Some (MemoryBackEnd {| events := run; readIndex := 0 |});
                maxResolvedTs := 0; finished := None |}]
    /\ run ≡ₚ entryEvents (heap h)
    /\ StronglySorted crtsLe run.
Proof.
  apply (@heapSorter_flush_sorted_run exampleCodec noCreateErr).
  - discriminate.
  - reflexivity.
  - reflexivity.
Defined.

(** ** The heap sorter over its input *)

Section HeapSorterRun.
Context `{codec : rawKVCodec}.

Lemma heapSorter_step_rawKV (env : osEnv) (h h' : heapSorter) (w w' : world) (event : Event) :
  heapSorter_step env h w event = Ok (h', w') -> exists kv, RawKV event = Some kv.
Proof.
  unfold heapSorter_step. destruct (RawKV event) as [kv|]; [eauto|].
  destruct (heapPush _ _); cbn; done.
Qed.

(** Over any input that [run] gets through, the tasks a heap sorter queues
    all have a backend and its id, and their [maxResolvedTs] never
    decreases from one task to the next: they lie between the [maxResolved]
    it started with and the one it ends with. *)
Theorem heapSorter_run_tasks (env : osEnv) (input : list Event) (h h' : heapSorter)
  (w w' : world) :
  hasNilEntry (heap h) = false ->
  heapSorter_run env h w input = Ok (h', w') ->
  exists tasks,
    sorterOutCh w' = sorterOutCh w ++ tasks
    /\ Forall (fun t => backend t <> None /\ heapSorterId t = id h
                        /\ maxResolved h <= maxResolvedTs t <= maxResolved h') tasks
    /\ StronglySorted Z.le (map maxResolvedTs tasks)
    /\ maxResolved h <= maxResolved h'
    /\ id h' = id h.
Proof.
  revert h w; induction input as [|event rest IH]; intros h w Hnil; cbn [heapSorter_run].
  - intros [= <- <-]. exists []. rewrite app_nil_r.
    repeat split; try done. constructor.
  - destruct (heapSorter_step env h w event) as [[h1 w1]| | |] eqn:Hstep;
      cbn [mbind outcome_bind obind]; try done.
    intros Hrun.
    destruct (heapSorter_step_rawKV _ _ _ _ _ _ Hstep) as [kv Hkv].
    destruct (heapSorter_step_effect env h h1 w w1 event kv Hkv Hnil Hstep)
      as (Hid & Hmono & Hnil1 & Hq).
    destruct (IH h1 w1 Hnil1 Hrun) as (tasks & Hout & Hall & Hsorted & Hmono' & Hid').
    assert (Hall' : Forall (fun t => backend t <> None /\ heapSorterId t = id h
                        /\ maxResolved h <= maxResolvedTs t <= maxResolved h') tasks).
    { eapply Forall_impl; [exact Hall|]. intros t (Hb & Ht & Hr).
      cbn beta. rewrite Ht, Hid. repeat split; [done | lia | lia]. }
    destruct ((heapSizeLimit <=? _) || isResolved event).
    + destruct Hq as (task & Hq & Hb & Ht & Hm & _).
      exists (task :: tasks). rewrite Hout, Hq, <- app_assoc.
      split; [done|]. split; [|split; [|split; [lia | congruence]]].
      * constructor; [|exact Hall']. repeat split; [done | done | lia | lia].
      * cbn. constructor; [exact Hsorted|].
        apply Forall_map. eapply Forall_impl; [exact Hall|].
        intros t (_ & _ & Hr). cbn beta. lia.
    + destruct Hq as (Hq & _). exists tasks. rewrite Hout, Hq.
      split; [done|]. split; [exact Hall'|]. split; [exact Hsorted|].
      split; [lia | congruence].
Qed.

End HeapSorterRun.

Lemma heapSorter_run_tasks_witness :
  let w := {| pool := newBackEndPool "/tmp"; sorterOutCh := []; nextPtr := 0 |} in
  exists h' w' tasks,
    @heapSorter_run exampleCodec noCreateErr (newHeapSorter 2) w
      [put 3; resolved 5; put 9; resolved 10] = Ok (h', w')
    /\ sorterOutCh w' = sorterOutCh w ++ tasks
    /\ Forall (fun t => backend t <> None /\ heapSorterId t = 2%nat
                        /\ 0 <= maxResolvedTs t <= maxResolved h') tasks
    /\ StronglySorted Z.le (map maxResolvedTs tasks)
    /\ 0 <= maxResolved h'
    /\ id h' = 2%nat.
Proof.
  intros w.
  destruct (@heapSorter_run exampleCodec noCreateErr (newHeapSorter 2) w
              [put 3; resolved 5; put 9; resolved 10]) as [[h' w']| | |] eqn:Hr;
    try (vm_compute in Hr; discriminate).
  exists h', w'.
  destruct (@heapSorter_run_tasks exampleCodec noCreateErr _ (newHeapSorter 2) h' w w'
              eq_refl Hr) as (tasks & H).
  exists tasks. split; [reflexivity | exact H].
Defined.

(** ** The facade: where events go *)

Lemma concat_insert_app {A : Type} (l : list (list A)) (i : nat) (q x : list A) :
  l !! i = Some q -> concat (<[i := q ++ x]> l) ≡ₚ concat l ++ x.
Proof.
  revert i; induction l as [|y l IH]; intros i; [done|].
  destruct i as [|i]; cbn.
  - intros [= ->]. rewrite <- !app_assoc. apply Permutation_app_head, Permutation_app_comm.
  - intros Hl. rewrite (IH i Hl). by rewrite app_assoc.
Qed.

Lemma dispatch_effect (s : UnifiedSorter) (event : Event) :
  0 <= nextSorterId s < 2 ^ 63 - 1 ->
  length (sorterInputs s) = numConcurrentHeaps ->
  exists s',
    dispatch s event = Ok s'
    /\ length (sorterInputs s') = numConcurrentHeaps
    /\ nextSorterId s <= nextSorterId s' <= nextSorterId s + 1
    /\ sorterOut s' = sorterOut s
    /\ map (filter (fun e => isResolved e)) (sorterInputs s')
       = map (fun q => q ++ filter (fun e => isResolved e) [event])
           (map (filter (fun e => isResolved e)) (sorterInputs s))
    /\ concat (map (filter (fun e => negb (isResolved e))) (sorterInputs s'))
       ≡ₚ concat (map (filter (fun e => negb (isResolved e))) (sorterInputs s))
          ++ filter (fun e => negb (isResolved e)) [event].
Proof.
  intros Hn Hlen. unfold dispatch.
  destruct (isResolved event) eqn:Hres.
  - eexists. split; [reflexivity|]. cbn [sorterInputs nextSorterId sorterOut].
    rewrite length_map. split; [done|]. split; [lia|]. split; [done|]. split.
    + rewrite !map_map. apply map_ext. intros q. rewrite filter_app.
      f_equal.
    + rewrite map_map.
      rewrite (filter_cons_False _ event []) by (rewrite Hres; cbn; tauto).
      rewrite filter_nil, app_nil_r.
      erewrite map_ext; [reflexivity|]. intros q. cbn beta. rewrite filter_app.
      rewrite (filter_cons_False _ event []) by (rewrite Hres; cbn; tauto).
      by rewrite filter_nil, app_nil_r.
  - set (t := Z.rem (nextSorterId s) (Z.of_nat numConcurrentHeaps)).
    assert (Ht : 0 <= t < 16).
    { subst t. change (Z.of_nat numConcurrentHeaps) with 16.
      rewrite Z.rem_mod_nonneg by lia. apply Z.mod_pos_bound. lia. }
    destruct (Z.ltb_spec t 0); [lia|].
    destruct (sorterInputs s !! Z.to_nat t) as [q|] eqn:Hq.
    2:{ apply lookup_ge_None in Hq. rewrite Hlen in Hq. unfold numConcurrentHeaps in Hq. lia. }
    eexists. split; [reflexivity|]. cbn [sorterInputs nextSorterId sorterOut].
    rewrite length_insert. split; [done|].
    assert (Hw : wrapInt64 (nextSorterId s + 1) = nextSorterId s + 1).
    { unfold wrapInt64. rewrite Z.mod_small; [lia|].
      change (2 ^ 63) with 9223372036854775808 in *.
      change (2 ^ 64) with 18446744073709551616. lia. }
    rewrite Hw. split; [lia|]. split; [done|].
    rewrite (filter_cons_False (fun e => isResolved e) event []) by (rewrite Hres; cbn; tauto).
    rewrite (filter_cons_True (fun e => negb (isResolved e)) event [])
      by (rewrite Hres; cbn; tauto).
    rewrite !filter_nil. split.
    + rewrite !list_fmap_insert. rewrite filter_app.
      rewrite (filter_cons_False (fun e => isResolved e) event [])
        by (rewrite Hres; cbn; tauto).
      rewrite filter_nil, app_nil_r.
      rewrite list_insert_id by (by rewrite list_lookup_fmap, Hq).
      rewrite map_map. apply map_ext. intros q'. by rewrite app_nil_r.
    + rewrite list_fmap_insert. rewrite filter_app.
      rewrite (filter_cons_True (fun e => negb (isResolved e)) event [])
        by (rewrite Hres; cbn; tauto).
      rewrite filter_nil. apply concat_insert_app.
      by rewrite list_lookup_fmap, Hq.
Qed.

Lemma Run_inputs (input : list Event) (s : UnifiedSorter) :
  0 <= nextSorterId s ->
  nextSorterId s + len input < 2 ^ 63 ->
  length (sorterInputs s) = numConcurrentHeaps ->
  exists s',
    Run (map Input input) s = (None, s')
    /\ length (sorterInputs s') = numConcurrentHeaps
    /\ sorterOut s' = sorterOut s
    /\ map (filter (fun e => isResolved e)) (sorterInputs s')
       = map (fun q => q ++ filter (fun e => isResolved e) input)
           (map (filter (fun e => isResolved e)) (sorterInputs s))
    /\ concat (map (filter (fun e => negb (isResolved e))) (sorterInputs s'))
       ≡ₚ concat (map (filter (fun e => negb (isResolved e))) (sorterInputs s))
          ++ filter (fun e => negb (isResolved e)) input.
Proof.
  revert s; induction input as [|event rest IH]; intros s H0 Hn Hlen.
  - exists s. cbn [map Run]. rewrite !filter_nil.
    split; [done|]. split; [done|]. split; [done|]. split.
    + rewrite <- (map_id (map _ (sorterInputs s))) at 1.
      apply map_ext. intros q. by rewrite app_nil_r.
    + by rewrite app_nil_r.
  - assert (Hlen' : len (event :: rest) = 1 + len rest) by (unfold len; cbn [length]; lia).
    pose proof (len_nonneg rest).
    destruct (dispatch_effect s event ltac:(lia) Hlen)
      as (s1 & Hd & Hlen1 & Hn1 & Hout1 & Hres1 & Hrow1).
    destruct (IH s1 ltac:(lia) ltac:(lia) Hlen1) as (s' & Hrun & Hlen2 & Hout2 & Hres2 & Hrow2).
    exists s'. cbn [map Run]. rewrite Hd.
    split; [exact Hrun|]. split; [exact Hlen2|]. split; [congruence|]. split.
    + rewrite Hres2, Hres1. rewrite !map_map. apply map_ext. intros q. cbn beta.
      rewrite <- app_assoc. f_equal.
      by rewrite <- filter_app.
    + rewrite Hrow2, Hrow1. rewrite <- app_assoc. by rewrite <- filter_app.
Qed.

(** [Run], fed any input, hands every resolved marker to every one of the
    sixteen heap sorters, in the order of the input, and every other event
    to exactly one of them: the queues, put together, hold the other events
    of the input, each once.  It does not return, and leaves the channel to
    the merger open. *)
Theorem Run_dispatches (input : list Event) :
  len input < 2 ^ 63 ->
  exists s',
    Run (map Input input) NewUnifiedSorter = (None, s')
    /\ length (sorterInputs s') = numConcurrentHeaps
    /\ Forall (fun q => filter (fun e => isResolved e) q
                        = filter (fun e => isResolved e) input) (sorterInputs s')
    /\ concat (map (filter (fun e => negb (isResolved e))) (sorterInputs s'))
       ≡ₚ filter (fun e => negb (isResolved e)) input
    /\ closed (sorterOut s') = false.
Proof.
  intros Hlen.
  destruct (Run_inputs input NewUnifiedSorter ltac:(cbn; lia) ltac:(cbn [nextSorterId NewUnifiedSorter]; lia)
              eq_refl) as (s' & Hrun & Hlen' & Hout & Hres & Hrow).
  exists s'. split; [exact Hrun|]. split; [exact Hlen'|]. split; [|split].
  - apply Forall_forall. intros q Hq.
    assert (Hin : In (filter (fun e => isResolved e) q)
                    (map (filter (fun e => isResolved e)) (sorterInputs s'))).
    { apply in_map. by apply list_elem_of_In. }
    rewrite Hres in Hin. cbn in Hin.
    repeat (destruct Hin as [<-|Hin]; [done|]). done.
  - rewrite Hrow. done.
  - by rewrite Hout.
Qed.

Lemma Run_dispatches_witness :
  exists s',
    Run (map Input cutInput) NewUnifiedSorter = (None, s')
    /\ length (sorterInputs s') = numConcurrentHeaps
    /\ Forall (fun q => filter (fun e => isResolved e) q
                        = filter (fun e => isResolved e) cutInput) (sorterInputs s')
    /\ concat (map (filter (fun e => negb (isResolved e))) (sorterInputs s'))
       ≡ₚ filter (fun e => negb (isResolved e)) cutInput
    /\ closed (sorterOut s') = false.
Proof.
  apply (Run_dispatches cutInput). vm_compute. reflexivity.
Defined.

(** ** The merger: the frontier is the minimum *)

Lemma minOver_insert_le (l : list Z) (i : nat) (prev v : Z) :
  l !! i = Some prev -> prev <= v -> minOver l <= minOver (<[i := v]> l).
Proof.
  intros Hl Hv. unfold minOver.
  destruct (minOver_fold l maxUint64) as (Hacc & Hmin & _).
  destruct (minOver_fold (<[i := v]> l) maxUint64) as (_ & _ & [Heq|Hin]).
  - cbn zeta in *. lia.
  - cbn zeta in *. apply list_elem_of_In, list_elem_of_lookup in Hin as [j Hj].
    apply list_lookup_insert_Some in Hj as [(-> & <- & _)|(Hne & Hj)].
    + pose proof (Forall_lookup_1 _ _ _ _ Hmin Hl). cbn beta in *. lia.
    + pose proof (Forall_lookup_1 _ _ _ _ Hmin Hj). done.
Qed.

Lemma minOver_replicate_zero (n : nat) : n <> 0%nat -> minOver (replicate n 0) = 0.
Proof.
  intros Hn. unfold minOver.
  pose proof (minOver_fold (replicate n 0) maxUint64) as H. cbn zeta in H.
  set (r := fold_left _ _ _) in *. clearbody r.
  destruct H as (Hacc & Hmin & Hin).
  destruct n as [|n]; [done|].
  assert (H0 : r <= 0) by (by apply Forall_cons in Hmin as [? _]).
  destruct Hin as [Heq|Hin].
  - unfold maxUint64 in Heq. lia.
  - apply list_elem_of_In, elem_of_replicate in Hin as [-> _]. done.
Qed.

Section MergerMinimum.
Context `{codec : rawKVCodec}.

Lemma mergerRecv_min_is_minOver (received : option flushTask) (m : merger) :
  minResolvedTs m = minOver (lastResolvedTs m) ->
  minResolvedTs (snd (mergerRecv received m))
  = minOver (lastResolvedTs (snd (mergerRecv received m))).
Proof.
  intros Hinv. unfold mergerRecv. destruct received as [task|]; [|done].
  set (m1 := match backend task with Some _ => _ | None => m end).
  assert (Hm1 : minResolvedTs m1 = minResolvedTs m /\ lastResolvedTs m1 = lastResolvedTs m)
    by (subst m1; by destruct (backend task)).
  clearbody m1. destruct Hm1 as [Hmin1 Hlast1].
  destruct (lastResolvedTs m1 !! heapSorterId task) as [prev|] eqn:Hprev; cbn [snd].
  2:{ by rewrite Hmin1, Hlast1. }
  set (l := if prev <? _ then _ else _).
  assert (Hl : minOver (lastResolvedTs m1) <= minOver l).
  { subst l. destruct (Z.ltb_spec prev (maxResolvedTs task)); [|lia].
    eapply minOver_insert_le; [exact Hprev | lia]. }
  clearbody l.
  destruct (Z.ltb_spec (minResolvedTs m1) (minOver l)).
  - destruct (onMinResolvedTsUpdate_frontier (withFrontier m1 l (minOver l))) as [-> ->].
    done.
  - cbn [snd minResolvedTs lastResolvedTs withFrontier]. rewrite Hlast1 in Hl. lia.
Qed.

(** From its start and for as long as it runs, the merger keeps
    [minResolvedTs] equal to the minimum of [lastResolvedTs]: it is the
    lowest frontier of the heap sorters, whatever tasks arrive and however
    the rounds end. *)
Theorem runMerger_min_is_frontier_min (ctx : cancellation) (numSorters : nat)
  (inCh : flushChan) (p : backEndPool) (ticks : list bool) :
  numSorters <> 0%nat ->
  let m := finalState (runMerger ctx numSorters inCh p ticks) in
  minResolvedTs m = minOver (lastResolvedTs m)
  /\ length (lastResolvedTs m) = numSorters.
Proof.
  intros Hn. unfold runMerger.
  assert (Hgen : forall q c cl m0,
             minResolvedTs m0 = minOver (lastResolvedTs m0) ->
             length (lastResolvedTs m0) = numSorters ->
             minResolvedTs (finalState (mergerLoop c q cl m0))
             = minOver (lastResolvedTs (finalState (mergerLoop c q cl m0)))
             /\ length (lastResolvedTs (finalState (mergerLoop c q cl m0))) = numSorters).
  { induction q as [|task rest IH]; intros c cl m0 Hinv Hlen.
    - destruct c as [[[|n] err]|]; cbn [mergerLoop]; try (destruct cl); cbn; done.
    - assert (Hstep : forall c', 
                 minResolvedTs (finalState
                   match mergerRecv (Some task) m0 with
                   | (Ok _, m') => mergerLoop c' rest cl m'
                   | (r, m') => Returned r m'
                   end)
                 = minOver (lastResolvedTs (finalState
                   match mergerRecv (Some task) m0 with
                   | (Ok _, m') => mergerLoop c' rest cl m'
                   | (r, m') => Returned r m'
                   end))
                 /\ length (lastResolvedTs (finalState
                   match mergerRecv (Some task) m0 with
                   | (Ok _, m') => mergerLoop c' rest cl m'
                   | (r, m') => Returned r m'
                   end)) = numSorters).
      { intros c'.
        pose proof (mergerRecv_min_is_minOver (Some task) m0 Hinv) as H1.
        assert (Hlen1 : length (lastResolvedTs (snd (mergerRecv (Some task) m0)))
                        = numSorters).
        { unfold mergerRecv.
          set (m1 := match backend task with Some _ => _ | None => m0 end).
          assert (Hm1 : lastResolvedTs m1 = lastResolvedTs m0)
            by (subst m1; by destruct (backend task)).
          clearbody m1.
          destruct (lastResolvedTs m1 !! heapSorterId task) as [prev|]; cbn [snd];
            [|by rewrite Hm1].
          set (l := if prev <? _ then _ else _).
          assert (Hl : length l = numSorters).
          { subst l. destruct (prev <? _); rewrite ?length_insert; by rewrite Hm1. }
          clearbody l.
          destruct (minResolvedTs m1 <? minOver l); [|done].
          destruct (onMinResolvedTsUpdate_frontier (withFrontier m1 l (minOver l)))
            as [-> _].
          done. }
        destruct (mergerRecv (Some task) m0) as [[[]| | |] m1]; cbn [snd finalState] in *;
          try done.
        by apply IH. }
      destruct c as [[[|n] err]|]; cbn [mergerLoop]; [done | apply Hstep | apply Hstep]. }
  apply Hgen; cbn.
  - symmetry. by apply minOver_replicate_zero.
  - apply length_replicate.
Qed.

End MergerMinimum.

Lemma runMerger_min_is_frontier_min_witness :
  let m := finalState (@runMerger exampleCodec None 1
                         {| queue := [memoryTask 0 0 5 [put 3; resolved 5; put 7];
                                      memoryTask 1 0 7 [resolved 7]];
                            closed := false |}
                         (newBackEndPool "/tmp") []) in
  minResolvedTs m = minOver (lastResolvedTs m)
  /\ length (lastResolvedTs m) = 1%nat.
Proof.
  apply (@runMerger_min_is_frontier_min exampleCodec None 1). discriminate.
Defined.

(** ** The merger: what a round sends *)

Lemma outExtends_refl (P : Event -> Prop) (m m' : merger) :
  outCh m' = outCh m -> outExtends P m m'.
Proof. intros H. exists []. by rewrite app_nil_r. Qed.

Lemma outExtends_trans (P : Event -> Prop) (m1 m2 m3 : merger) :
  outExtends P m1 m2 -> outExtends P m2 m3 -> outExtends P m1 m3.
Proof.
  intros (b1 & H1 & F1) (b2 & H2 & F2). exists (b1 ++ b2).
  split; [by rewrite H2, H1, app_assoc | by apply Forall_app].
Qed.

Section RoundOutput.
Context `{codec : rawKVCodec}.

Lemma primeTask_out (task : flushTask) (cache : option Event) (m : merger) :
  outCh (snd (primeTask task cache m)) = outCh m.
Proof.
  unfold primeTask. destruct (maxResolvedTs task <=? minResolvedTs m); [|done].
  set (read := match cache with Some e => _ | None => _ end).
  destruct read as [[event| | |] task']; cbn [snd]; try done.
  destruct (match event with Some e => _ | None => false end); [done|].
  by destruct (heapPush _ _).
Qed.

Lemma prime_out (todo : list (flushTask * option Event)) (m : merger) :
  outCh (snd (prime todo m)) = outCh m.
Proof.
  revert m; induction todo as [|[task cache] rest IH]; intros m; [done|].
  cbn [prime]. unfold sbind.
  pose proof (primeTask_out task cache m) as H1.
  destruct (primeTask task cache m) as [[| | |] m1]; cbn [snd] in *; try done.
  by rewrite IH.
Qed.

Lemma drainStep_out (item : sortItem) (m : merger) :
  outExtends outputEvent m (snd (drainStep item m)).
Proof.
  unfold drainStep. destruct (data item) as [task|]; [|by apply outExtends_refl].
  destruct (entry item) as [event|]; [|by apply outExtends_refl].
  set (m1 := if isRowChange event then _ else m).
  assert (H1 : outExtends outputEvent m m1).
  { subst m1. destruct (isRowChange event) eqn:Hrow; [|by apply outExtends_refl].
    exists [event]. split; [done|]. constructor; [by left | constructor]. }
  clearbody m1. eapply outExtends_trans; [exact H1|].
  destruct (taskReadNext task) as [[[next|]| | |] task']; cbn [snd];
    try (by apply outExtends_refl).
  - destruct (minResolvedTs m1 <=? CRTs next).
    + apply outExtends_refl. apply retire_effect.
    + destruct (heapPush _ _) as [h| | |]; cbn [snd]; try (by apply outExtends_refl).
      unfold pollTicker. destruct (ticker (withHeap m1 h)) as [|[|] rest]; cbn [snd];
        try (by apply outExtends_refl).
      exists [NewResolvedPolymorphicEvent 0 (CRTs next)]. split; [done|].
      constructor; [right; eauto | constructor].
  - apply outExtends_refl.
    match goal with
    | |- context [taskDealloc ?t ?m0] => exact (proj1 (taskDealloc_effect t m0))
    end.
Qed.

Lemma drain_out (fuel : nat) (m : merger) (r : outcome unit) (m' : merger) :
  drain fuel m = Some (r, m') -> outExtends outputEvent m m'.
Proof.
  revert m; induction fuel as [|fuel IH]; intros m; [done|].
  cbn [drain]. destruct (heapPop (mergeHeap m)) as [[item rest]|].
  - pose proof (drainStep_out item (withHeap m rest)) as H1.
    destruct (drainStep item (withHeap m rest)) as [[[]| | |] m1]; cbn [snd] in H1.
    + intros H. eapply outExtends_trans; [exact H1 | exact (IH _ H)].
    + by intros [= <- <-].
    + by intros [= <- <-].
    + by intros [= <- <-].
  - intros [= <- <-]. by apply outExtends_refl.
Qed.

Lemma round_out_extends (m : merger) :
  outExtends outputEvent m (snd (onMinResolvedTsUpdate m)).
Proof.
  unfold onMinResolvedTsUpdate.
  set (m0 := withHeap (withWorking m []) []).
  pose proof (prime_out (pendingSet m0) m0) as Hp.
  destruct (prime (pendingSet m0) m0) as [[[]| | |] m1]; cbn [snd] in Hp;
    try (by apply outExtends_refl).
  assert (H1 : outExtends outputEvent m m1) by (by apply outExtends_refl).
  destruct (drain _ m1) as [[[[]| | |] m2]|] eqn:Hd; cbn [snd]; try exact H1;
    try (eapply outExtends_trans; [exact H1 | exact (drain_out _ _ _ _ Hd)]).
  eapply outExtends_trans; [exact H1|].
  eapply outExtends_trans; [exact (drain_out _ _ _ _ Hd)|].
  exists [NewResolvedPolymorphicEvent 0 (minResolvedTs m2)]. split; [done|].
  constructor; [right; eauto | constructor].
Qed.

(** Whatever the backends hold, a round sends only row changes and resolved
    markers it made itself (region 0): the resolved markers the heap sorters
    put into the runs, and events without a raw entry, never reach the
    output. *)
Theorem round_sends_own_markers_only (m : merger) :
  Forall outputEvent (roundEmitted m).
Proof.
  destruct (round_out_extends m) as (body & Hout & Hbody).
  unfold roundEmitted. rewrite Hout. by rewrite drop_app_length.
Qed.

(** A round in which no pending task is due (none has
    [maxResolvedTs <= minResolvedTs]; in particular with nothing pending)
    reads nothing and sends exactly the closing marker. *)
Theorem round_without_due_tasks (m : merger) :
  Forall (fun tc => minResolvedTs m < maxResolvedTs (fst tc)) (pendingSet m) ->
  onMinResolvedTsUpdate m
  = (Ok (), withOut (withHeap (withWorking m []) [])
              (outCh m ++ [NewResolvedPolymorphicEvent 0 (minResolvedTs m)])).
Proof.
  intros Hall. unfold onMinResolvedTsUpdate.
  set (m0 := withHeap (withWorking m []) []).
  assert (Hprime : forall todo,
             Forall (fun tc => minResolvedTs m0 < maxResolvedTs (fst tc)) todo ->
             prime todo m0 = (Ok (), m0)).
  { induction todo as [|[task cache] rest IH]; intros Htodo; [done|].
    apply Forall_cons in Htodo as [Ht Hrest]. cbn [prime]. unfold sbind, primeTask.
    cbn [fst] in Ht. destruct (Z.leb_spec (maxResolvedTs task) (minResolvedTs m0)); [lia|].
    by apply IH. }
  rewrite (Hprime (pendingSet m0) Hall). reflexivity.
Qed.

Lemma prime_fails_on_write_error (todo : list (flushTask * option Event)) (m : merger)
  (task : flushTask) (err : string) :
  In (task, None) todo ->
  maxResolvedTs task <= minResolvedTs m ->
  finished task = Some err ->
  fst (prime todo m) <> Ok ().
Proof.
  revert m; induction todo as [|[t c] rest IH]; intros m Hin Hdue Hfin; [done|].
  cbn [prime]. unfold sbind.
  destruct Hin as [[= -> ->]|Hin].
  - unfold primeTask. destruct (Z.leb_spec (maxResolvedTs task) (minResolvedTs m)); [|lia].
    rewrite Hfin. done.
  - pose proof (primeTask_frontier t c m) as [_ Hmin].
    destruct (primeTask t c m) as [[| | |] m1]; cbn [snd] in *; try done.
    apply IH; [done | lia | done].
Qed.

(** A write error that a task's completion signal carries stops the first
    round in which the task is due and still unread: the round returns an
    error and has sent nothing. *)
Theorem round_aborts_on_write_error (m : merger) (task : flushTask) (err : string) :
  In (task, None) (pendingSet m) ->
  maxResolvedTs task <= minResolvedTs m ->
  finished task = Some err ->
  fst (onMinResolvedTsUpdate m) <> Ok ()
  /\ outCh (snd (onMinResolvedTsUpdate m)) = outCh m.
Proof.
  intros Hin Hdue Hfin. unfold onMinResolvedTsUpdate.
  set (m0 := withHeap (withWorking m []) []).
  pose proof (prime_fails_on_write_error (pendingSet m0) m0 task err Hin Hdue Hfin) as Hf.
  pose proof (prime_out (pendingSet m0) m0) as Ho.
  destruct (prime (pendingSet m0) m0) as [[[]| | |] m1]; cbn [fst snd] in *; done.
Qed.

End RoundOutput.

Lemma round_without_due_tasks_witness :
  let m := withFrontier (@newMerger 1 (newBackEndPool "/tmp") []) [100] 100 in
  @onMinResolvedTsUpdate exampleCodec m
  = (Ok (), withOut (withHeap (withWorking m []) [])
              (outCh m ++ [NewResolvedPolymorphicEvent 0 (minResolvedTs m)])).
Proof.
  apply (@round_without_due_tasks exampleCodec). constructor.
Defined.

Lemma round_aborts_on_write_error_witness :
  let task := {| taskPtr := 0; heapSorterId := 0;
                 backend := Some (MemoryBackEnd {| events := [put 3]; readIndex := 0 |});
                 maxResolvedTs := 5; finished := Some "disk full"%string |} in
  let m := withFrontier (withPending (@newMerger 1 (newBackEndPool "/tmp") []) [(task, None)])
             [5] 5 in
  fst (@onMinResolvedTsUpdate exampleCodec m) <> Ok ()
  /\ outCh (snd (@onMinResolvedTsUpdate exampleCodec m)) = outCh m.
Proof.
  intros task m.
  apply (@round_aborts_on_write_error exampleCodec m task "disk full").
  - by left.
  - cbn. lia.
  - reflexivity.
Defined.

(** ** The merger: what a round sends, and when a round runs *)

Lemma entryEvents_In (h : sortHeap) (it : sortItem) (e : Event) :
  In it h -> entry it = Some e -> In e (entryEvents h).
Proof.
  intros Hin He. unfold entryEvents. induction h as [|x r IH]; [done|].
  cbn. destruct Hin as [->|Hin].
  - rewrite He. by left.
  - destruct (entry x); [right|]; by apply IH.
Qed.

Lemma isMinOf_unique (x y : Z) (l : list Z) : isMinOf x l -> isMinOf y l -> x = y.
Proof.
  intros [Hx Hlx] [Hy Hly].
  pose proof (proj1 (List.Forall_forall _ _) Hlx y Hy).
  pose proof (proj1 (List.Forall_forall _ _) Hly x Hx). cbn beta in *. lia.
Qed.

Lemma pendingInsert_In (ps : list (flushTask * option Event)) (task : flushTask)
  (cache : option Event) :
  In (task, cache) (pendingInsert ps task cache).
Proof.
  induction ps as [|[t c] r IH]; cbn; [by left|].
  destruct (Nat.eqb (taskPtr t) (taskPtr task)); [by left | by right].
Qed.

Section RoundCut.
Context `{codec : rawKVCodec}.

Lemma drainStep_invP (P : Event -> Prop) (minTs : Z) (base : list Event) (item : sortItem)
  (m : merger) :
  (forall e, CRTs e < minTs -> P e) ->
  drainInv P minTs base m ->
  (forall e, entry item = Some e -> P e) ->
  drainInv P minTs base (snd (drainStep item m)).
Proof.
  intros HP (Hmin & Hheap & body0 & Hout0 & Hb0) Hitem.
  destruct (drainStep_effect item m) as [(body & Hout & Hbody) Hh].
  split; [|split].
  - rewrite <- Hmin. apply drainStep_frontier.
  - destruct Hh as [->|(next & task' & -> & Hlt & _)]; [done|].
    apply Forall_app. split; [done|]. constructor; [|constructor].
    cbn. intros e [= <-]. apply HP. lia.
  - exists (body0 ++ body). split; [by rewrite Hout, Hout0, app_assoc|].
    apply Forall_app. split; [done|].
    eapply Forall_impl; [exact Hbody|]. intros e [He|He]; [by apply Hitem | apply HP; lia].
Qed.

Lemma drain_invP (P : Event -> Prop) (minTs : Z) (base : list Event) (fuel : nat)
  (m : merger) (r : outcome unit) (m' : merger) :
  (forall e, CRTs e < minTs -> P e) ->
  drainInv P minTs base m -> drain fuel m = Some (r, m') -> drainInv P minTs base m'.
Proof.
  intros HP. revert m; induction fuel as [|fuel IH]; intros m Hinv; [done|].
  cbn [drain]. destruct (heapPop (mergeHeap m)) as [[item rest]|] eqn:Hpop.
  - pose proof (heapPop_perm _ _ _ Hpop) as Hperm.
    destruct Hinv as (Hmin & Hheap & Hout).
    rewrite Hperm in Hheap. apply Forall_cons in Hheap as [Hitem Hrest].
    assert (Hinv1 : drainInv P minTs base (withHeap m rest)) by (by split).
    pose proof (drainStep_invP P _ _ item _ HP Hinv1 Hitem) as H1.
    destruct (drainStep item (withHeap m rest)) as [[[]| | |] m1]; cbn [snd] in H1.
    + intros H. by apply (IH m1).
    + by intros [= <- <-].
    + by intros [= <- <-].
    + by intros [= <- <-].
  - by intros [= <- <-].
Qed.

(** What a round sends: events that are below the cut or were put into the
    heap by the first loop, then, when it returns nil, the closing marker. *)
Lemma round_output (m : merger) :
  exists events,
    outCh (snd (onMinResolvedTsUpdate m))
    = outCh m ++ events
      ++ match fst (onMinResolvedTsUpdate m) with
         | Ok _ => [NewResolvedPolymorphicEvent 0 (minResolvedTs m)]
         | _ => []
         end
    /\ Forall (fun e => CRTs e < minResolvedTs m \/ In e (primedEvents m)) events.
Proof.
  unfold primedEvents. cbn zeta.
  set (m0 := withHeap (withWorking m []) []).
  pose proof (prime_out (pendingSet m0) m0) as Hpo.
  pose proof (prime_frontier (pendingSet m0) m0) as [_ Hpm].
  destruct (prime (pendingSet m0) m0) as [r1 m1] eqn:Hprime. cbn [snd] in *.
  assert (Hfail : r1 <> Ok () ->
            onMinResolvedTsUpdate m = (r1, m1)).
  { intros Hr. unfold onMinResolvedTsUpdate. fold m0. rewrite Hprime.
    by destruct r1 as [[]| | |]. }
  destruct r1 as [[]| | |];
    try (rewrite Hfail by done; exists []; cbn [fst snd]; rewrite !app_nil_r;
         split; [exact Hpo | constructor]).
  destruct (onMinResolvedTsUpdate_total m m1 () Hprime) as (r & m2 & Hd & ->).
  set (P := fun e => CRTs e < minResolvedTs m \/ In e (entryEvents (mergeHeap m1))).
  assert (Hinv1 : drainInv P (minResolvedTs m) (outCh m) m1).
  { split; [exact Hpm|]. split.
    - apply List.Forall_forall. intros it Hin e He. right. by eapply entryEvents_In.
    - exists []. rewrite app_nil_r. split; [exact Hpo | constructor]. }
  destruct (drain_invP P _ _ _ _ _ _ ltac:(by left) Hinv1 Hd) as (Hmin & _ & body & Hout & Hbody).
  exists body. split; [|exact Hbody].
  destruct r as [[]| | |]; cbn [fst snd]; rewrite ?app_nil_r; try exact Hout.
  unfold sendResolvedEvent. cbn [fst snd outCh withOut]. by rewrite Hout, Hmin, app_assoc.
Qed.

(** C3, as the code has it.  What a merge round sends on [out] follows
    what was sent before; every event of it is at or below the cut
    [minResolvedTs]; a round that returns nil has sent
    [Resolved(minResolvedTs)] last, after all of them.  The events that may
    lie at the cut are those with which the first loop fills the heap, for
    each due task its cached event or the first one read: they are at or
    below the cut, and every other event sent before the closing marker
    (the events read in the drain, and the periodic markers) is strictly
    below it. *)
Theorem round_emits_up_to_cut (m : merger) :
  outCh (snd (onMinResolvedTsUpdate m)) = outCh m ++ roundEmitted m
  /\ Forall (fun e => CRTs e <= minResolvedTs m) (roundEmitted m)
  /\ match fst (onMinResolvedTsUpdate m) with
     | Ok _ => exists events,
                 roundEmitted m = events ++ [NewResolvedPolymorphicEvent 0 (minResolvedTs m)]
     | _ => True
     end
  /\ Forall (fun e => CRTs e <= minResolvedTs m) (primedEvents m)
  /\ exists events,
       roundEmitted m
       = events ++ match fst (onMinResolvedTsUpdate m) with
                   | Ok _ => [NewResolvedPolymorphicEvent 0 (minResolvedTs m)]
                   | _ => []
                   end
       /\ Forall (fun e => CRTs e < minResolvedTs m \/ In e (primedEvents m)) events.
Proof.
  set (m0 := withHeap (withWorking m []) []).
  assert (Hinv0 : roundInv (minResolvedTs m) (outCh m) m0).
  { split; [done|]. split; [constructor|]. exists []. by rewrite app_nil_r. }
  pose proof (prime_inv _ _ (pendingSet m0) m0 Hinv0) as Hinv1.
  assert (Hprimed : Forall (fun e => CRTs e <= minResolvedTs m) (primedEvents m)).
  { unfold primedEvents. cbn zeta. fold m0. destruct Hinv1 as (_ & Hheap & _).
    unfold heapBounded in Hheap. unfold entryEvents.
    induction Hheap as [|it h Hit _ IH]; cbn; [constructor|].
    destruct (entry it) as [e|] eqn:He; [|exact IH]. constructor; [by apply Hit | exact IH]. }
  destruct (round_output m) as (events & Hout & Hevents).
  assert (Hem : roundEmitted m
                = events ++ match fst (onMinResolvedTsUpdate m) with
                            | Ok _ => [NewResolvedPolymorphicEvent 0 (minResolvedTs m)]
                            | _ => []
                            end).
  { unfold roundEmitted. rewrite Hout. by rewrite drop_app_length. }
  split; [by rewrite Hem|]. split; [|split; [|split; [exact Hprimed | eauto]]].
  - rewrite Hem. apply Forall_app. split.
    + eapply Forall_impl; [exact Hevents|]. intros e [He|He]; cbn beta; [lia|].
      exact (proj1 (List.Forall_forall _ _) Hprimed e He).
    + destruct (fst (onMinResolvedTsUpdate m)) as [[]| | |]; repeat constructor. cbn. lia.
  - rewrite Hem. destruct (fst (onMinResolvedTsUpdate m)) as [[]| | |]; eauto.
Qed.

(** C5.  On a flush task whose sorter id indexes [lastResolvedTs], the
    entry of that sorter becomes the maximum of its value and
    [task.maxResolvedTs].  A task with a backend is in [pendingSet], not
    read yet, when the minimum is compared; a task without one leaves
    [pendingSet] as it was.  When the minimum of the entries does not
    exceed [minResolvedTs] nothing else happens: no round, nothing sent,
    [minResolvedTs] as before, the task still pending.  When it does,
    [minResolvedTs] becomes that minimum and a round runs on the pending
    set with the task in it: if it returns nil it has sent, last, the
    closing marker at the new minimum.  [minResolvedTs] never decreases, in
    this step and over any run from here, cancelled or not. *)
Theorem mergerRecv_frontier (m : merger) (task : flushTask) (prev : Z) :
  lastResolvedTs m !! heapSorterId task = Some prev ->
  Forall inUint64 (lastResolvedTs m) ->
  inUint64 (maxResolvedTs task) ->
  let l := <[heapSorterId task := Z.max prev (maxResolvedTs task)]> (lastResolvedTs m) in
  let ps := match backend task with
            | Some _ => pendingInsert (pendingSet m) task None
            | None => pendingSet m
            end in
  let m' := snd (mergerRecv (Some task) m) in
  (exists newMin,
      isMinOf newMin l
      /\ mergerRecv (Some task) m =
         if minResolvedTs m <? newMin
         then onMinResolvedTsUpdate (withFrontier (withPending m ps) l newMin)
         else (Ok (), withFrontier (withPending m ps) l (minResolvedTs m)))
  /\ lastResolvedTs m' = l
  /\ (backend task <> None ->
      In (task, None) ps /\ pendingLookup ps (taskPtr task) = Some None)
  /\ (backend task = None -> ps = pendingSet m)
  /\ (forall newMin, isMinOf newMin l -> newMin <= minResolvedTs m ->
        fst (mergerRecv (Some task) m) = Ok ()
        /\ pendingSet m' = ps /\ outCh m' = outCh m
        /\ minResolvedTs m' = minResolvedTs m)
  /\ (forall newMin, isMinOf newMin l -> minResolvedTs m < newMin ->
        minResolvedTs m' = newMin
        /\ (fst (mergerRecv (Some task) m) = Ok () ->
            exists events,
              outCh m' = outCh m ++ events ++ [NewResolvedPolymorphicEvent 0 newMin]))
  /\ minResolvedTs m <= minResolvedTs m'
  /\ (forall ctx q isClosed,
        minResolvedTs m <= minResolvedTs (finalState (mergerLoop ctx q isClosed m))).
Proof.
  intros Hprev Hall Htask l ps m'.
  assert (Hmin : isMinOf (minOver l) l).
  { apply minOver_isMinOf.
    - intros Hnil. apply (f_equal length) in Hnil. subst l.
      rewrite length_insert in Hnil. apply lookup_lt_Some in Hprev. cbn in Hnil. lia.
    - subst l. apply Forall_insert; [exact Hall|].
      pose proof (Forall_lookup_1 _ _ _ _ Hall Hprev) as Hp. unfold inUint64 in *. lia. }
  assert (Heq : mergerRecv (Some task) m =
                if minResolvedTs m <? minOver l
                then onMinResolvedTsUpdate (withFrontier (withPending m ps) l (minOver l))
                else (Ok (), withFrontier (withPending m ps) l (minResolvedTs m))).
  { unfold mergerRecv.
    assert (Hm1 : match backend task with
                  | Some _ => withPending m (pendingInsert (pendingSet m) task None)
                  | None => m
                  end = withPending m ps).
    { subst ps. destruct (backend task); [done|]. by destruct m. }
    rewrite Hm1. cbn [lastResolvedTs withPending]. rewrite Hprev.
    assert (Hl : (if prev <? maxResolvedTs task
                  then <[heapSorterId task := maxResolvedTs task]> (lastResolvedTs m)
                  else lastResolvedTs m) = l).
    { subst l. destruct (Z.ltb_spec prev (maxResolvedTs task)).
      - by rewrite Z.max_r by lia.
      - rewrite Z.max_l by lia. symmetry. by apply list_insert_id. }
    rewrite Hl. reflexivity. }
  split; [eauto|]. split; [|split; [|split; [|split; [|split; [|split]]]]].
  - subst m'. rewrite Heq. destruct (minResolvedTs m <? minOver l); [|done].
    by destruct (onMinResolvedTsUpdate_frontier
                   (withFrontier (withPending m ps) l (minOver l))) as [-> _].
  - intros Hb. subst ps. destruct (backend task); [|done].
    split; [apply pendingInsert_In | by apply pendingLookup_insert].
  - intros Hb. subst ps. by rewrite Hb.
  - intros newMin HnewMin Hle. rewrite (isMinOf_unique _ _ _ HnewMin Hmin) in Hle.
    subst m'. rewrite Heq. destruct (Z.ltb_spec (minResolvedTs m) (minOver l)); [lia|].
    done.
  - intros newMin HnewMin Hlt. rewrite (isMinOf_unique _ _ _ HnewMin Hmin) in *.
    subst m'. rewrite Heq. destruct (Z.ltb_spec (minResolvedTs m) (minOver l)); [|lia].
    set (m1 := withFrontier (withPending m ps) l (minOver l)).
    split.
    + by destruct (onMinResolvedTsUpdate_frontier m1) as [_ ->].
    + intros Hok. destruct (round_output m1) as (events & Hout & _).
      rewrite Hok in Hout. exists events. exact Hout.
  - apply mergerRecv_min_mono.
  - intros ctx q isClosed. apply mergerLoop_min_mono.
Qed.

End RoundCut.

Lemma mergerRecv_frontier_witness :
  let task := memoryTask 0 0 7 [put 5; put 6; resolved 7] in
  let holds (m : merger) :=
    let l := <[0%nat := Z.max 0 7]> (lastResolvedTs m) in
    let ps := pendingInsert (pendingSet m) task None in
    let m' := snd (@mergerRecv exampleCodec (Some task) m) in
    (exists newMin,
        isMinOf newMin l
        /\ @mergerRecv exampleCodec (Some task) m =
           if minResolvedTs m <? newMin
           then @onMinResolvedTsUpdate exampleCodec (withFrontier (withPending m ps) l newMin)
           else (Ok (), withFrontier (withPending m ps) l (minResolvedTs m)))
    /\ lastResolvedTs m' = l
    /\ (backend task <> None ->
        In (task, None) ps /\ pendingLookup ps (taskPtr task) = Some None)
    /\ (backend task = None -> ps = pendingSet m)
    /\ (forall newMin, isMinOf newMin l -> newMin <= minResolvedTs m ->
          fst (@mergerRecv exampleCodec (Some task) m) = Ok ()
          /\ pendingSet m' = ps /\ outCh m' = outCh m
          /\ minResolvedTs m' = minResolvedTs m)
    /\ (forall newMin, isMinOf newMin l -> minResolvedTs m < newMin ->
          minResolvedTs m' = newMin
          /\ (fst (@mergerRecv exampleCodec (Some task) m) = Ok () ->
              exists events,
                outCh m' = outCh m ++ events ++ [NewResolvedPolymorphicEvent 0 newMin]))
    /\ minResolvedTs m <= minResolvedTs m'
    /\ (forall ctx q isClosed,
          minResolvedTs m
          <= minResolvedTs (finalState (@mergerLoop exampleCodec ctx q isClosed m))) in
  holds (@newMerger 1 (newBackEndPool "/tmp") [])
  /\ holds (@newMerger 2 (newBackEndPool "/tmp") []).
Proof.
  intros task holds. split.
  - apply (@mergerRecv_frontier exampleCodec (newMerger 1 (newBackEndPool "/tmp") [])
             task 0 eq_refl).
    + cbn. repeat constructor; unfold inUint64, maxUint64; lia.
    + unfold inUint64, maxUint64. cbn. lia.
  - apply (@mergerRecv_frontier exampleCodec (newMerger 2 (newBackEndPool "/tmp") [])
             task 0 eq_refl).
    + cbn. repeat constructor; unfold inUint64, maxUint64; lia.
    + unfold inUint64, maxUint64. cbn. lia.
Defined.

(** ** The merger: a round over sorted runs sends in commit order *)

Lemma StronglySorted_snoc {A : Type} (R : A -> A -> Prop) (l : list A) (x : A) :
  StronglySorted R l -> Forall (fun y => R y x) l -> StronglySorted R (l ++ [x]).
Proof.
  induction 1 as [|a l Hs IH Ha]; intros Hx; cbn.
  - constructor; constructor.
  - apply Forall_cons in Hx as [Hax Hx]. constructor; [by apply IH|].
    apply Forall_app. split; [exact Ha | by constructor].
Qed.

Lemma rowChanges_app (l1 l2 : list Event) :
  rowChanges (l1 ++ l2) = rowChanges l1 ++ rowChanges l2.
Proof. unfold rowChanges. apply filter_app. Qed.

Lemma entryEvents_app (h1 h2 : sortHeap) :
  entryEvents (h1 ++ h2) = entryEvents h1 ++ entryEvents h2.
Proof. unfold entryEvents. apply omap_app. Qed.

Lemma sortedHeap_push (h : sortHeap) (x : sortItem) (h' : sortHeap) :
  sortedHeap h -> heapPush h x = Ok h' ->
  (forall e, entry x = Some e ->
             exists task, data x = Some task /\ sortedTask task (Some e)) ->
  sortedHeap h'.
Proof.
  intros [Hnil Hall] Hpush Hx. unfold heapPush in Hpush.
  destruct h as [|y r].
  - injection Hpush as <-. split; [right; cbn; lia|]. by constructor.
  - destruct (hasNilEntry (x :: y :: r)) eqn:Hn; [done|]. injection Hpush as <-.
    split.
    + left. apply hasNilEntry_false. apply hasNilEntry_false in Hn.
      apply Forall_cons in Hn as [Hx0 Hyr].
      apply (proj2 (Forall_app _ (y :: r) [x])). split; [done | by constructor].
    + apply (proj2 (Forall_app _ (y :: r) [x])). split; [done | by constructor].
Qed.

Lemma sortedHeap_pop (h : sortHeap) (item : sortItem) (rest : sortHeap) :
  sortedHeap h -> heapPop h = Some (item, rest) ->
  sortedHeap rest
  /\ (forall e, entry item = Some e ->
                (exists task, data item = Some task /\ sortedTask task (Some e))
                /\ Forall (crtsLe e) (entryEvents rest))
  /\ h ≡ₚ item :: rest.
Proof.
  intros [Hnil Hall] Hpop. pose proof (heapPop_perm _ _ _ Hpop) as Hperm.
  pose proof Hall as Hall'. rewrite Hperm in Hall'.
  apply Forall_cons in Hall' as [Hitem Hrest].
  destruct Hnil as [Hnil | Hlen].
  - assert (Hnr : hasNilEntry rest = false).
    { apply hasNilEntry_false. apply hasNilEntry_false in Hnil. rewrite Hperm in Hnil.
      by apply Forall_cons in Hnil as [_ ?]. }
    split; [split; [by left | done]|]. split; [|done].
    intros e He. split; [by apply Hitem|].
    by destruct (heapPop_min _ _ _ _ Hnil Hpop He) as (? & _).
  - destruct h as [|x [|y r]]; [done| |cbn in Hlen; lia].
    cbn in Hpop. injection Hpop as <- <-.
    split; [split; [by left | constructor]|]. split; [|done].
    intros e He. split; [by apply Hitem | constructor].
Qed.

Section SortedRound.
Context `{codec : rawKVCodec}.

(** A read from a sorted run in memory does not fail, and what it yields
    is not before the event peeked earlier. *)
Lemma sortedTask_read (task : flushTask) (c : option Event) :
  sortedTask task c ->
  exists r task',
    taskReadNext task = (r, task')
    /\ (r = Ok None
        \/ exists next, r = Ok (Some next) /\ sortedTask task' (Some next)
                        /\ forall ce, c = Some ce -> crtsLe ce next).
Proof.
  intros (mb & Hb & Hri & Hs). unfold taskReadNext. rewrite Hb.
  cbn [readNext]. unfold liftMem, mem_readNext.
  destruct (Z.leb_spec (len (events mb)) (readIndex mb)) as [Hend|Hin]; cbn [fst snd].
  { eexists _, _. split; [reflexivity | by left]. }
  destruct (Z.ltb_spec (readIndex mb) 0) as [|_]; [lia|].
  destruct (events mb !! Z.to_nat (readIndex mb)) as [next|] eqn:Hlk; cbn [fst snd].
  2:{ apply lookup_ge_None in Hlk. unfold len in Hin. lia. }
  eexists _, _. split; [reflexivity|]. right. exists next. split; [done|].
  assert (Hrem : memRemaining mb = next :: memRemaining
                   {| events := events mb; readIndex := readIndex mb + 1 |}).
  { unfold memRemaining. cbn [events readIndex].
    replace (Z.to_nat (readIndex mb + 1)) with (S (Z.to_nat (readIndex mb))) by lia.
    by apply drop_S. }
  rewrite Hrem in Hs. split.
  - eexists. split; [by destruct task|]. cbn [readIndex]. split; [lia|].
    destruct c as [ce|]; [|exact Hs].
    by apply StronglySorted_inv in Hs as [? _].
  - intros ce ->. apply StronglySorted_inv in Hs as [_ Hle].
    by apply Forall_cons in Hle as [? _].
Qed.

Lemma primeTask_sortedHeap (task : flushTask) (cache : option Event) (m : merger) :
  sortedTask task cache -> sortedHeap (mergeHeap m) ->
  sortedHeap (mergeHeap (snd (primeTask task cache m))).
Proof.
  intros Hst Hh. unfold primeTask.
  destruct (maxResolvedTs task <=? minResolvedTs m); [|done].
  assert (Hread : exists r task',
             match cache with
             | Some e => (Ok (Some e), task)
             | None => match finished task with
                       | Some err => (Err err, task)
                       | None => taskReadNext task
                       end
             end = (r, task')
             /\ forall e, r = Ok (Some e) -> sortedTask task' (Some e)).
  { destruct cache as [e|].
    - eexists _, _. split; [reflexivity|]. by intros e' [= <-].
    - destruct (finished task) as [err|].
      + eexists _, _. split; [reflexivity | done].
      + destruct (sortedTask_read _ _ Hst) as (r & task' & Hr & Hcase).
        exists r, task'. split; [done|]. intros e ->.
        destruct Hcase as [|(next & [= <-] & Hn & _)]; done. }
  destruct Hread as (r & task' & -> & Hr).
  destruct r as [event| | |]; cbn [snd]; try done.
  destruct (match event with Some e => _ | None => false end); [done|].
  destruct (heapPush _ _) as [h| | |] eqn:Hpush; cbn [snd]; try done.
  cbn [mergeHeap withHeap]. eapply sortedHeap_push; [|exact Hpush|].
  - exact Hh.
  - cbn [entry data]. intros e ->. eauto.
Qed.

Lemma prime_sortedHeap (todo : list (flushTask * option Event)) (m : merger) :
  Forall (fun tc => sortedTask (fst tc) (snd tc)) todo ->
  sortedHeap (mergeHeap m) ->
  sortedHeap (mergeHeap (snd (prime todo m))).
Proof.
  revert m; induction todo as [|[task cache] rest IH]; intros m Hall Hh; [done|].
  apply Forall_cons in Hall as [Ht Hall]. cbn [prime]. unfold sbind.
  pose proof (primeTask_sortedHeap task cache m Ht Hh) as H1.
  destruct (primeTask task cache m) as [[| | |] m1]; cbn [snd] in *; try done.
  by apply IH.
Qed.

Lemma drainStep_sorted (base : list Event) (item : sortItem) (m : merger)
  (e : Event) (task : flushTask) :
  entry item = Some e -> data item = Some task -> sortedTask task (Some e) ->
  sortedHeap (mergeHeap m) ->
  Forall (crtsLe e) (entryEvents (mergeHeap m)) ->
  (exists rc, rowChanges (outCh m) = rowChanges base ++ rc
              /\ StronglySorted crtsLe rc
              /\ Forall (fun x => crtsLe x e
                                  /\ Forall (crtsLe x) (entryEvents (mergeHeap m))) rc) ->
  sortedRound base (snd (drainStep item m)).
Proof.
  intros He Hd Hst Hh Hmin (rc & Hout & Hsorted & Hrc).
  unfold drainStep. rewrite Hd, He.
  set (m1 := if isRowChange e then _ else m).
  assert (Hm1 : mergeHeap m1 = mergeHeap m
                /\ exists rc1, rowChanges (outCh m1) = rowChanges base ++ rc1
                     /\ StronglySorted crtsLe rc1
                     /\ Forall (fun x => crtsLe x e
                                  /\ Forall (crtsLe x) (entryEvents (mergeHeap m))) rc1).
  { subst m1. destruct (isRowChange e) eqn:Hrow.
    - split; [done|]. exists (rc ++ [e]). cbn [outCh withOut].
      rewrite rowChanges_app, Hout.
      replace (rowChanges [e]) with [e] by (unfold rowChanges; cbn; by rewrite Hrow).
      split; [by rewrite app_assoc|].
      split.
      + apply StronglySorted_snoc; [done|]. eapply Forall_impl; [exact Hrc|]. by intros x [? _].
      + apply Forall_app. split; [done|]. constructor; [|constructor].
        split; [unfold crtsLe; lia | done].
    - split; [done|]. by exists rc. }
  clearbody m1. destruct Hm1 as (Hheap & rc1 & Hout1 & Hs1 & Hrc1).
  assert (Hsame : forall m2 : merger,
             outCh m2 = outCh m1 -> mergeHeap m2 = mergeHeap m1 -> sortedRound base m2).
  { intros m2 Ho Hhp. split; [by rewrite Hhp, Hheap|].
    exists rc1. rewrite Ho, Hhp, Hheap. split; [done|]. split; [done|].
    eapply Forall_impl; [exact Hrc1|]. by intros x [_ ?]. }
  destruct (sortedTask_read _ _ Hst) as (r & task' & -> & Hcase).
  destruct Hcase as [-> | (next & -> & Hnext & Hle)].
  - apply Hsame;
      match goal with
      | |- context [taskDealloc ?t ?m0] => apply (taskDealloc_effect t m0)
      end.
  - specialize (Hle e eq_refl).
    destruct (minResolvedTs m1 <=? CRTs next).
    + apply Hsame; apply retire_effect.
    + destruct (heapPush _ _) as [h| | |] eqn:Hpush; cbn [snd];
        try (apply Hsame; reflexivity).
      pose proof (heapPush_ok _ _ _ Hpush) as Hh'.
      assert (Hsh : sortedHeap h).
      { eapply sortedHeap_push; [|exact Hpush|].
        - by rewrite Hheap.
        - cbn [entry data]. intros e' [= <-]. eauto. }
      assert (Hpoll : mergeHeap (snd (pollTicker next (withHeap m1 h))) = h
                      /\ rowChanges (outCh (snd (pollTicker next (withHeap m1 h))))
                         = rowChanges (outCh m1)).
      { unfold pollTicker. destruct (ticker (withHeap m1 h)) as [|[|] rest]; cbn; try done.
        split; [done|]. rewrite rowChanges_app. cbn. by rewrite app_nil_r. }
      destruct Hpoll as [Hph Hpo]. split; [by rewrite Hph|].
      exists rc1. rewrite Hpo, Hph. split; [done|]. split; [done|].
      eapply Forall_impl; [exact Hrc1|]. intros x [Hxe Hxh]. cbn beta.
      rewrite Hh', Hheap, entryEvents_app. apply Forall_app. split; [done|].
      cbn. constructor; [|constructor]. unfold crtsLe in *. lia.
Qed.

Lemma drain_sorted (base : list Event) (fuel : nat) (m : merger)
  (r : outcome unit) (m' : merger) :
  sortedRound base m -> drain fuel m = Some (r, m') -> sortedRound base m'.
Proof.
  revert m; induction fuel as [|fuel IH]; intros m Hinv; [done|].
  cbn [drain]. destruct (heapPop (mergeHeap m)) as [[item rest]|] eqn:Hpop.
  2:{ by intros [= <- <-]. }
  destruct Hinv as (Hh & rc & Hout & Hs & Hrc).
  destruct (sortedHeap_pop _ _ _ Hh Hpop) as (Hrest & Hitem & Hperm).
  assert (Hsub : forall x, Forall (crtsLe x) (entryEvents (mergeHeap m)) ->
                           Forall (crtsLe x) (entryEvents rest)
                           /\ forall e, entry item = Some e -> crtsLe x e).
  { intros x Hx. unfold entryEvents in Hx. rewrite Hperm in Hx. cbn in Hx.
    fold (entryEvents rest) in Hx.
    destruct (entry item) as [e0|].
    - apply Forall_cons in Hx as [? ?]. split; [done|]. by intros e [= <-].
    - split; [done | done]. }
  assert (Hstep : sortedRound base (snd (drainStep item (withHeap m rest)))).
  { destruct (entry item) as [e|] eqn:He.
    - destruct (Hitem e eq_refl) as ((task & Hd & Hst) & Hmin).
      apply (drainStep_sorted base item (withHeap m rest) e task He Hd Hst);
        cbn [mergeHeap withHeap outCh]; try done.
      exists rc. split; [done|]. split; [done|].
      eapply Forall_impl; [exact Hrc|]. intros x Hx. cbn beta.
      destruct (Hsub x Hx) as [? Hxe]. split; [by apply Hxe | done].
    - unfold drainStep. rewrite He. destruct (data item); cbn [snd].
      + split; [done|]. exists rc. cbn [mergeHeap withHeap outCh].
        split; [done|]. split; [done|].
        eapply Forall_impl; [exact Hrc|]. intros x Hx. by apply Hsub.
      + split; [done|]. exists rc. cbn [mergeHeap withHeap outCh].
        split; [done|]. split; [done|].
        eapply Forall_impl; [exact Hrc|]. intros x Hx. by apply Hsub. }
  destruct (drainStep item (withHeap m rest)) as [[[]| | |] m1]; cbn [snd] in Hstep.
  - intros H. exact (IH _ Hstep H).
  - by intros [= <- <-].
  - by intros [= <- <-].
  - by intros [= <- <-].
Qed.

(** When every pending task holds its run in memory, in non-decreasing
    commit order from its cursor on and with its cached event not after the
    rest, the row changes a round sends are in non-decreasing commit order,
    whatever the ticker does and whether or not the round fails. *)
Theorem round_emits_in_commit_order (m : merger)
  (Hruns : Forall (fun tc => sortedTask (fst tc) (snd tc)) (pendingSet m)) :
  StronglySorted crtsLe (rowChanges (roundEmitted m)).
Proof.
  assert (Hinv : sortedRound (outCh m) (snd (onMinResolvedTsUpdate m))).
  { assert (Hempty : forall m0 : merger,
               outCh m0 = outCh m -> sortedHeap (mergeHeap m0) -> sortedRound (outCh m) m0).
    { intros m0 Ho Hh. split; [done|]. exists []. rewrite Ho, app_nil_r.
      split; [done|]. split; constructor. }
    unfold onMinResolvedTsUpdate.
    set (m0 := withHeap (withWorking m []) []).
    assert (Hh0 : sortedHeap (mergeHeap m0)).
    { split; [by left | constructor]. }
    pose proof (prime_sortedHeap (pendingSet m0) m0 Hruns Hh0) as Hp.
    pose proof (prime_out (pendingSet m0) m0) as Hpo.
    destruct (prime (pendingSet m0) m0) as [[[]| | |] m1]; cbn [snd] in Hp, Hpo;
      try (by apply Hempty).
    pose proof (Hempty m1 Hpo Hp) as H1.
    destruct (drain _ m1) as [[[[]| | |] m2]|] eqn:Hd; cbn [snd];
      try exact H1; try exact (drain_sorted _ _ _ _ _ H1 Hd).
    pose proof (drain_sorted _ _ _ _ _ H1 Hd) as (Hh2 & rc & Ho2 & Hs2 & Hrc2).
    split; [done|]. exists rc. unfold sendResolvedEvent. cbn [snd outCh withOut mergeHeap].
    rewrite rowChanges_app, Ho2. cbn. rewrite app_nil_r. done. }
  destruct Hinv as (_ & rc & Hout & Hs & _).
  destruct (round_out_extends m) as (body & Hext & _).
  unfold roundEmitted. rewrite Hext, drop_app_length.
  rewrite Hext, rowChanges_app in Hout. apply app_inv_head in Hout. by rewrite Hout.
Qed.

End SortedRound.

Lemma round_emits_in_commit_order_witness :
  StronglySorted crtsLe
    (rowChanges
       (@roundEmitted exampleCodec
          (withFrontier
             (withPending (@newMerger 2 (newBackEndPool "/tmp") [])
                [(memoryTask 0 0 10 [put 3; put 8; resolved 10], None);
                 (memoryTask 1 1 10 [put 5; put 9; resolved 10], Some (put 2))])
             [10; 10] 10))).
Proof.
  apply (@round_emits_in_commit_order exampleCodec).
  repeat constructor.
  - eexists. split; [reflexivity|]. split; [cbn; lia|].
    cbn. repeat constructor; unfold crtsLe; cbn; lia.
  - eexists. split; [reflexivity|]. split; [cbn; lia|].
    cbn. repeat constructor; unfold crtsLe; cbn; lia.
Defined.

(** ** The merger: what a round takes of each run *)

Lemma rowChanges_perm (l1 l2 : list Event) :
  l1 ≡ₚ l2 -> rowChanges l1 ≡ₚ rowChanges l2.
Proof.
  unfold rowChanges. induction 1 as [|x l l' _ IH|x y l|l l' l'' _ IH1 _ IH2]; cbn.
  - done.
  - destruct (decide _); [by apply perm_skip | done].
  - destruct (decide _), (decide _); try done. apply perm_swap.
  - by etrans.
Qed.

Lemma heapShare_perm (cut : Z) (h1 h2 : sortHeap) :
  h1 ≡ₚ h2 -> heapShare cut h1 ≡ₚ heapShare cut h2.
Proof.
  unfold heapShare. induction 1 as [|x l l' _ IH|x y l|l l' l'' _ IH1 _ IH2]; cbn.
  - done.
  - by apply Permutation_app_head.
  - rewrite !app_assoc. apply Permutation_app_tail, Permutation_app_comm.
  - by etrans.
Qed.

Lemma heapShare_app (cut : Z) (h1 h2 : sortHeap) :
  heapShare cut (h1 ++ h2) = heapShare cut h1 ++ heapShare cut h2.
Proof. unfold heapShare. by rewrite map_app, concat_app. Qed.

Lemma memoryItem_no_nil (h : sortHeap) :
  Forall memoryItem h -> hasNilEntry h = false.
Proof.
  intros H. apply hasNilEntry_false. eapply Forall_impl; [exact H|].
  intros it (e & _ & _ & He & _). eauto.
Qed.

Lemma heapPush_memoryItem (h : sortHeap) (x : sortItem) :
  Forall memoryItem h -> memoryItem x -> heapPush h x = Ok (h ++ [x]).
Proof.
  intros Hh Hx. unfold heapPush. destruct h as [|y r]; [done|].
  rewrite (memoryItem_no_nil (x :: y :: r)); [done | by constructor].
Qed.

Section RoundShare.
Context `{codec : rawKVCodec}.

(** A read from a memory backend yields what is left of it, in order. *)
Lemma memoryTask_read (task : flushTask) (mb : memorySorterBackEnd) :
  backend task = Some (MemoryBackEnd mb) -> 0 <= readIndex mb ->
  (memRemaining mb = []
   /\ taskReadNext task = (Ok None, setBackend task (MemoryBackEnd mb)))
  \/ exists next mb',
       memRemaining mb = next :: memRemaining mb'
       /\ 0 <= readIndex mb'
       /\ taskReadNext task = (Ok (Some next), setBackend task (MemoryBackEnd mb')).
Proof.
  intros Hb Hri. unfold taskReadNext. rewrite Hb.
  cbn [readNext]. unfold liftMem, mem_readNext.
  destruct (Z.leb_spec (len (events mb)) (readIndex mb)) as [Hend|Hin]; cbn [fst snd].
  { left. split; [|done]. unfold memRemaining. apply drop_ge. unfold len in Hend. lia. }
  destruct (Z.ltb_spec (readIndex mb) 0) as [|_]; [lia|].
  destruct (events mb !! Z.to_nat (readIndex mb)) as [next|] eqn:Hlk; cbn [fst snd].
  2:{ apply lookup_ge_None in Hlk. unfold len in Hin. lia. }
  right. exists next, {| events := events mb; readIndex := readIndex mb + 1 |}.
  split; [|split; [cbn; lia | done]].
  unfold memRemaining. cbn [events readIndex].
  replace (Z.to_nat (readIndex mb + 1)) with (S (Z.to_nat (readIndex mb))) by lia.
  by apply drop_S.
Qed.

Lemma itemShare_memory (cut : Z) (e : Event) (task : flushTask) (mb : memorySorterBackEnd) :
  backend task = Some (MemoryBackEnd mb) ->
  itemShare cut {| entry := Some e; data := Some task |} = e :: below cut (memRemaining mb).
Proof. intros Hb. unfold itemShare, pendingEvents. cbn. by rewrite Hb. Qed.

Lemma primeTask_share (cut : Z) (task : flushTask) (cache : option Event) (m : merger) :
  dueInMemory cut task cache -> minResolvedTs m = cut ->
  Forall memoryItem (mergeHeap m) ->
  exists h' m',
    primeTask task cache m = (Ok (), m')
    /\ minResolvedTs m' = cut /\ outCh m' = outCh m
    /\ mergeHeap m' = mergeHeap m ++ h'
    /\ Forall memoryItem h'
    /\ heapShare cut h' = roundShare cut (task, cache).
Proof.
  intros Hdue Hcut Hh. unfold primeTask, roundShare. cbn [fst].
  rewrite Hcut. destruct (Z.leb_spec (maxResolvedTs task) cut) as [Hle|].
  2:{ exists [], m. rewrite app_nil_r.
      split; [done|]. split; [done|]. split; [done|]. split; [done|].
      split; [constructor | done]. }
  destruct (Hdue Hle) as (mb & Hb & Hri & Hc).
  unfold pendingEvents. cbn [fst snd]. rewrite Hb.
  destruct cache as [c|].
  - change (option_list (Some c) ++ memRemaining mb) with (c :: memRemaining mb).
    unfold taken.
    destruct (Z.ltb_spec cut (CRTs c)) as [Hgt|Hnot].
    + eexists [], _. split; [reflexivity|]. rewrite app_nil_r.
      split; [done|]. split; [done|]. split; [done|]. split; [constructor | done].
    + assert (Hit : memoryItem {| entry := Some c; data := Some task |}).
      { exists c, task, mb. by repeat split. }
      cbn [mergeHeap withWorking withPending].
      rewrite (heapPush_memoryItem _ _ Hh Hit).
      eexists [_], _. split; [reflexivity|]. repeat split; try done.
      * by constructor.
      * unfold heapShare. cbn [map concat]. rewrite app_nil_r.
        by apply itemShare_memory.
  - destruct (Hc eq_refl) as [-> Hne].
    destruct (memoryTask_read task mb Hb Hri) as [[Hnil _] | (next & mb' & Hrem & Hri' & ->)];
      [done|].
    change (option_list None ++ memRemaining mb) with (memRemaining mb).
    rewrite Hrem. unfold taken.
    destruct (Z.ltb_spec cut (CRTs next)) as [Hgt|Hnot].
    + eexists [], _. split; [reflexivity|]. rewrite app_nil_r.
      split; [done|]. split; [done|]. split; [done|]. split; [constructor | done].
    + assert (Hit : memoryItem {| entry := Some next;
                                  data := Some (setBackend task (MemoryBackEnd mb')) |}).
      { exists next, (setBackend task (MemoryBackEnd mb')), mb'. by repeat split. }
      cbn [mergeHeap withWorking withPending].
      rewrite (heapPush_memoryItem _ _ Hh Hit).
      eexists [_], _. split; [reflexivity|]. repeat split; try done.
      * by constructor.
      * unfold heapShare. cbn [map concat]. rewrite app_nil_r.
        by apply itemShare_memory.
Qed.

Lemma prime_share (cut : Z) (todo : list (flushTask * option Event)) (m : merger) :
  Forall (fun tc => dueInMemory cut (fst tc) (snd tc)) todo ->
  minResolvedTs m = cut ->
  Forall memoryItem (mergeHeap m) ->
  exists h' m',
    prime todo m = (Ok (), m')
    /\ minResolvedTs m' = cut /\ outCh m' = outCh m
    /\ mergeHeap m' = mergeHeap m ++ h'
    /\ Forall memoryItem h'
    /\ heapShare cut h' = concat (map (roundShare cut) todo).
Proof.
  revert m; induction todo as [|[task cache] rest IH]; intros m Hall Hcut Hh.
  - exists [], m. rewrite app_nil_r.
    split; [done|]. split; [done|]. split; [done|]. split; [done|].
    split; [constructor | done].
  - apply Forall_cons in Hall as [Ht Hall]. cbn [fst snd] in Ht.
    destruct (primeTask_share cut task cache m Ht Hcut Hh)
      as (h1 & m1 & Hp & Hcut1 & Hout1 & Hheap1 & Hh1 & Hev).
    assert (Hm1 : Forall memoryItem (mergeHeap m1)).
    { rewrite Hheap1. apply Forall_app. by split. }
    destruct (IH m1 Hall Hcut1 Hm1) as (h' & m' & Hp' & Hcut' & Hout' & Hheap' & Hh' & Hev').
    exists (h1 ++ h'), m'. cbn [prime]. unfold sbind. rewrite Hp.
    split; [exact Hp'|]. split; [done|]. split; [congruence|]. split; [|split].
    + rewrite Hheap', Hheap1. by rewrite <- app_assoc.
    + apply Forall_app. by split.
    + rewrite heapShare_app. cbn [map concat]. by rewrite Hev, Hev'.
Qed.

Lemma retire_memory (task : flushTask) (mb : memorySorterBackEnd) (m : merger) :
  backend task = Some (MemoryBackEnd mb) -> 0 <= readIndex mb ->
  fst (retire task m) = Ok ().
Proof.
  intros Hb Hri. unfold retire.
  destruct (memoryTask_read task mb Hb Hri) as [[_ ->] | (next & mb' & _ & _ & ->)]; [|done].
  unfold taskDealloc. cbn [backend setBackend]. by rewrite dealloc_memory.
Qed.

Lemma drainStep_share (cut : Z) (item : sortItem) (m : merger) :
  memoryItem item -> minResolvedTs m = cut ->
  Forall memoryItem (mergeHeap m) ->
  exists h' m',
    drainStep item m = (Ok (), m')
    /\ minResolvedTs m' = cut
    /\ mergeHeap m' = mergeHeap m ++ h'
    /\ Forall memoryItem h'
    /\ rowChanges (outCh m') ++ rowChanges (heapShare cut h')
       = rowChanges (outCh m) ++ rowChanges (itemShare cut item).
Proof.
  intros (e & task & mb & He & Hd & Hb & Hri) Hcut Hh.
  assert (Hev : itemShare cut item = e :: below cut (memRemaining mb)).
  { unfold itemShare, pendingEvents. rewrite He, Hd. cbn. by rewrite Hb. }
  unfold drainStep. rewrite Hd, He.
  set (m1 := if isRowChange e then _ else m).
  assert (Hm1 : mergeHeap m1 = mergeHeap m /\ minResolvedTs m1 = cut
                /\ rowChanges (outCh m1) = rowChanges (outCh m) ++ rowChanges [e]).
  { subst m1. destruct (isRowChange e) eqn:Hrow.
    - cbn [outCh withOut mergeHeap minResolvedTs]. by rewrite rowChanges_app.
    - replace (rowChanges [e]) with (@nil Event); [by rewrite app_nil_r|].
      unfold rowChanges. cbn. by rewrite Hrow. }
  clearbody m1. destruct Hm1 as (Hheap & Hcut1 & Hout1).
  assert (Hstop : forall m2 : merger,
             outCh m2 = outCh m1 -> mergeHeap m2 = mergeHeap m1 ->
             minResolvedTs m2 = minResolvedTs m1 ->
             below cut (memRemaining mb) = [] ->
             minResolvedTs m2 = cut
             /\ mergeHeap m2 = mergeHeap m ++ []
             /\ Forall memoryItem []
             /\ rowChanges (outCh m2) ++ rowChanges (heapShare cut [])
                = rowChanges (outCh m) ++ rowChanges (itemShare cut item)).
  { intros m2 Ho Hhp Hmn Hbelow. split; [congruence|]. split; [by rewrite app_nil_r, Hhp|].
    split; [constructor|].
    change (rowChanges (heapShare cut [])) with (@nil Event).
    by rewrite app_nil_r, Ho, Hout1, Hev, Hbelow. }
  destruct (memoryTask_read task mb Hb Hri) as [[Hnil ->] | (next & mb' & Hrem & Hri' & ->)].
  - unfold taskDealloc. cbn [backend setBackend]. rewrite dealloc_memory.
    eexists [], _. split; [reflexivity|]. apply Hstop; try done. by rewrite Hnil.
  - rewrite Hcut1. destruct (Z.leb_spec cut (CRTs next)) as [Hge|Hlt].
    + pose proof (retire_memory (setBackend task (MemoryBackEnd mb')) mb' m1
                    eq_refl Hri') as Hok.
      pose proof (retire_effect (setBackend task (MemoryBackEnd mb')) m1) as [Ho Hhp].
      pose proof (retire_frontier (setBackend task (MemoryBackEnd mb')) m1) as [_ Hmn].
      destruct (retire (setBackend task (MemoryBackEnd mb')) m1) as [r m2].
      cbn [fst snd] in *. subst r.
      eexists [], _. split; [reflexivity|]. apply Hstop; try done.
      rewrite Hrem. cbn [below]. destruct (Z.ltb_spec (CRTs next) cut); [lia | done].
    + assert (Hit : memoryItem {| entry := Some next;
                                  data := Some (setBackend task (MemoryBackEnd mb')) |}).
      { exists next, (setBackend task (MemoryBackEnd mb')), mb'. by repeat split. }
      rewrite Hheap, (heapPush_memoryItem _ _ Hh Hit).
      assert (Hgoal : forall o, rowChanges o = rowChanges (outCh m1) ->
                rowChanges o
                ++ rowChanges (heapShare cut
                     [{| entry := Some next;
                         data := Some (setBackend task (MemoryBackEnd mb')) |}])
                = rowChanges (outCh m) ++ rowChanges (itemShare cut item)).
      { intros o ->. unfold heapShare. cbn [map concat]. rewrite app_nil_r.
        rewrite (itemShare_memory cut next (setBackend task (MemoryBackEnd mb')) mb' eq_refl).
        rewrite Hout1, Hev, Hrem. cbn [below].
        destruct (Z.ltb_spec (CRTs next) cut); [|lia].
        rewrite <- app_assoc. f_equal. by rewrite <- rowChanges_app. }
      unfold pollTicker. cbn [ticker withHeap].
      destruct (ticker m1) as [|[|] rest].
      * eexists _, _. split; [reflexivity|]. cbn [minResolvedTs mergeHeap outCh withHeap].
        repeat split; try done; [by constructor | by apply Hgoal].
      * unfold sendResolvedEvent.
        eexists _, _. split; [reflexivity|].
        cbn [minResolvedTs mergeHeap outCh withHeap withOut withTicker].
        repeat split; try done; [by constructor|]. apply Hgoal.
        rewrite rowChanges_app. unfold rowChanges at 2. cbn. by rewrite app_nil_r.
      * eexists _, _. split; [reflexivity|].
        cbn [minResolvedTs mergeHeap outCh withHeap withTicker].
        repeat split; try done; [by constructor | by apply Hgoal].
Qed.

Lemma drain_share (cut : Z) (T : list Event) (fuel : nat) (m : merger)
  (r : outcome unit) (m' : merger) :
  minResolvedTs m = cut ->
  Forall memoryItem (mergeHeap m) ->
  rowChanges (outCh m) ++ rowChanges (heapShare cut (mergeHeap m)) ≡ₚ T ->
  drain fuel m = Some (r, m') ->
  r = Ok () /\ minResolvedTs m' = cut /\ mergeHeap m' = [] /\ rowChanges (outCh m') ≡ₚ T.
Proof.
  revert m; induction fuel as [|fuel IH]; intros m Hcut Hh Hperm; [done|].
  cbn [drain]. destruct (heapPop (mergeHeap m)) as [[item rest]|] eqn:Hpop.
  - pose proof (heapPop_perm _ _ _ Hpop) as Hp.
    pose proof Hh as Hh'. rewrite Hp in Hh'. apply Forall_cons in Hh' as [Hitem Hrest].
    destruct (drainStep_share cut item (withHeap m rest) Hitem Hcut Hrest)
      as (h' & m1 & -> & Hcut1 & Hheap1 & Hh1 & Hout1).
    apply IH; [done | |].
    + rewrite Hheap1. apply Forall_app. by split.
    + rewrite Hheap1. cbn [mergeHeap withHeap outCh] in *.
      rewrite <- Hperm, (rowChanges_perm _ _ (heapShare_perm cut _ _ Hp)).
      rewrite heapShare_app, rowChanges_app.
      change (heapShare cut (item :: rest)) with (itemShare cut item ++ heapShare cut rest).
      rewrite rowChanges_app, !app_assoc, <- Hout1.
      rewrite <- !app_assoc. apply Permutation_app_head, Permutation_app_comm.
  - intros [= <- <-]. destruct (mergeHeap m) as [|x h] eqn:Hm; [|done].
    cbn in Hperm. rewrite app_nil_r in Hperm. done.
Qed.

(** When every pending task that is due holds its run in memory (and, if
    it has not been read yet, has not failed and has an event to give), the
    round returns nil and leaves the heap empty, and the row changes it
    sends are, each as often as it is there, those it takes of each due
    task: the first event of what the task has yet to give, unless it is
    above the cut, and the events after it up to the first that is not
    strictly below the cut.  The heap and the ticker decide the order, not
    what is sent.  (The event at which a task stops is read and dropped:
    the cached event of the task is the one after it.) *)
Theorem round_takes_prefix_of_each_run (m : merger)
  (Hruns : Forall (fun tc => dueInMemory (minResolvedTs m) (fst tc) (snd tc))
             (pendingSet m)) :
  fst (onMinResolvedTsUpdate m) = Ok ()
  /\ rowChanges (roundEmitted m)
     ≡ₚ rowChanges (concat (map (roundShare (minResolvedTs m)) (pendingSet m)))
  /\ mergeHeap (snd (onMinResolvedTsUpdate m)) = [].
Proof.
  set (m0 := withHeap (withWorking m []) []).
  destruct (prime_share (minResolvedTs m) (pendingSet m) m0 Hruns eq_refl
              ltac:(constructor))
    as (h1 & m1 & Hprime & Hcut1 & Hout1 & Hheap1 & Hh1 & Hev1).
  destruct (onMinResolvedTsUpdate_total m m1 () Hprime) as (r & m2 & Hd & Hround).
  unfold m0 in Hheap1, Hout1.
  cbn [mergeHeap outCh withHeap withWorking app] in Hheap1, Hout1.
  destruct (drain_share (minResolvedTs m)
              (rowChanges (outCh m)
               ++ rowChanges (concat (map (roundShare (minResolvedTs m)) (pendingSet m))))
              (S (heapWeight (mergeHeap m1))) m1 r m2 Hcut1)
    as (-> & Hcut2 & Hheap2 & Hperm); [by rewrite Hheap1| |exact Hd|].
  { rewrite Hout1, Hheap1, Hev1. done. }
  rewrite Hround. unfold sendResolvedEvent. cbn [fst snd mergeHeap withOut].
  split; [done|]. split; [|done].
  destruct (round_out_extends m) as (body & Hext & _).
  unfold roundEmitted. rewrite Hext, drop_app_length.
  rewrite Hround in Hext. unfold sendResolvedEvent in Hext. cbn [snd outCh withOut] in Hext.
  assert (Hrc : rowChanges (outCh m2) = rowChanges (outCh m) ++ rowChanges body).
  { rewrite <- rowChanges_app, <- Hext, rowChanges_app. unfold rowChanges at 3. cbn.
    by rewrite app_nil_r. }
  rewrite Hrc in Hperm. by apply Permutation_app_inv_l in Hperm.
Qed.

End RoundShare.

Lemma round_takes_prefix_of_each_run_witness :
  let m := withFrontier
             (withPending (@newMerger 2 (newBackEndPool "/tmp") [])
                [(memoryTask 0 0 5 [put 3; put 5; resolved 5; put 8], None);
                 (memoryTask 2 0 9 [put 9; resolved 9], None);
                 (memoryTask 1 1 5 [put 4; resolved 5], None)])
             [9; 5] 5 in
  fst (@onMinResolvedTsUpdate exampleCodec m) = Ok ()
  /\ rowChanges (@roundEmitted exampleCodec m)
     ≡ₚ rowChanges (concat (map (roundShare (minResolvedTs m)) (pendingSet m)))
  /\ mergeHeap (snd (@onMinResolvedTsUpdate exampleCodec m)) = [].
Proof.
  intros m. apply (@round_takes_prefix_of_each_run exampleCodec m).
  repeat constructor; intros Hdue; eexists;
    (split; [reflexivity|]); (split; [cbn; lia|]); intros _; (split; [done | discriminate]).
Defined.

(** ** The scheduler: which capture, which table *)

Section SchedulerFacts.
Import replication.

Lemma addWorkload_keys (wl : list (CaptureID * Z)) (c : CaptureID) (n : Z) (x : CaptureID) :
  In x (map fst (addWorkload wl c n)) <-> In x (map fst wl) \/ x = c.
Proof.
  induction wl as [|[c0 w] r IH]; cbn.
  - intuition.
  - destruct (String.eqb_spec c0 c) as [->|Hne]; cbn; [|rewrite IH]; intuition.
Qed.

Lemma countWorkloads_keys (statuses : TaskStatuses) (x : CaptureID) :
  In x (map fst (countWorkloads statuses)) <-> In x (captureIDs statuses).
Proof.
  unfold countWorkloads, captureIDs.
  assert (Hinner : forall (cts : list (CaptureID * TaskStatus)) wl,
             In x (map fst (fold_left
                              (fun wl ct => addWorkload wl (fst ct) (len (Tables (snd ct))))
                              cts wl))
             <-> In x (map fst wl) \/ In x (map fst cts)).
  { induction cts as [|ct r IH]; intros wl; cbn [fold_left map].
    - cbn. intuition.
    - rewrite IH, addWorkload_keys. cbn. intuition. }
  assert (Houter : forall (s : TaskStatuses) wl,
             In x (map fst (fold_left
                              (fun workloads captureStatuses =>
                                 fold_left
                                   (fun wl ct => addWorkload wl (fst ct) (len (Tables (snd ct))))
                                   (snd captureStatuses) workloads) s wl))
             <-> In x (map fst wl) \/ In x (concat (map (fun cf => map fst (snd cf)) s))).
  { induction s as [|cf r IH]; intros wl; cbn [fold_left map concat].
    - cbn. intuition.
    - rewrite IH, Hinner, in_app_iff. intuition. }
  rewrite Houter. cbn. intuition.
Qed.

Lemma pickMinCapture_keys (order : list (CaptureID * Z)) :
  order <> [] -> Forall (fun cw => snd cw < maxInt32) order ->
  In (pickMinCapture order) (map fst order).
Proof.
  destruct order as [|cw r _] using rev_ind; [done|]. intros _ Hall.
  apply Forall_app in Hall as [_ Hlast]. apply Forall_cons in Hlast as [Hw _].
  destruct cw as [c w]. rewrite pickMinCapture_last by done.
  rewrite map_app, in_app_iff. right. by left.
Qed.

(** In whatever order Go iterates over [workloads]: without any capture
    [getMinWorkloadCapture] returns the empty id, which makes [SyncTasks]
    stop dispatching; with one, and every workload below [math.MaxInt32],
    it returns the id of a capture that [TaskStatuses] names. *)
Theorem getMinWorkloadCapture_known_capture (statuses : TaskStatuses)
  (order : list (CaptureID * Z)) :
  order ≡ₚ countWorkloads statuses ->
  (captureIDs statuses = [] -> pickMinCapture order = ""%string)
  /\ (captureIDs statuses <> [] ->
      Forall (fun cw => snd cw < maxInt32) (countWorkloads statuses) ->
      In (pickMinCapture order) (captureIDs statuses)).
Proof.
  intros Hperm. split.
  - intros Hnone.
    assert (Hnil : countWorkloads statuses = []).
    { destruct (countWorkloads statuses) as [|[c w] r] eqn:Hc; [done|].
      assert (Hin : In c (captureIDs statuses)).
      { apply countWorkloads_keys. rewrite Hc. by left. }
      by rewrite Hnone in Hin. }
    rewrite Hnil in Hperm. apply Permutation_nil_r in Hperm. by subst order.
  - intros Hsome Hall. apply countWorkloads_keys.
    assert (Hkeys : map fst order ≡ₚ map fst (countWorkloads statuses))
      by (by apply Permutation_map).
    eapply Permutation_in; [exact Hkeys|].
    apply pickMinCapture_keys.
    + intros ->. apply Permutation_nil in Hperm.
      destruct (captureIDs statuses) as [|c r] eqn:Hc; [done|].
      assert (Hin : In c (map fst (countWorkloads statuses))).
      { apply countWorkloads_keys. rewrite Hc. by left. }
      by rewrite Hperm in Hin.
    + by rewrite Hperm.
Qed.

Lemma setCapture_lookup (m : list (TableID * CaptureID)) (t : TableID) (c : CaptureID)
  (x : TableID) :
  captureOfTable (setCapture m t c) x
  = if x =? t then Some c else captureOfTable m x.
Proof.
  unfold captureOfTable. induction m as [|[t0 c0] r IH]; cbn.
  - rewrite (Z.eqb_sym t x). by destruct (x =? t).
  - destruct (Z.eqb_spec t0 t) as [->|Hne]; cbn.
    + rewrite (Z.eqb_sym t x). by destruct (x =? t).
    + destruct (Z.eqb_spec t0 x) as [->|Hne'].
      * destruct (Z.eqb_spec x t); [congruence | done].
      * exact IH.
Qed.

Lemma setTables_lookup (tables : list TableID) (m : list (TableID * CaptureID))
  (c : CaptureID) (x : TableID) :
  captureOfTable (fold_left (fun m' tableID => setCapture m' tableID c) tables m) x
  = if bool_decide (x ∈ tables) then Some c else captureOfTable m x.
Proof.
  revert m; induction tables as [|t r IH]; intros m; cbn [fold_left].
  - rewrite bool_decide_eq_false_2; [done | apply not_elem_of_nil].
  - rewrite IH, setCapture_lookup.
    destruct (decide (x ∈ r)) as [Hin|Hnin].
    + rewrite !bool_decide_eq_true_2; [done | rewrite elem_of_cons; tauto | done].
    + rewrite (bool_decide_eq_false_2 _ Hnin).
      destruct (Z.eqb_spec x t) as [->|Hne].
      * rewrite bool_decide_eq_true_2; [done | rewrite elem_of_cons; tauto].
      * rewrite bool_decide_eq_false_2; [done|]. rewrite elem_of_cons. tauto.
Qed.

(** [getTableToCaptureMap] has an entry for a table exactly when a capture
    of the changefeed holds it, and the entry is a capture that holds it. *)
Theorem getTableToCaptureMap_holders (statuses : TaskStatuses) (cfID : ChangeFeedID)
  (tableID : TableID) :
  let holds (ct : CaptureID * TaskStatus) := In tableID (Tables (snd ct)) in
  (forall c, captureOfTable (getTableToCaptureMap statuses cfID) tableID = Some c ->
             exists status, In (c, status) (statusesOf statuses cfID)
                            /\ In tableID (Tables status))
  /\ (captureOfTable (getTableToCaptureMap statuses cfID) tableID = None
      <-> Forall (fun ct => ~ holds ct) (statusesOf statuses cfID)).
Proof.
  intros holds. unfold getTableToCaptureMap.
  assert (Hgen : forall (cts : list (CaptureID * TaskStatus)) m,
             let m' := fold_left
                         (fun m ct => fold_left (fun m' t => setCapture m' t (fst ct))
                                        (Tables (snd ct)) m) cts m in
             (forall c, captureOfTable m' tableID = Some c ->
                        captureOfTable m tableID = Some c
                        \/ exists status, In (c, status) cts /\ In tableID (Tables status))
             /\ (captureOfTable m' tableID = None
                 <-> captureOfTable m tableID = None /\ Forall (fun ct => ~ holds ct) cts)).
  { induction cts as [|[c0 st] r IH]; intros m; cbn [fold_left].
    - cbn. split; [by left|]. split; [by split | by intros [? _]].
    - destruct (IH (fold_left (fun m' t => setCapture m' t c0) (Tables st) m)) as [IH1 IH2].
      cbn [fst snd] in *. cbn zeta. rewrite setTables_lookup in IH1, IH2. split.
      + intros c Hc. destruct (IH1 c Hc) as [Hm | (status & Hin & Ht)].
        * destruct (decide (tableID ∈ Tables st)) as [Hin|Hnin].
          -- rewrite bool_decide_eq_true_2 in Hm by done. injection Hm as <-.
             right. exists st. split; [by left | by apply list_elem_of_In].
          -- rewrite bool_decide_eq_false_2 in Hm by done. by left.
        * right. exists status. split; [by right | done].
      + rewrite IH2, Forall_cons. unfold holds at 2. cbn [snd].
        destruct (decide (tableID ∈ Tables st)) as [Hin|Hnin].
        * rewrite bool_decide_eq_true_2 by done. apply list_elem_of_In in Hin.
          split; [by intros [? _] | tauto].
        * rewrite bool_decide_eq_false_2 by done. rewrite list_elem_of_In in Hnin. tauto. }
  destruct (Hgen (statusesOf statuses cfID) []) as [H1 H2]. split.
  - intros c Hc. destruct (H1 c Hc) as [Hnil|]; [done | done].
  - rewrite H2. cbn. tauto.
Qed.

End SchedulerFacts.

Section SchedulerWitness.
Import replication.

Lemma getMinWorkloadCapture_known_capture_witness :
  let statuses := [("cf"%string, [("a"%string, {| Tables := [1] |});
                                  ("b"%string, {| Tables := [2; 3] |})])] in
  (captureIDs statuses = [] -> pickMinCapture [("b"%string, 2); ("a"%string, 1)] = ""%string)
  /\ (captureIDs statuses <> [] ->
      Forall (fun cw => snd cw < maxInt32) (countWorkloads statuses) ->
      In (pickMinCapture [("b"%string, 2); ("a"%string, 1)]) (captureIDs statuses)).
Proof.
  intros statuses.
  apply (getMinWorkloadCapture_known_capture statuses [("b"%string, 2); ("a"%string, 1)]).
  vm_compute. apply perm_swap.
Defined.

End SchedulerWitness.

(** ** The merger: the drain of a round ends *)

Section DrainEnds.
Context `{codec : rawKVCodec}.

(** The second loop of a round ends, whatever the backends hold and
    whatever the ticker does: every iteration takes an item off the heap and
    puts back at most one whose backend has strictly less left to read, so
    one iteration more than [heapWeight] (the items of the heap plus the
    events and bytes their backends have left) is always enough. *)
Theorem round_drain_terminates (m : merger) :
  exists r m', drain (S (heapWeight (mergeHeap m))) m = Some (r, m').
Proof.
  destruct (drain_enough_fuel (S (heapWeight (mergeHeap m))) m ltac:(lia)) as [[r m'] H].
  eauto.
Qed.

End DrainEnds.

(** ** The heap sorter: a flush that spills to a file *)

Section SpilledFlush.
Context `{codec : rawKVCodec}.

(** The drain of a flush writes the heap in the order of its pops, which
    does not depend on the backend. *)
Lemma drainHeap_writeAll (fuel : nat) (h : sortHeap) :
  hasNilEntry h = false ->
  (length h <= fuel)%nat ->
  exists run,
    run ≡ₚ entryEvents h
    /\ StronglySorted crtsLe run
    /\ forall b b1, writeAll b run = (Ok (), b1) -> drainHeap fuel h b = (None, b1).
Proof.
  revert h; induction fuel as [|fuel IH]; intros h Hnil Hlen.
  - destruct h; [|cbn in Hlen; lia]. exists []. split; [done|]. split; [constructor|].
    by intros b b1 [= <-].
  - cbn [drainHeap]. destruct (heapPop h) as [[item rest]|] eqn:Hpop.
    + assert (Hitem : exists e, entry item = Some e).
      { pose proof (heapPop_perm _ _ _ Hpop) as Hperm.
        apply hasNilEntry_false in Hnil. rewrite Hperm in Hnil.
        by apply Forall_cons in Hnil as [? _]. }
      destruct Hitem as [e He]. rewrite He.
      destruct (heapPop_min h item rest e Hnil Hpop He) as (Hmin & Hnil' & Hperm).
      assert (Hlen' : (length rest <= fuel)%nat).
      { pose proof (heapPop_perm _ _ _ Hpop) as Hp. apply Permutation_length in Hp.
        cbn in Hp. lia. }
      destruct (IH rest Hnil' Hlen') as (run & Hp & Hs & Hw).
      exists (e :: run). split; [by rewrite Hperm, Hp|]. split.
      * constructor; [exact Hs|]. by rewrite Hp.
      * intros b b1. cbn [writeAll].
        destruct (writeNext b e) as [[[]| | |] b']; try done. apply Hw.
    + destruct h; [|done]. exists []. split; [done|]. split; [constructor|].
      by intros b b1 [= <-].
Qed.

Lemma rawEntries_of (P : RawKVEntry -> Prop) (l : list Event) :
  Forall (fun e => exists kv, RawKV e = Some kv /\ P kv) l ->
  exists kvs, map RawKV l = map Some kvs /\ Forall P kvs.
Proof.
  induction 1 as [|e l (kv & Hkv & HP) _ (kvs & Hm & Hall)].
  - by exists [].
  - exists (kv :: kvs). cbn. rewrite Hkv, Hm. split; [done | by constructor].
Qed.

Lemma encoded_length (enc : RawKVEntry -> list byte) (l1 l2 : list Event)
  (kvs : list RawKVEntry) :
  l1 ≡ₚ l2 -> map RawKV l1 = map Some kvs ->
  len (concat (map enc kvs))
  = len (concat (map (fun e => match RawKV e with Some kv => enc kv | None => [] end) l2)).
Proof.
  intros Hp Hkv. unfold len. f_equal.
  transitivity (length (concat (map (fun e => match RawKV e with
                                              | Some kv => enc kv
                                              | None => []
                                              end) l1))).
  - clear Hp. revert kvs Hkv; induction l1 as [|e r IH]; intros kvs Hkv.
    + by destruct kvs.
    + destruct kvs as [|kv kvs]; [done|]. injection Hkv as He Hr.
      cbn [map concat]. rewrite !length_app, He. f_equal. by apply IH.
  - clear Hkv. induction Hp as [|x l l' _ IH|x y l|l l' l'' _ IH1 _ IH2];
      cbn [map concat]; rewrite ?length_app; lia.
Qed.

(** At or above the memory limit, with nothing parked in the cache and
    [os.Create] going through, a flush of a non-empty heap ships one task,
    not failed, with a new file backend.  With a codec that appends, as
    msgp's does, and encodings of fewer than 2^32 bytes together, the
    backend then yields, read to its end, as many events as the heap held,
    but every one of them is the first of the run, the event of the heap
    with the lowest commit timestamp; then the sentinel. *)
Theorem heapSorter_flush_spills (enc : RawKVEntry -> list byte) (env : osEnv)
  (h : heapSorter) (w : world) (ts : Z) :
  heap h <> [] ->
  hasNilEntry (heap h) = false ->
  memoryLimit <= memoryUseEstimate (pool w) ->
  Forall (fun slot => slot = None) (cache (pool w)) ->
  createErr env
    (dir (pool w) ++ "/sort-" ++ decimal ((fileNameCounter (pool w) + 1) mod 2 ^ 64))%string
  = None ->
  Forall (fun e => exists kv, RawKV e = Some kv /\ codecAppends enc kv)
    (entryEvents (heap h)) ->
  len (concat (map (fun e => match RawKV e with Some kv => enc kv | None => [] end)
                 (entryEvents (heap h)))) < 2 ^ 32 ->
  exists first rest kv1 fb h' w',
    heapSorter_flush env h w ts = Ok (h', w')
    /\ heap h' = []
    /\ sorterOutCh w'
       = sorterOutCh w
         ++ [{| taskPtr := nextPtr w; heapSorterId := id h;
                backend := Some (FileBackEnd fb);
                maxResolvedTs := ts; finished := None |}]
    /\ first :: rest ≡ₚ entryEvents (heap h)
    /\ StronglySorted crtsLe (first :: rest)
    /\ RawKV first = Some kv1
    /\ forall k, fst (readN (length (first :: rest) + k) (FileBackEnd fb))
                 = replicate (length (first :: rest)) (Ok (Some (NewPolymorphicEvent kv1)))
                   ++ replicate k (Ok None).
Proof.
  intros Hne Hnil Hmem Hcache Hcreate Hcodec Hlen. unfold heapSorter_flush.
  destruct (heap h) as [|x r] eqn:Hh; [done|].
  unfold alloc. destruct (Z.ltb_spec (memoryUseEstimate (pool w)) memoryLimit); [lia|].
  rewrite (proj2 (takeCached_none _) Hcache). cbn zeta. rewrite Hcreate.
  cbn [mbind outcome_bind obind].
  set (fb0 := newFileSorterBackEnd _).
  destruct (drainHeap_writeAll (length (x :: r)) (x :: r) Hnil ltac:(lia))
    as (run & Hp & Hs & Hw).
  rewrite <- Hp in Hcodec. destruct (rawEntries_of _ _ Hcodec) as (kvs & Hkv & Hall).
  rewrite <- (encoded_length enc run _ kvs Hp Hkv) in Hlen.
  destruct run as [|first rest].
  { apply Permutation_nil in Hp. apply hasNilEntry_false in Hnil.
    apply Forall_cons in Hnil as [[e He] _]. unfold entryEvents in Hp. cbn in Hp.
    rewrite He in Hp. done. }
  destruct kvs as [|kv1 kvs]; [done|].
  destruct (file_backend_first_event enc kv1 kvs (first :: rest) fb0 Hall eq_refl eq_refl
              eq_refl Hkv Hlen) as (fb1 & (b1 & Hwr & Hfl) & Hread).
  unfold flushDrain. rewrite (Hw _ _ Hwr). rewrite Hfl.
  exists first, rest, kv1, fb1. eexists _, _.
  split; [reflexivity|]. split; [done|]. split; [done|]. split; [done|]. split; [done|].
  split; [by injection Hkv|]. exact Hread.
Qed.

End SpilledFlush.

Lemma heapSorter_flush_spills_witness :
  let h := {| id := 0;
              heap := [{| entry := Some (put 9); data := None |};
                       {| entry := Some (put 7); data := None |}];
              maxResolved := 0; heapSizeBytesEstimate := 0 |} in
  let w := {| pool := addMemoryUse (newBackEndPool "/tmp") memoryLimit;
              sorterOutCh := []; nextPtr := 0 |} in
  exists first rest kv1 fb h' w',
    @heapSorter_flush appendingCodec noCreateErr h w 0 = Ok (h', w')
    /\ heap h' = []
    /\ sorterOutCh w'
       = sorterOutCh w
         ++ [{| taskPtr := nextPtr w; heapSorterId := id h;
                backend := Some (FileBackEnd fb);
                maxResolvedTs := 0; finished := None |}]
    /\ first :: rest ≡ₚ entryEvents (heap h)
    /\ StronglySorted crtsLe (first :: rest)
    /\ RawKV first = Some kv1
    /\ forall k, fst (@readN (@msgPackGenSerde appendingCodec)
                        (length (first :: rest) + k) (FileBackEnd fb))
                 = replicate (length (first :: rest)) (Ok (Some (NewPolymorphicEvent kv1)))
                   ++ replicate k (Ok None).
Proof.
  apply (@heapSorter_flush_spills appendingCodec exampleEncode noCreateErr).
  - discriminate.
  - reflexivity.
  - vm_compute. discriminate.
  - cbn [pool cache addMemoryUse newBackEndPool]. apply Forall_replicate. reflexivity.
  - reflexivity.
  - change (Forall (fun e => exists kv, RawKV e = Some kv
                                        /\ @codecAppends appendingCodec exampleEncode kv)
              [put 9; put 7]).
    apply Forall_cons; split; [|apply Forall_cons; split; [|apply Forall_nil_2]];
      (cbn beta; eexists; split; [reflexivity|]; apply exampleEncode_appends;
       first [reflexivity | vm_compute; split; [discriminate | reflexivity]]).
  - vm_compute. reflexivity.
Defined.
